(** * Parallel paragraph search (proyecto1/main.c): model and properties

    A coordinator process cuts an input file into byte ranges that end at a
    line delimiter, hands them on demand to a pool of worker processes,
    puts the results back in file order through a sorted pending list and
    feeds them to a carry buffer from which blank-line-delimited paragraphs
    are extracted and matched.

    Conventions of the embedding:
    - the input file, pipe payloads and buffers are [list byte]; the file
      does not change during a run;
    - [size_t] quantities are lengths and indices of in-memory buffers and
      are natural numbers; [long] file offsets are integers with the 64-bit
      wrap-around written out ([wrap_long]), and the statements about whole
      runs assume that the length of the file fits a [long], as it must
      for [fseek] to address it; the [ssize_t] result of
      [find_double_newline] keeps its [-1] sentinel;
    - [regex_t *regex] is the compiled matcher, a predicate on C strings;
      [regexec] and [printf "%s"] see a buffer up to its first NUL byte
      ([c_str]);
    - standard output, the rows written by [write_log_entry] and the
      candidate records the extractor delimits are accumulated in the
      state; the lines of the log file itself, data rows and the copies
      of the header line that the coordinator and the workers write, are
      followed by [main_log]; the elapsed time of a chunk is an integer
      number of microseconds given by the environment;
    - processes and pipes are a transition system: a schedule is the
      order in which [select] lets the coordinator read the pipes of the
      workers, one message at a time; a worker is seen through the
      messages in flight on its two pipes. *)

From Stdlib Require Import List ZArith Lia Bool Arith Permutation.
From Stdlib Require Import Sorting.Sorted.
From Stdlib Require Import Strings.Byte.
From Stdlib Require Strings.String.
Import ListNotations String.StringSyntax.
Delimit Scope string_scope with string.

Set Warnings "-abstract-large-number".

(** ** Constants and machine integers *)

Definition BUFFER_SIZE : nat := 8192.
Definition MAX_PROCESSES : nat := 32.

Definition LONG_MAX : Z := 9223372036854775807.

(** A [long] result: the mathematical value reduced to 64 bits, two's
    complement. *)
Definition wrap_long (z : Z) : Z :=
  (z + 9223372036854775808) mod 18446744073709551616 - 9223372036854775808.

Definition NL : byte := x0a.
Definition NUL : byte := x00.

Definition is_nl (b : byte) : bool := Byte.eqb b NL.

(** The C string that starts at the front of a buffer whose terminator
    sits right after its last byte: everything before the first NUL. *)
Fixpoint c_str (data : list byte) : list byte :=
  match data with
  | [] => []
  | b :: rest => if Byte.eqb b NUL then [] else b :: c_str rest
  end.

(** ** Growable byte buffer

    [StringBuffer] is modelled by its contents [data[0 .. length)];
    capacity and the terminator byte are storage details. *)

Definition StringBuffer : Type := list byte.

Definition string_buffer_init : StringBuffer := [].

Definition string_buffer_append (buf : StringBuffer) (data : list byte)
    (len : nat) : StringBuffer :=
  buf ++ firstn len data.

Definition string_buffer_consume (buf : StringBuffer) (len : nat)
    : StringBuffer :=
  if length buf <=? len then [] else skipn len buf.

(** ** Record extractor *)

(** [for (i = 0; i + 1 < len; ++i)]: the scan walks the buffer while at
    least two bytes remain; [i] is the index of the head of [data]. *)
Fixpoint find_double_newline_from (i : nat) (data : list byte) : Z :=
  match data with
  | a :: (b :: _) as rest =>
      if is_nl a && is_nl b then Z.of_nat i
      else find_double_newline_from (S i) rest
  | _ => (-1)%Z
  end.

Definition find_double_newline (data : list byte) (len : nat) : Z :=
  find_double_newline_from 0 (firstn len data).

(** What the coordinator has written so far: the bytes of standard output
    and, in order, the candidate records it has delimited in the carry
    buffer ([para_len] bytes from its start, or all of it in the flush);
    each is handed to the matcher, and printed, as a C string. *)
Record Output : Type := mkOutput {
  stdout : list byte;
  candidates : list (list byte)
}.

Definition printf (o : Output) (s : list byte) : Output :=
  mkOutput (stdout o ++ s) (candidates o).

Definition tested (o : Output) (rec : list byte) : Output :=
  mkOutput (stdout o) (candidates o ++ [rec]).

Section Extractor.

Variable regex : list byte -> bool.

(** One turn of the [while (1)] of [process_paragraphs]; [None] is the
    [break]. *)
Definition process_paragraphs_body (carry : StringBuffer) (o : Output)
    (chunk_match : bool) : option (StringBuffer * Output * bool) :=
  let delim_index := find_double_newline carry (length carry) in
  if (delim_index <? 0)%Z then None
  else
    let para_len := Z.to_nat delim_index in
    let record := firstn para_len carry in
    let o1 := tested o record in
    let hit := regex (c_str record) in
    let o2 := if hit then printf o1 (c_str record ++ [NL; NL]) else o1 in
    let consume := para_len + 2 in
    Some (string_buffer_consume carry consume, o2, hit || chunk_match).

Fixpoint process_paragraphs_loop (fuel : nat) (carry : StringBuffer)
    (o : Output) (chunk_match : bool)
    : option (StringBuffer * Output * bool) :=
  match process_paragraphs_body carry o chunk_match with
  | None => Some (carry, o, chunk_match)
  | Some (carry', o', m') =>
      match fuel with
      | 0 => None
      | S fuel' => process_paragraphs_loop fuel' carry' o' m'
      end
  end.

(** The number of turns that find a delimiter pair, counted along the
    same loop. *)
Fixpoint process_paragraphs_turns (fuel : nat) (carry : StringBuffer)
    : nat :=
  match process_paragraphs_body carry (mkOutput [] []) false with
  | None => 0
  | Some (carry', _, _) =>
      match fuel with
      | 0 => 0
      | S fuel' => S (process_paragraphs_turns fuel' carry')
      end
  end.

(** [process_paragraphs]: the loop is given one turn per two bytes of
    the buffer, which [process_paragraphs_loop_total] shows is all it
    can use. *)
Definition process_paragraphs (carry : StringBuffer) (o : Output)
    : StringBuffer * Output * bool :=
  match process_paragraphs_loop (length carry / 2) carry o false with
  | Some r => r
  | None => (carry, o, false)
  end.

(** [data[length - 1] == '\n']; false for the empty buffer. *)
Definition ends_with_nl (buf : StringBuffer) : bool :=
  is_nl (nth (length buf - 1) buf NUL).

Definition flush_remaining_paragraph (carry : StringBuffer) (o : Output)
    : StringBuffer * Output * bool :=
  if length carry =? 0 then (carry, o, false)
  else
    let o1 := tested o carry in
    let hit := regex (c_str carry) in
    let o2 :=
      if hit then
        let o3 := printf o1 (c_str carry) in
        if (length carry =? 0) || negb (ends_with_nl carry)
        then printf o3 [NL] else o3
      else o1 in
    ([], o2, hit).

End Extractor.

(** ** Chunk reader (worker side) *)

(** [fseek (file, offset, SEEK_SET)] followed by [fread (buf, 1, n, file)]:
    a negative offset makes [fseek] fail; past the end [fread] returns
    nothing. *)
Definition fread_at (file : list byte) (offset : Z) (n : nat)
    : option (list byte) :=
  if (offset <? 0)%Z then None
  else Some (firstn n (skipn (Z.to_nat offset) file)).

(** [for (j = read_bytes; j > 0; --j) if (buffer[j - 1] == '\n') ...]:
    the position just after the last line delimiter, or [dflt] when the
    scan runs out. *)
Fixpoint scan_last_newline (buffer : list byte) (j : nat) (dflt : nat)
    : nat :=
  match j with
  | 0 => dflt
  | S j' =>
      if is_nl (nth j' buffer NUL) then j
      else scan_last_newline buffer j' dflt
  end.

(** Lines 245-255 of [child_process]: the trimming step. *)
Definition child_trim (buffer : list byte) (read_bytes : nat) : nat :=
  let usable := read_bytes in
  if 0 <? read_bytes then
    let last_newline := scan_last_newline buffer read_bytes 0 in
    if 0 <? last_newline then last_newline else usable
  else usable.

(** Line 256: the fall-back to the full read. *)
Definition child_usable (buffer : list byte) (read_bytes : nat) : nat :=
  let usable := child_trim buffer read_bytes in
  if (usable =? 0) && (0 <? read_bytes) then read_bytes else usable.

(** What a worker puts on its pipe after an assignment [(offset, bytes)]:
    the [ResultPayload] header and [usable] bytes of its buffer.  The
    elapsed time is what the clock gave, in microseconds. *)
Record ResultPayload : Type := mkPayload {
  p_process_id : nat;
  p_file_offset : Z;
  p_bytes_read : nat;
  p_elapsed_time : Z;
  p_text_length : nat
}.

Definition child_result (file : list byte) (id : nat) (offset : Z)
    (bytes : nat) (elapsed : Z) : option (ResultPayload * list byte) :=
  match fread_at file offset bytes with
  | None => None
  | Some buffer =>
      let read_bytes := length buffer in
      let usable := child_usable buffer read_bytes in
      Some (mkPayload id offset usable elapsed usable, firstn usable buffer)
  end.

(** ** Reorder buffer *)

Record ChunkNode : Type := mkChunk {
  process_id : nat;
  file_offset : Z;
  bytes_read : nat;
  elapsed_time : Z;
  text_length : nat;
  text : list byte
}.

Definition create_chunk (payload : ResultPayload) (txt : list byte)
    : ChunkNode :=
  mkChunk (p_process_id payload) (p_file_offset payload)
    (p_bytes_read payload) (p_elapsed_time payload) (p_text_length payload)
    (if 0 <? p_text_length payload
     then firstn (p_text_length payload) txt else []).

(** The [while (curr->next && curr->next->file_offset < node->file_offset)]
    walk; the argument is [curr->next]. *)
Fixpoint insert_after (next : list ChunkNode) (node : ChunkNode)
    : list ChunkNode :=
  match next with
  | [] => [node]
  | n :: rest =>
      if (file_offset n <? file_offset node)%Z
      then n :: insert_after rest node
      else node :: next
  end.

Definition insert_chunk_sorted (head : list ChunkNode) (node : ChunkNode)
    : list ChunkNode :=
  match head with
  | [] => [node]
  | h :: rest =>
      if (file_offset node <? file_offset h)%Z then node :: head
      else h :: insert_after rest node
  end.

(** The popped node and the new head, or [None] for [NULL]. *)
Definition pop_expected_chunk (head : list ChunkNode) (expected_offset : Z)
    : option (ChunkNode * list ChunkNode) :=
  match head with
  | [] => None
  | node :: rest =>
      if negb (file_offset node =? expected_offset)%Z then None
      else Some (node, rest)
  end.

(** ** Run log *)

Record LogEntry : Type := mkLog {
  log_process_id : nat;
  log_file_offset : Z;
  log_bytes_read : nat;
  log_elapsed_time : Z;
  log_found : bool
}.

Definition write_log_entry (logfile : list LogEntry) (pid : nat)
    (offset : Z) (nbytes : nat) (elapsed : Z) (found : bool)
    : list LogEntry :=
  logfile ++ [mkLog pid offset nbytes elapsed found].

(** ** Coordinator *)

Record Coordinator : Type := mkCoordinator {
  next_offset_to_assign : Z;
  next_offset_to_process : Z;
  pending_chunks : list ChunkNode;
  carry : StringBuffer;
  finished_assignments : bool;
  finished_children : nat;
  end_sent : list bool;
  out : Output;
  logfile : list LogEntry
}.

Fixpoint array_set {A : Type} (a : list A) (i : nat) (v : A) : list A :=
  match a, i with
  | [], _ => []
  | _ :: rest, 0 => v :: rest
  | x :: rest, S i' => x :: array_set rest i' v
  end.

Definition coordinator_init : Coordinator :=
  mkCoordinator 0 0 [] string_buffer_init false 0
    (repeat false MAX_PROCESSES) (mkOutput [] []) [].

(** Messages a worker writes, and what the coordinator writes back. *)
Inductive Message : Type :=
| MsgEOF
| MsgRequest (req_id : nat)
| MsgResult (payload : ResultPayload) (txt : list byte).

Inductive Reply : Type :=
| NoReply
| ReplyEnd
| ReplyAssign (offset : Z) (bytes : nat).

(** Lines 396-405: how many bytes of the read-ahead window are handed
    out. *)
Definition distributor_bytes (tempbuf : list byte) (read_bytes : nat)
    : nat :=
  let last_newline := scan_last_newline tempbuf read_bytes read_bytes in
  let bytes := if last_newline <? read_bytes then last_newline
               else read_bytes in
  if bytes =? 0 then read_bytes else bytes.

(** Lines 376-380 and 389-393. *)
Definition send_end (i : nat) (c : Coordinator) : Coordinator * Reply :=
  if negb (nth i (end_sent c) false)
  then (mkCoordinator (next_offset_to_assign c) (next_offset_to_process c)
          (pending_chunks c) (carry c) (finished_assignments c)
          (finished_children c) (array_set (end_sent c) i true)
          (out c) (logfile c),
        ReplyEnd)
  else (c, NoReply).

(** Lines 373-411: a work request from worker [i].  [None] is a fatal
    exit ([fseek] failed). *)
Definition handle_request (file : list byte) (i : nat) (c : Coordinator)
    : option (Coordinator * Reply) :=
  if finished_assignments c then Some (send_end i c)
  else
    match fread_at file (next_offset_to_assign c) BUFFER_SIZE with
    | None => None
    | Some tempbuf =>
        let read_bytes := length tempbuf in
        if read_bytes =? 0 then
          Some (send_end i
                  (mkCoordinator (next_offset_to_assign c)
                     (next_offset_to_process c) (pending_chunks c) (carry c)
                     true (finished_children c) (end_sent c) (out c)
                     (logfile c)))
        else
          let bytes := distributor_bytes tempbuf read_bytes in
          let assigned_offset := next_offset_to_assign c in
          Some (mkCoordinator
                  (wrap_long (next_offset_to_assign c + Z.of_nat bytes))
                  (next_offset_to_process c) (pending_chunks c) (carry c)
                  (finished_assignments c) (finished_children c)
                  (end_sent c) (out c) (logfile c),
                ReplyAssign assigned_offset bytes)
    end.

Section Drain.

Variable regex : list byte -> bool.

(** Lines 427-434 (and 445-452): the body run for a popped chunk
    [ready]; [head] is the pending list after the pop. *)
Definition consume_chunk (ready : ChunkNode) (head : list ChunkNode)
    (c : Coordinator) : Coordinator :=
  let carry1 :=
    if 0 <? text_length ready
    then string_buffer_append (carry c) (text ready) (text_length ready)
    else carry c in
  let '(carry2, out2, found) := process_paragraphs regex carry1 (out c) in
  mkCoordinator (next_offset_to_assign c)
    (wrap_long (file_offset ready + Z.of_nat (bytes_read ready)))
    head carry2 (finished_assignments c) (finished_children c)
    (end_sent c) out2
    (write_log_entry (logfile c) (process_id ready) (file_offset ready)
       (bytes_read ready) (elapsed_time ready) found).

(** The [while (1)] around [pop_expected_chunk]; every turn pops one
    node, [None] is running out of turns. *)
Fixpoint drain_loop (fuel : nat) (c : Coordinator) : option Coordinator :=
  match pop_expected_chunk (pending_chunks c) (next_offset_to_process c)
  with
  | None => Some c
  | Some (ready, head) =>
      match fuel with
      | 0 => None
      | S fuel' => drain_loop fuel' (consume_chunk ready head c)
      end
  end.

Definition drain_pending (c : Coordinator) : Coordinator :=
  match drain_loop (length (pending_chunks c)) c with
  | Some c' => c'
  | None => c
  end.

(** Lines 413-435: a completed chunk arrives. *)
Definition handle_result (payload : ResultPayload) (txt : list byte)
    (c : Coordinator) : Coordinator :=
  let node := create_chunk payload txt in
  drain_pending
    (mkCoordinator (next_offset_to_assign c) (next_offset_to_process c)
       (insert_chunk_sorted (pending_chunks c) node) (carry c)
       (finished_assignments c) (finished_children c) (end_sent c)
       (out c) (logfile c)).

(** Lines 365-370: the pipe of a worker is at end of file. *)
Definition handle_eof (c : Coordinator) : Coordinator :=
  mkCoordinator (next_offset_to_assign c) (next_offset_to_process c)
    (pending_chunks c) (carry c) (finished_assignments c)
    (S (finished_children c)) (end_sent c) (out c) (logfile c).

(** One message read from the pipe of worker [i] (lines 363-438). *)
Definition dispatch (file : list byte) (i : nat) (m : Message)
    (c : Coordinator) : option (Coordinator * Reply) :=
  match m with
  | MsgEOF => Some (handle_eof c, NoReply)
  | MsgRequest _ => handle_request file i c
  | MsgResult payload txt => Some (handle_result payload txt c, NoReply)
  end.

(** Lines 442-456: after the dispatch loop, a last drain and the
    terminal flush. *)
Definition main_epilogue (c : Coordinator) : Coordinator :=
  let c1 := drain_pending c in
  let '(carry2, out2, _) :=
    flush_remaining_paragraph regex (carry c1) (out c1) in
  mkCoordinator (next_offset_to_assign c1) (next_offset_to_process c1)
    (pending_chunks c1) carry2 (finished_assignments c1)
    (finished_children c1) (end_sent c1) out2 (logfile c1).

End Drain.

(** ** Workers, pipes and the dispatch loop

    A worker is seen through what is in flight on its two pipes. *)
Inductive Worker : Type :=
| Requesting                        (* a REQUEST is waiting to be read *)
| Assigned (offset : Z) (bytes : nat) (* a RESULT will follow *)
| Waiting                           (* request read, nothing written back *)
| Exiting                           (* end flag sent: the pipe will close *)
| Closed.                           (* the coordinator has seen the close *)

Record System : Type := mkSystem {
  coord : Coordinator;
  workers : list Worker
}.

Definition system_init (num_procs : nat) : System :=
  mkSystem coordinator_init (repeat Requesting num_procs).

(** The pipe of worker [ev_worker] is found readable by [select]; for a
    result, [ev_elapsed] is the time the worker measured. *)
Record Event : Type := mkEvent {
  ev_worker : nat;
  ev_elapsed : Z
}.

(** What the coordinator reads from the pipe of a worker; [None] when
    nothing is there to read or the worker died on [fseek]. *)
Definition worker_message (file : list byte) (i : nat) (w : Worker)
    (elapsed : Z) : option Message :=
  match w with
  | Requesting => Some (MsgRequest i)
  | Assigned offset bytes =>
      match child_result file i offset bytes elapsed with
      | Some (payload, txt) => Some (MsgResult payload txt)
      | None => None
      end
  | Exiting => Some MsgEOF
  | Waiting | Closed => None
  end.

(** The worker after its message was read and answered. *)
Definition worker_next (w : Worker) (r : Reply) : Worker :=
  match w, r with
  | Requesting, ReplyAssign offset bytes => Assigned offset bytes
  | Requesting, ReplyEnd => Exiting
  | Requesting, NoReply => Waiting
  | Assigned _ _, _ => Requesting
  | Exiting, _ => Closed
  | _, _ => w
  end.

Section Dispatch.

Variable file : list byte.
Variable regex : list byte -> bool.

Definition system_step (s : System) (e : Event) : option System :=
  let i := ev_worker e in
  match nth_error (workers s) i with
  | None => None
  | Some w =>
      match worker_message file i w (ev_elapsed e) with
      | None => None
      | Some m =>
          match dispatch regex file i m (coord s) with
          | None => None
          | Some (c', r) =>
              Some (mkSystem c' (array_set (workers s) i (worker_next w r)))
          end
      end
  end.

Fixpoint run (s : System) (es : list Event) : option System :=
  match es with
  | [] => Some s
  | e :: es' =>
      match system_step s e with
      | None => None
      | Some s' => run s' es'
      end
  end.

Definition is_closed (w : Worker) : bool :=
  match w with Closed => true | _ => false end.

(** The dispatch loop is left when its condition fails or no pipe is
    open any more ([maxfd < 0]). *)
Definition main_loop_exits (num_procs : nat) (s : System) : bool :=
  negb ((finished_children (coord s) <? num_procs)
        || negb (length (pending_chunks (coord s)) =? 0))
  || forallb is_closed (workers s).

(** A whole run of [main] under a schedule: the argument check of lines
    279-282, the state when the loop is left, then the epilogue.  [None]
    is a failure exit or a schedule that does not end the loop. *)
Definition main (num_procs : nat) (es : list Event) : option Coordinator :=
  if (num_procs <? 1) || (MAX_PROCESSES <? num_procs) then None
  else
    match run (system_init num_procs) es with
    | None => None
    | Some s =>
        if main_loop_exits num_procs s
        then Some (main_epilogue regex (coord s))
        else None
    end.

End Dispatch.

(** ** The matcher for a literal word

    [regcomp] and [regexec] belong to the C library.  The program gives
    them the pattern wrapped by [wrap_pattern_with_boundaries], that is
    between [(^|[^[:alnum:]_])] and [([^[:alnum:]_]|$)].  For a pattern
    that is a plain word, [regexec] on the wrapped expression succeeds
    exactly when the word occurs with no alphanumeric or underscore byte
    right before or right after it; [word_match] is that test.  The
    general statements below hold for any matcher. *)
Definition is_word_byte (b : byte) : bool :=
  let n := Byte.to_N b in
  ((48 <=? n) && (n <=? 57) || (65 <=? n) && (n <=? 90)
   || (97 <=? n) && (n <=? 122) || (n =? 95))%N.

Fixpoint starts_with (pat s : list byte) : option (list byte) :=
  match pat, s with
  | [], _ => Some s
  | p :: pat', b :: s' => if Byte.eqb p b then starts_with pat' s' else None
  | _ :: _, [] => None
  end.

Definition boundary_after (rest : list byte) : bool :=
  match rest with
  | [] => true
  | b :: _ => negb (is_word_byte b)
  end.

(** [prev_ok] tells whether a match may start at the head of [s]. *)
Fixpoint word_match_from (pat : list byte) (prev_ok : bool) (s : list byte)
    : bool :=
  (prev_ok &&
   match starts_with pat s with
   | Some rest => boundary_after rest
   | None => false
   end)
  || match s with
     | [] => false
     | b :: s' => word_match_from pat (negb (is_word_byte b)) s'
     end.

Definition word_match (pat : list byte) (s : list byte) : bool :=
  word_match_from pat true s.

(** * Vocabulary of the statements *)

(** ** What the paragraph loop computes

    [extracts carry recs rem]: the loop started on [carry] cuts off the
    records [recs], in this order, and leaves [rem]. *)
Inductive extracts : StringBuffer -> list (list byte) -> StringBuffer -> Prop :=
| extracts_done (carry : StringBuffer) :
    find_double_newline_from 0 carry = (-1)%Z ->
    extracts carry [] carry
| extracts_turn (record rest : list byte) (recs : list (list byte))
    (rem : StringBuffer) :
    find_double_newline_from 0 (record ++ NL :: NL :: rest)
      = Z.of_nat (length record) ->
    extracts rest recs rem ->
    extracts (record ++ NL :: NL :: rest) (record :: recs) rem.

(** The blank-line-delimited paragraphs of a text, in the words of the
    specification and without buffers, indices or chunks: reading from
    left to right, a paragraph ends at the next pair of line delimiters,
    and what is left at the end, if anything, is the last paragraph.
    [cur] is the part of the current paragraph already passed. *)
Fixpoint paragraphs_from (cur : list byte) (l : list byte)
    : list (list byte) :=
  match l with
  | [] => match cur with [] => [] | _ :: _ => [cur] end
  | a :: l1 =>
      match l1 with
      | b :: l2 =>
          if is_nl a && is_nl b then cur :: paragraphs_from [] l2
          else paragraphs_from (cur ++ [a]) l1
      | [] => [cur ++ [a]]
      end
  end.

Definition paragraphs (input : list byte) : list (list byte) :=
  paragraphs_from [] input.

Definition last_paragraph (rem : StringBuffer) : list (list byte) :=
  match rem with [] => [] | _ :: _ => [rem] end.

Section Rendering.

Variable regex : list byte -> bool.

Definition hit (record : list byte) : bool := regex (c_str record).

(** What one turn of the loop adds to the output for its record. *)
Definition emit_record (o : Output) (record : list byte) : Output :=
let o1 := tested o record in
if regex (c_str record) then printf o1 (c_str record ++ [NL; NL])
else o1.

Definition emit (o : Output) (recs : list (list byte)) : Output :=
fold_left emit_record recs o.

Definition render (recs : list (list byte)) : list byte :=
concat (map (fun r => c_str r ++ [NL; NL]) (filter hit recs)).

(** The bytes the terminal flush writes for what is left in the carry
  buffer. *)
Definition flush_text (rem : StringBuffer) : list byte :=
match rem with
| [] => []
| _ :: _ =>
    if hit rem
    then c_str rem ++ (if ends_with_nl rem then [] else [NL])
    else []
end.

End Rendering.

Section Ranges.

Variable file : list byte.

(** The [n] bytes of the file from offset [off] on (fewer at the end). *)
Definition slice (off : Z) (n : nat) : list byte :=
firstn n (skipn (Z.to_nat off) file).

(** The length of the range the distributor cuts at offset [off]; zero
  at end of file. *)
Definition window_bytes (off : Z) : nat :=
let tempbuf := slice off BUFFER_SIZE in
if length tempbuf =? 0 then 0
else distributor_bytes tempbuf (length tempbuf).

(** [chain a l b]: the ranges [l] are the ones the distributor cuts
  one after the other from offset [a], and they end at [b]. *)
Fixpoint chain (a : Z) (l : list (Z * nat)) (b : Z) : Prop :=
match l with
| [] => a = b
| (o, n) :: l' =>
    o = a /\ n = window_bytes a /\ 0 < n /\
    chain (a + Z.of_nat n)%Z l' b
end.

End Ranges.

Definition offset_le (a b : ChunkNode) : Prop :=
  (file_offset a <= file_offset b)%Z.

Definition chunk_range (ch : ChunkNode) : Z * nat :=
  (file_offset ch, bytes_read ch).

Definition worker_range (w : Worker) : list (Z * nat) :=
  match w with
  | Assigned offset bytes => [(offset, bytes)]
  | _ => []
  end.

Definition log_range (e : LogEntry) : Z * nat :=
  (log_file_offset e, log_bytes_read e).


(** ** What holds between two messages *)

Section Invariants.

Variable file : list byte.
Variable regex : list byte -> bool.

(** A pending chunk carries the bytes of its range of the file. *)
Definition chunk_ok (ch : ChunkNode) : Prop :=
  text_length ch = bytes_read ch /\
  text ch = slice file (file_offset ch) (bytes_read ch).

(** What the carry buffer holds once the file has been consumed up to
    [off]. *)
Definition carry_at (off : Z) : StringBuffer :=
  let '(rem, _, _) :=
    process_paragraphs regex (firstn (Z.to_nat off) file) (mkOutput [] [])
  in rem.

(** The found flag of the chunk cut at [off]: whether a record completed
    by the bytes of that chunk matches. *)
Definition found_at (off : Z) : bool :=
  let '(_, _, m) :=
    process_paragraphs regex
      (carry_at off ++ slice file off (window_bytes file off))
      (mkOutput [] [])
  in m.

Definition log_ok (e : LogEntry) : Prop :=
  log_found e = found_at (log_file_offset e).

(** The coordinator between two messages; [inflight] are the ranges
    handed out whose results have not been read yet. *)
Record coord_inv (inflight : list (Z * nat)) (c : Coordinator) : Prop := {
  ci_process : (0 <= next_offset_to_process c)%Z;
  ci_tiles :
    exists l,
      Permutation l (map chunk_range (pending_chunks c) ++ inflight) /\
      chain file (next_offset_to_process c) l (next_offset_to_assign c);
  ci_sorted : StronglySorted offset_le (pending_chunks c);
  ci_chunks : Forall chunk_ok (pending_chunks c);
  ci_out :
    exists recs,
      extracts (firstn (Z.to_nat (next_offset_to_process c)) file) recs
        (carry c) /\
      out c = emit regex (mkOutput [] []) recs;
  ci_log_chain :
    chain file 0 (map log_range (logfile c)) (next_offset_to_process c);
  ci_log_ok : Forall log_ok (logfile c);
  ci_finished :
    finished_assignments c = true ->
    next_offset_to_assign c = Z.of_nat (length file)
}.

Definition is_leaving (w : Worker) : bool :=
  match w with Exiting | Closed => true | _ => false end.

Record invariant (num_procs : nat) (s : System) : Prop := {
  inv_coord : coord_inv (flat_map worker_range (workers s)) (coord s);
  inv_drained :
    pop_expected_chunk (pending_chunks (coord s))
      (next_offset_to_process (coord s)) = None;
  inv_leaving :
    existsb is_leaving (workers s) = true ->
    finished_assignments (coord s) = true;
  inv_children :
    finished_children (coord s) = length (filter is_closed (workers s));
  inv_workers : length (workers s) = num_procs
}.

End Invariants.

(** ** Log rows and schedules *)

(** The columns of a log row a chunk brings with it. *)
Definition log_header (e : LogEntry) : nat * Z * nat * Z :=
  (log_process_id e, log_file_offset e, log_bytes_read e,
   log_elapsed_time e).

Definition chunk_header (ch : ChunkNode) : nat * Z * nat * Z :=
  (process_id ch, file_offset ch, bytes_read ch, elapsed_time ch).



(** How many of the messages read along a schedule are results. *)
Fixpoint results_read (file : list byte) (regex : list byte -> bool)
    (s : System) (es : list Event) : nat :=
  match es with
  | [] => 0
  | e :: es' =>
      match system_step file regex s e with
      | None => 0
      | Some s' =>
          match nth_error (workers s) (ev_worker e) with
          | Some (Assigned _ _) => 1
          | _ => 0
          end + results_read file regex s' es'
      end
  end.

(** ** Inputs used as examples *)

Definition bytes_of (s : String.string) : list byte :=
  String.list_byte_of_string s.

(** ["alpha beta\n\ngamma alpha\n\ndelta\n"] *)
Definition scenario_input : list byte :=
  bytes_of "alpha beta"%string ++ [NL; NL]
  ++ bytes_of "gamma alpha"%string ++ [NL; NL]
  ++ bytes_of "delta"%string ++ [NL].

Definition scenario_regex : list byte -> bool :=
  word_match (bytes_of "alpha"%string).

(** Worker 1 is served first and gets the only chunk; worker 0 is told
    to stop; worker 1 delivers, asks again and is told to stop. *)
Definition scenario_schedule : list Event :=
  [mkEvent 1 0; mkEvent 0 0; mkEvent 0 0; mkEvent 1 7; mkEvent 1 0;
   mkEvent 1 0].

(** The same run with the two workers exchanged. *)
Definition scenario_schedule_swapped : list Event :=
  [mkEvent 0 0; mkEvent 1 0; mkEvent 1 0; mkEvent 0 7; mkEvent 0 0;
   mkEvent 0 0].

(** A line of 8191 letters, and a second short line: two chunks. *)
Definition two_chunk_input : list byte :=
  repeat x61 8191 ++ [NL; x62; NL].

(** One worker: request, result, request, result, request, close. *)
Definition one_worker_schedule : list Event :=
  [mkEvent 0 0; mkEvent 0 5; mkEvent 0 0; mkEvent 0 6; mkEvent 0 0;
   mkEvent 0 0].

(** A line longer than the read-ahead window. *)
Definition long_line_input : list byte := repeat x61 8193.

(** A paragraph with a NUL byte in it: ["a\0b\n\n"]. *)
Definition nul_input : list byte := [x61; NUL; x62; NL; NL].

(** A file without a final blank line: ["alpha"]. *)
Definition tail_input : list byte := bytes_of "alpha"%string.

Definition short_schedule : list Event :=
  [mkEvent 0 0; mkEvent 0 5; mkEvent 0 0; mkEvent 0 0].

(** * More of the program *)

(** ** Pipe transfers: [read_full] and [write_full]

    What the system calls of one pipe do, in the order they are made.
    For [read]: [Transfer bs] means the bytes [bs] are in the pipe; the
    call takes as many of them as it was asked for and leaves the others
    there, and with no bytes it is the end of file.  For [write], only
    the length of [bs] counts: the room the pipe has.  [Interrupted] is a
    call that fails with [EINTR], [Failed] one that fails otherwise. *)
Inductive Syscall : Type :=
| Transfer (bs : list byte)
| Interrupted
| Failed.

(** [read_full]: [acc] is what is already in the buffer ([total] is its
    length), [bytes] what is still to be read.  The result is the return
    value, the buffer and the calls still to come; [None] when the calls
    run out with the loop still waiting. *)
Fixpoint read_full (script : list Syscall) (bytes : nat) (acc : list byte)
    : option (Z * list byte * list Syscall) :=
  if bytes =? 0 then Some (Z.of_nat (length acc), acc, script)
  else
    match script with
    | [] => None
    | Transfer bs :: rest =>
        if length bs =? 0 then Some (Z.of_nat (length acc), acc, rest)
        else if length bs <=? bytes
             then read_full rest (bytes - length bs) (acc ++ bs)
             else Some (Z.of_nat (length acc + bytes),
                        acc ++ firstn bytes bs,
                        Transfer (skipn bytes bs) :: rest)
    | Interrupted :: rest => read_full rest bytes acc
    | Failed :: rest => Some ((-1)%Z, acc, rest)
    end.

(** [write_full]: [sent] is what went into the pipe so far, [buffer] what
    is still to be written.  A [write] that takes nothing is tried
    again. *)
Fixpoint write_full (script : list Syscall) (buffer : list byte)
    (sent : list byte) : option (Z * list byte * list Syscall) :=
  if length buffer =? 0 then Some (Z.of_nat (length sent), sent, script)
  else
    match script with
    | [] => None
    | Transfer room :: rest =>
        if length buffer <=? length room
        then Some (Z.of_nat (length sent + length buffer), sent ++ buffer,
                   rest)
        else write_full rest (skipn (length room) buffer)
               (sent ++ firstn (length room) buffer)
    | Interrupted :: rest => write_full rest buffer sent
    | Failed :: rest => Some ((-1)%Z, sent, rest)
    end.

(** The bytes a script holds before its end of file or failure. *)
Fixpoint stream_of (script : list Syscall) : list byte :=
  match script with
  | [] => []
  | Transfer bs :: rest =>
      match bs with [] => [] | _ :: _ => bs ++ stream_of rest end
  | Interrupted :: rest => stream_of rest
  | Failed :: _ => []
  end.

Definition not_interrupted (c : Syscall) : bool :=
  match c with Interrupted => false | _ => true end.

(** ** Sizes of the growable buffer

    [size_t] arithmetic of [string_buffer_reserve] and
    [string_buffer_append], with its 64-bit wrap-around. *)
Definition SIZE_MODULUS : Z := 18446744073709551616.

Definition wrap_size (z : Z) : Z := z mod SIZE_MODULUS.

(** [while (new_cap < needed) new_cap *= 2;]; [None] when the turns run
    out. *)
Fixpoint reserve_loop (fuel : nat) (new_cap needed : Z) : option Z :=
  if (new_cap <? needed)%Z then
    match fuel with
    | 0 => None
    | S fuel' => reserve_loop fuel' (wrap_size (new_cap * 2)) needed
    end
  else Some new_cap.

(** The capacity after [string_buffer_reserve (buf, needed)]. *)
Definition string_buffer_reserve (fuel : nat) (capacity needed : Z)
    : option Z :=
  if (needed <=? capacity)%Z then Some capacity
  else
    let new_cap := if (capacity =? 0)%Z then 4096%Z else capacity in
    reserve_loop fuel new_cap needed.

(** Length and capacity of a buffer. *)
Record BufferSizes : Type := mkSizes {
  bs_length : Z;
  bs_capacity : Z
}.

(** Length and capacity after [string_buffer_append (buf, data, len)]. *)
Definition string_buffer_append_sizes (fuel : nat) (b : BufferSizes)
    (len : Z) : option BufferSizes :=
  match string_buffer_reserve fuel (bs_capacity b)
          (wrap_size (wrap_size (bs_length b + len) + 1)) with
  | None => None
  | Some cap => Some (mkSizes (wrap_size (bs_length b + len)) cap)
  end.

(** ** The wrapped pattern *)

Definition pattern_prefix : list byte :=
  bytes_of "(^|[^[:alnum:]_])("%string.

Definition pattern_suffix : list byte :=
  bytes_of ")([^[:alnum:]_]|$)"%string.

(** [wrap_pattern_with_boundaries]: the string written by [sprintf] and
    the number of bytes asked of [malloc].  The pattern is a C string. *)
Definition wrap_pattern_with_boundaries (pattern : list byte)
    : list byte * nat :=
  let len := length (c_str pattern) in
  let total := length pattern_prefix + len + length pattern_suffix + 1 in
  (pattern_prefix ++ c_str pattern ++ pattern_suffix, total).

(** ** Measures of a state of the dispatch loop *)

(** How many more messages a worker can send at most, not counting the
    results of ranges still to be handed out. *)
Definition worker_weight (w : Worker) : nat :=
  match w with
  | Requesting => 2
  | Assigned _ _ => 3
  | Exiting => 1
  | Waiting | Closed => 0
  end.

Definition messages_left (file : list byte) (s : System) : Z :=
  (2 * (Z.of_nat (length file) - next_offset_to_assign (coord s))
   + Z.of_nat (list_sum (map worker_weight (workers s))))%Z.

(** The end flag has been sent to exactly the workers that are leaving,
    and no request is left without an answer. *)
Definition ends_sent_ok (s : System) : Prop :=
  length (end_sent (coord s)) = MAX_PROCESSES /\
  length (workers s) <= MAX_PROCESSES /\
  forall i w,
    nth_error (workers s) i = Some w ->
    w <> Waiting /\
    nth i (end_sent (coord s)) false = is_leaving w.

Definition total_bytes (log : list LogEntry) : nat :=
  list_sum (map log_bytes_read log).

(** ** The calls a transfer makes *)

(** A [read] that lets the loop of [read_full] go on: it brought at
    least one byte, or it was interrupted. *)
Definition carries_on (c : Syscall) : bool :=
  match c with
  | Transfer (_ :: _) | Interrupted => true
  | Transfer [] | Failed => false
  end.

(** A [write] that lets the loop of [write_full] go on. *)
Definition not_failed (c : Syscall) : bool :=
  match c with Failed => false | _ => true end.

(** The room the calls of a script give to [write], all together. *)
Fixpoint room_of (script : list Syscall) : nat :=
  match script with
  | [] => 0
  | Transfer room :: rest => length room + room_of rest
  | _ :: rest => room_of rest
  end.

(** ** The log file

    [main] opens the log and writes the header line with [fprintf]
    (lines 284-286) without flushing it.  The forks come after that
    (line 307), so every worker starts with a copy of the [FILE] buffer
    that holds the header, and writes it to the file when it calls
    [exit] (line 268).  The coordinator's own copy goes out with its
    first [fflush], in [write_log_entry], or with [fclose] (line 475).
    All these writes go through the one open file, each after what is
    already there.  A line of the file is the header or a data row. *)
Inductive LogLine : Type :=
| HeaderLine
| DataLine (row : LogEntry).

(** The file, the buffer of the coordinator's [FILE], and the buffer of
    each worker's copy ([None] once the worker has exited). *)
Record LogFile : Type := mkLogFile {
  lf_written : list LogLine;
  lf_buffer : list LogLine;
  lf_children : list (option (list LogLine))
}.

(** Lines 284-286. *)
Definition log_open : LogFile := mkLogFile [] [HeaderLine] [].

(** Line 307, [num_procs] times: the child gets the buffer as it is. *)
Definition log_fork (num_procs : nat) (l : LogFile) : LogFile :=
  mkLogFile (lf_written l) (lf_buffer l)
    (repeat (Some (lf_buffer l)) num_procs).

(** [fflush] or [fclose] in the coordinator. *)
Definition log_flush (l : LogFile) : LogFile :=
  mkLogFile (lf_written l ++ lf_buffer l) [] (lf_children l).

(** [write_log_entry] as the file sees it: [fprintf], then [fflush]. *)
Definition log_write_row (l : LogFile) (row : LogEntry) : LogFile :=
  log_flush
    (mkLogFile (lf_written l) (lf_buffer l ++ [DataLine row])
       (lf_children l)).

(** Line 268: [exit] in worker [i] writes its buffer out.  [None] when
    that worker is not running any more. *)
Definition log_exit (l : LogFile) (i : nat) : option LogFile :=
  match nth_error (lf_children l) i with
  | Some (Some buffer) =>
      Some (mkLogFile (lf_written l ++ buffer) (lf_buffer l)
              (array_set (lf_children l) i None))
  | _ => None
  end.

Fixpoint log_exits (l : LogFile) (xs : list nat) : option LogFile :=
  match xs with
  | [] => Some l
  | i :: xs' =>
      match log_exit l i with
      | None => None
      | Some l' => log_exits l' xs'
      end
  end.

Definition has_exited (l : LogFile) (i : nat) : bool :=
  match nth_error (lf_children l) i with
  | Some None => true
  | _ => false
  end.

Definition is_exiting (w : Worker) : bool :=
  match w with Exiting => true | _ => false end.

(** One turn of the dispatch loop, and the workers that call [exit]
    while it runs: [(i, r)] says that worker [i] exits when the
    coordinator has written [r] log rows in this turn ([r = 0]: before
    the first of them, and before the message of this turn is read). *)
Record Action : Type := mkAction {
  act_event : Event;
  act_exits : list (nat * nat)
}.

Definition exits_at (exits : list (nat * nat)) (r : nat) : list nat :=
  map fst (filter (fun x => snd x =? r) exits).

(** The rows of one turn go to the file one by one; before row number
    [r], and after the last one, the workers that exit at that point
    write their buffers. *)
Fixpoint log_rows (l : LogFile) (rows : list LogEntry) (r : nat)
    (exits : list (nat * nat)) : option LogFile :=
  match log_exits l (exits_at exits r) with
  | None => None
  | Some l1 =>
      match rows with
      | [] => Some l1
      | row :: rows' => log_rows (log_write_row l1 row) rows' (S r) exits
      end
  end.

Record Machine : Type := mkMachine {
  m_system : System;
  m_log : LogFile
}.

Definition machine_init (num_procs : nat) : Machine :=
  mkMachine (system_init num_procs) (log_fork num_procs log_open).

Section LogFileRun.

Variable file : list byte.
Variable regex : list byte -> bool.

(** A turn of the loop with the log file.  A worker exits only after it
    was sent the end flag, and its pipe is at end of file only once it
    has exited: [exit] writes the buffers out before the descriptors are
    closed. *)
Definition machine_step (m : Machine) (a : Action) : option Machine :=
  let s := m_system m in
  let i := ev_worker (act_event a) in
  match system_step file regex s (act_event a) with
  | None => None
  | Some s' =>
      let rows := skipn (length (logfile (coord s))) (logfile (coord s')) in
      if forallb (fun x => (snd x <=? length rows)
                           && is_exiting (nth (fst x) (workers s) Closed))
           (act_exits a)
      then
        match log_rows (m_log m) rows 0 (act_exits a) with
        | None => None
        | Some l' =>
            if is_exiting (nth i (workers s) Closed)
               && negb (has_exited l' i)
            then None
            else Some (mkMachine s' l')
        end
      else None
  end.

Fixpoint machine_run (m : Machine) (acts : list Action) : option Machine :=
  match acts with
  | [] => Some m
  | a :: acts' =>
      match machine_step m a with
      | None => None
      | Some m' => machine_run m' acts'
      end
  end.

(** [main] with its log file: the final state of the coordinator and the
    lines of the file after [fclose]. *)
Definition main_log (num_procs : nat) (acts : list Action)
    : option (Coordinator * list LogLine) :=
  if (num_procs <? 1) || (MAX_PROCESSES <? num_procs) then None
  else
    match machine_run (machine_init num_procs) acts with
    | None => None
    | Some m =>
        let s := m_system m in
        if main_loop_exits num_procs s
        then
          let cf := main_epilogue regex (coord s) in
          let rows :=
            skipn (length (logfile (coord s))) (logfile cf) in
          Some (cf,
                lf_written
                  (log_flush (fold_left log_write_row rows (m_log m))))
        else None
    end.

End LogFileRun.







(** ** More inputs used as examples *)






(** ** Proof steps used more than once *)

Ltac split_and := repeat match goal with |- _ /\ _ => split end.

Ltac case_if :=
  match goal with
  | |- context [if ?b then _ else _] => destruct b eqn:?
  end.

(** ** The extraction pipeline on its own

    The chunks of a file reach the carry buffer in file order; here the
    same steps (the body of the drain loop for each chunk, then the
    epilogue) are run on an arbitrary cutting of an input into pieces. *)

Definition chunk_of_text (txt : list byte) : ChunkNode :=
  mkChunk 0 0 (length txt) 0 (length txt) txt.

Definition consume_all (regex : list byte -> bool)
    (texts : list (list byte)) (c : Coordinator) : Coordinator :=
  fold_left (fun c txt => consume_chunk regex (chunk_of_text txt) [] c)
    texts c.

(** * Properties *)

(** ** Bytes and scans *)

Lemma is_nl_true (b : byte) : is_nl b = true <-> b = NL.
Proof.
  unfold is_nl; split; intro H.
  - now apply Byte.byte_dec_bl.
  - now apply Byte.byte_dec_lb.
Qed.

Lemma is_nl_false (b : byte) : is_nl b = false <-> b <> NL.
Proof.
  rewrite <- is_nl_true. destruct (is_nl b); split; congruence.
Qed.

(** The backward scan stops just after the last line delimiter below
    [j], and falls to the default when there is none. *)
Lemma scan_last_newline_spec (buffer : list byte) (j dflt : nat) :
  (scan_last_newline buffer j dflt = dflt /\
   forall k, k < j -> is_nl (nth k buffer NUL) = false)
  \/
  (0 < scan_last_newline buffer j dflt <= j /\
   is_nl (nth (scan_last_newline buffer j dflt - 1) buffer NUL) = true /\
   forall k, scan_last_newline buffer j dflt <= k < j ->
             is_nl (nth k buffer NUL) = false).
Proof.
  induction j as [|j IH]; simpl.
  - left; split; [reflexivity | intros; lia].
  - destruct (is_nl (nth j buffer NUL)) eqn:E.
    + right. replace (S j - 1) with j by lia.
      split; [lia|]. split; [exact E|]. intros; lia.
    + destruct IH as [[Hd Hn] | (Hr & Hnl & Hn)].
      * left; split; [exact Hd|].
        intros k Hk. destruct (Nat.eq_dec k j) as [->|]; [exact E|].
        apply Hn; lia.
      * right. split; [lia|]. split; [exact Hnl|].
        intros k Hk. destruct (Nat.eq_dec k j) as [->|]; [exact E|].
        apply Hn; lia.
Qed.

Lemma scan_last_newline_none (buffer : list byte) (j dflt : nat) :
  (forall k, k < j -> is_nl (nth k buffer NUL) = false) ->
  scan_last_newline buffer j dflt = dflt.
Proof.
  induction j as [|j IH]; simpl; intro H; [reflexivity|].
  rewrite (H j) by lia. apply IH; intros; apply H; lia.
Qed.

Lemma scan_last_newline_hit (buffer : list byte) (j dflt : nat) :
  is_nl (nth j buffer NUL) = true ->
  scan_last_newline buffer (S j) dflt = S j.
Proof. simpl; intros ->; reflexivity. Qed.

Lemma child_trim_positive (buffer : list byte) (read_bytes : nat) :
  0 < read_bytes -> 0 < child_trim buffer read_bytes.
Proof.
  intro H. unfold child_trim.
  destruct (0 <? read_bytes) eqn:E; [|apply Nat.ltb_ge in E; lia].
  destruct (0 <? scan_last_newline buffer read_bytes 0) eqn:E1.
  - now apply Nat.ltb_lt in E1.
  - exact H.
Qed.

Lemma scan_last_newline_le (buffer : list byte) (j dflt : nat) :
  dflt <= j -> scan_last_newline buffer j dflt <= j.
Proof.
  intro H.
  destruct (scan_last_newline_spec buffer j dflt) as [[-> _]|[? _]]; lia.
Qed.

Lemma child_usable_le (buffer : list byte) (read_bytes : nat) :
  child_usable buffer read_bytes <= read_bytes.
Proof.
  pose proof (scan_last_newline_le buffer read_bytes 0 (Nat.le_0_l _)).
  unfold child_usable, child_trim. repeat case_if; lia.
Qed.

Lemma child_usable_no_newline (buffer : list byte) (read_bytes : nat) :
  (forall k, k < read_bytes -> is_nl (nth k buffer NUL) = false) ->
  child_usable buffer read_bytes = read_bytes.
Proof.
  intro H. unfold child_usable, child_trim.
  rewrite (scan_last_newline_none buffer read_bytes 0 H).
  destruct read_bytes; reflexivity.
Qed.




(** ** The paragraph loop *)

Lemma find_double_newline_all (data : list byte) :
  find_double_newline data (length data) = find_double_newline_from 0 data.
Proof. unfold find_double_newline. now rewrite firstn_all. Qed.

Lemma find_double_newline_from_range (data : list byte) (i : nat) :
  find_double_newline_from i data = (-1)%Z \/
  (Z.of_nat i <= find_double_newline_from i data /\
   find_double_newline_from i data + 2 <= Z.of_nat (i + length data))%Z.
Proof.
  revert i. induction data as [|a data IH]; intro i; [left; reflexivity|].
  destruct data as [|b data]; [left; reflexivity|].
  change (find_double_newline_from i (a :: b :: data))
    with (if is_nl a && is_nl b then Z.of_nat i
          else find_double_newline_from (S i) (b :: data)).
  destruct (is_nl a && is_nl b).
  - right. simpl length. lia.
  - destruct (IH (S i)) as [H|H]; [left; exact H|right].
    simpl length in *. lia.
Qed.

(** The delimiter pair sits at the index that was found: the buffer is
    the record, two line delimiters and the rest. *)
Lemma find_double_newline_from_split (data : list byte) (i : nat) :
  (0 <= find_double_newline_from i data)%Z ->
  exists rest,
    data = firstn (Z.to_nat (find_double_newline_from i data) - i) data
           ++ NL :: NL :: rest.
Proof.
  revert i. induction data as [|a data IH]; intro i; [simpl; lia|].
  destruct data as [|b data]; [simpl; lia|].
  change (find_double_newline_from i (a :: b :: data))
    with (if is_nl a && is_nl b then Z.of_nat i
          else find_double_newline_from (S i) (b :: data)).
  destruct (is_nl a && is_nl b) eqn:E; intro H.
  - apply andb_true_iff in E as [Ea Eb].
    apply is_nl_true in Ea, Eb. subst a b.
    exists data. replace (Z.to_nat (Z.of_nat i) - i) with 0 by lia.
    reflexivity.
  - destruct (IH (S i) H) as [rest Hrest].
    destruct (find_double_newline_from_range (b :: data) (S i)) as [Hm|Hr];
      [lia|].
    exists rest.
    replace (Z.to_nat (find_double_newline_from (S i) (b :: data)) - i)
      with (S (Z.to_nat (find_double_newline_from (S i) (b :: data)) - S i))
      by lia.
    rewrite firstn_cons. simpl app. f_equal. exact Hrest.
Qed.

Lemma string_buffer_consume_skipn (buf : StringBuffer) (len : nat) :
  string_buffer_consume buf len = skipn len buf.
Proof.
  unfold string_buffer_consume. destruct (length buf <=? len) eqn:E.
  - apply Nat.leb_le in E. symmetry. now apply skipn_all2.
  - reflexivity.
Qed.

Section ExtractorFacts.

Variable regex : list byte -> bool.

Lemma process_paragraphs_body_some (carry : StringBuffer) (o : Output)
    (m : bool) (carry' : StringBuffer) (o' : Output) (m' : bool) :
  process_paragraphs_body regex carry o m = Some (carry', o', m') ->
  exists (para_len : nat) (rest : list byte),
    find_double_newline_from 0 carry = Z.of_nat para_len /\
    carry = firstn para_len carry ++ NL :: NL :: rest /\
    carry' = rest /\
    para_len + 2 + length rest = length carry /\
    m' = regex (c_str (firstn para_len carry)) || m /\
    o' = (if regex (c_str (firstn para_len carry))
          then printf (tested o (firstn para_len carry))
                 (c_str (firstn para_len carry) ++ [NL; NL])
          else tested o (firstn para_len carry)).
Proof.
  unfold process_paragraphs_body. rewrite find_double_newline_all.
  destruct (find_double_newline_from 0 carry <? 0)%Z eqn:E; [discriminate|].
  apply Z.ltb_ge in E. intro H. injection H as <- <- <-.
  destruct (find_double_newline_from_split carry 0 E) as [rest Hrest].
  rewrite Nat.sub_0_r in Hrest.
  set (para_len := Z.to_nat (find_double_newline_from 0 carry)) in *.
  assert (Hlen : length (firstn para_len carry) = para_len).
  { apply firstn_length_le.
    destruct (find_double_newline_from_range carry 0); lia. }
  exists para_len, rest. split; [lia|]. split; [exact Hrest|].
  split.
  - rewrite string_buffer_consume_skipn.
    rewrite Hrest at 1.
    rewrite skipn_app, Hlen.
    replace (para_len + 2 - para_len) with 2 by lia.
    rewrite skipn_all2 by lia. reflexivity.
  - split; [|split; reflexivity].
    rewrite Hrest at 1. rewrite length_app, Hlen. simpl. lia.
Qed.

Lemma process_paragraphs_body_none (carry : StringBuffer) (o : Output)
    (m : bool) :
  process_paragraphs_body regex carry o m = None <->
  find_double_newline_from 0 carry = (-1)%Z.
Proof.
  unfold process_paragraphs_body. rewrite find_double_newline_all.
  destruct (find_double_newline_from_range carry 0) as [H|H].
  - rewrite H. simpl. tauto.
  - destruct (find_double_newline_from 0 carry <? 0)%Z eqn:E.
    + apply Z.ltb_lt in E. lia.
    + split; [discriminate|lia].
Qed.

Lemma process_paragraphs_body_shrinks (carry : StringBuffer) (o : Output)
    (m : bool) (carry' : StringBuffer) (o' : Output) (m' : bool) :
  process_paragraphs_body regex carry o m = Some (carry', o', m') ->
  length carry' + 2 <= length carry.
Proof.
  intro H. apply process_paragraphs_body_some in H.
  destruct H as (p & rest & _ & _ & -> & Hl & _). lia.
Qed.

Lemma half_plus_two (n k : nat) : n + 2 <= k -> S (n / 2) <= k / 2.
Proof.
  intro H.
  pose proof (Nat.div_mod_eq n 2). pose proof (Nat.div_mod_eq k 2).
  pose proof (Nat.mod_upper_bound n 2). pose proof (Nat.mod_upper_bound k 2).
  lia.
Qed.

Lemma process_paragraphs_loop_total (fuel : nat) (carry : StringBuffer)
    (o : Output) (m : bool) :
  length carry / 2 <= fuel ->
  exists r, process_paragraphs_loop regex fuel carry o m = Some r.
Proof.
  revert carry o m. induction fuel as [|fuel IH]; intros carry o m Hf.
  - simpl.
    destruct (process_paragraphs_body regex carry o m)
      as [[[carry' o'] m']|] eqn:E; [|eauto].
    apply process_paragraphs_body_shrinks in E.
    apply half_plus_two in E. exfalso. lia.
  - simpl.
    destruct (process_paragraphs_body regex carry o m)
      as [[[carry' o'] m']|] eqn:E; [|eauto].
    apply IH. apply process_paragraphs_body_shrinks in E.
    apply half_plus_two in E. lia.
Qed.

Lemma process_paragraphs_body_output_irrelevant (carry : StringBuffer)
    (o1 o2 : Output) (m1 m2 : bool) :
  match process_paragraphs_body regex carry o1 m1,
        process_paragraphs_body regex carry o2 m2 with
  | Some (c1, _, _), Some (c2, _, _) => c1 = c2
  | None, None => True
  | _, _ => False
  end.
Proof.
  unfold process_paragraphs_body.
  destruct (find_double_newline carry (length carry) <? 0)%Z; auto.
Qed.

Lemma process_paragraphs_turns_bound (fuel : nat) (carry : StringBuffer) :
  process_paragraphs_turns regex fuel carry <= length carry / 2.
Proof.
  revert carry.
  induction fuel as [|fuel IH]; intro carry; cbn [process_paragraphs_turns].
  - destruct (process_paragraphs_body regex carry _ false)
      as [[[carry' o'] m']|]; apply Nat.le_0_l.
  - destruct (process_paragraphs_body regex carry _ false)
      as [[[carry' o'] m']|] eqn:E; [|apply Nat.le_0_l].
    apply process_paragraphs_body_shrinks in E.
    apply half_plus_two in E. specialize (IH carry'). lia.
Qed.

(** Every counted turn hands one candidate record to the matcher. *)
Lemma process_paragraphs_turns_candidates (fuel : nat)
    (carry : StringBuffer) (o : Output) (m : bool)
    (carry' : StringBuffer) (o' : Output) (m' : bool) :
  process_paragraphs_loop regex fuel carry o m = Some (carry', o', m') ->
  length (candidates o') =
  length (candidates o) + process_paragraphs_turns regex fuel carry.
Proof.
  revert carry o m. induction fuel as [|fuel IH]; intros carry o m; simpl.
  - pose proof (process_paragraphs_body_output_irrelevant carry o
                  (mkOutput [] []) m false) as Hi.
    destruct (process_paragraphs_body regex carry o m)
      as [[[c1 o1] m1]|] eqn:E; [discriminate|].
    destruct (process_paragraphs_body regex carry _ false)
      as [[[c2 o2] m2]|]; [contradiction|].
    intro H; injection H as <- <- <-. lia.
  - pose proof (process_paragraphs_body_output_irrelevant carry o
                  (mkOutput [] []) m false) as Hi.
    destruct (process_paragraphs_body regex carry o m)
      as [[[c1 o1] m1]|] eqn:E.
    + destruct (process_paragraphs_body regex carry _ false)
        as [[[c2 o2] m2]|]; [subst c2|contradiction].
      intro H. apply IH in H. rewrite H.
      apply process_paragraphs_body_some in E.
      destruct E as (p & rest & _ & _ & _ & _ & _ & ->).
      destruct (regex _); simpl; rewrite length_app; simpl; lia.
    + destruct (process_paragraphs_body regex carry _ false)
        as [[[c2 o2] m2]|]; [contradiction|].
      intro H; injection H as <- <- <-. lia.
Qed.

(** C10. [process_paragraphs] terminates: a turn that finds a delimiter
    pair takes at least two bytes off the buffer, the loop returns
    within [length / 2] such turns whatever the buffer holds, and the
    number of turns (one candidate record each) is at most
    [length / 2]. *)
Theorem process_paragraphs_terminates (carry : StringBuffer) (o : Output)
    (m : bool) :
  (forall carry' o' m',
      process_paragraphs_body regex carry o m = Some (carry', o', m') ->
      length carry' + 2 <= length carry)
  /\ (forall extra,
         exists carry' o' m',
           process_paragraphs_loop regex (length carry / 2 + extra)
             carry o m = Some (carry', o', m') /\
           process_paragraphs_body regex carry' o' m' = None /\
           length (candidates o') =
           length (candidates o)
           + process_paragraphs_turns regex
               (length carry / 2 + extra) carry)
  /\ (forall fuel,
         process_paragraphs_turns regex fuel carry
         <= length carry / 2).
Proof.
  split; [|split].
  - intros carry' o' m'. apply process_paragraphs_body_shrinks.
  - intro extra.
    destruct (process_paragraphs_loop_total
                (length carry / 2 + extra) carry o m)
      as [[[carry' o'] m'] Hr]; [lia|].
    exists carry', o', m'. split; [exact Hr|]. split.
    + revert Hr. generalize (length carry / 2 + extra) as fuel.
      intro fuel. revert carry o m.
      induction fuel as [|fuel IH]; intros carry o m; simpl.
      * destruct (process_paragraphs_body regex carry o m)
          as [[[c1 o1] m1]|] eqn:E; [discriminate|].
        intro H; injection H as <- <- <-. exact E.
      * destruct (process_paragraphs_body regex carry o m)
          as [[[c1 o1] m1]|] eqn:E; [apply IH|].
        intro H; injection H as <- <- <-. exact E.
    + eapply process_paragraphs_turns_candidates. exact Hr.
  - intro fuel. apply process_paragraphs_turns_bound.
Qed.

End ExtractorFacts.

Lemma find_double_newline_from_shift (data : list byte) (i j : nat) :
  find_double_newline_from i data = (-1)%Z ->
  find_double_newline_from j data = (-1)%Z.
Proof.
  revert i j. induction data as [|a data IH]; intros i j; [reflexivity|].
  destruct data as [|b data]; [reflexivity|].
  change (find_double_newline_from i (a :: b :: data))
    with (if is_nl a && is_nl b then Z.of_nat i
          else find_double_newline_from (S i) (b :: data)).
  change (find_double_newline_from j (a :: b :: data))
    with (if is_nl a && is_nl b then Z.of_nat j
          else find_double_newline_from (S j) (b :: data)).
  destruct (is_nl a && is_nl b); [lia|]. apply IH.
Qed.

Lemma find_double_newline_from_app (data more : list byte) (i : nat) :
  (0 <= find_double_newline_from i data)%Z ->
  find_double_newline_from i (data ++ more)
  = find_double_newline_from i data.
Proof.
  revert i. induction data as [|a data IH]; intro i; [simpl; lia|].
  destruct data as [|b data]; [simpl; lia|].
  change ((a :: b :: data) ++ more) with (a :: b :: (data ++ more)).
  change (find_double_newline_from i (a :: b :: data))
    with (if is_nl a && is_nl b then Z.of_nat i
          else find_double_newline_from (S i) (b :: data)).
  change (find_double_newline_from i (a :: b :: data ++ more))
    with (if is_nl a && is_nl b then Z.of_nat i
          else find_double_newline_from (S i) ((b :: data) ++ more)).
  destruct (is_nl a && is_nl b); [reflexivity|]. apply IH.
Qed.

Lemma extracts_total (carry : StringBuffer) :
  exists recs rem, extracts carry recs rem.
Proof.
  remember (length carry) as n eqn:Hn. revert carry Hn.
  induction n as [n IH] using lt_wf_ind. intros carry Hn.
  destruct (find_double_newline_from_range carry 0) as [H|H].
  - exists [], carry. now constructor.
  - assert (H0 : (0 <= find_double_newline_from 0 carry)%Z) by lia.
    destruct (find_double_newline_from_split carry 0 H0) as [rest Hrest].
    rewrite Nat.sub_0_r in Hrest.
    set (p := Z.to_nat (find_double_newline_from 0 carry)) in *.
    assert (Hp : length (firstn p carry) = p)
      by (apply firstn_length_le; lia).
    assert (Hlen : length rest < n).
    { subst n. rewrite Hrest at 1. rewrite length_app, Hp. simpl. lia. }
    destruct (IH _ Hlen rest eq_refl) as (recs & rem & Hex).
    exists (firstn p carry :: recs), rem. rewrite Hrest at 1.
    constructor; [|exact Hex]. rewrite <- Hrest, Hp. lia.
Qed.

Lemma extracts_remainder (carry : StringBuffer) (recs : list (list byte))
    (rem : StringBuffer) :
  extracts carry recs rem ->
  find_double_newline_from 0 rem = (-1)%Z.
Proof. induction 1; assumption. Qed.

(** Extraction commutes with appending more bytes: cutting a prefix
    first and then the rest with what was carried over gives the records
    of the whole. *)
Lemma extracts_app (a b : list byte) (recs1 recs2 : list (list byte))
    (rem1 rem2 : StringBuffer) :
  extracts a recs1 rem1 ->
  extracts (rem1 ++ b) recs2 rem2 ->
  extracts (a ++ b) (recs1 ++ recs2) rem2.
Proof.
  induction 1 as [carry Hn | record rest recs rem Hf Hex IH]; intro H2.
  - exact H2.
  - rewrite <- app_assoc. simpl app.
    constructor; [|apply IH; exact H2].
    change (record ++ NL :: NL :: rest ++ b)
      with (record ++ (NL :: NL :: rest) ++ b).
    rewrite app_assoc. rewrite find_double_newline_from_app; [exact Hf|].
    rewrite Hf. lia.
Qed.

Lemma paragraphs_from_none (l cur : list byte) :
  find_double_newline_from 0 l = (-1)%Z ->
  paragraphs_from cur l = last_paragraph (cur ++ l).
Proof.
  revert cur. induction l as [|a l IH]; intros cur H.
  - rewrite app_nil_r. reflexivity.
  - destruct l as [|b l].
    + simpl. destruct cur; reflexivity.
    + change (find_double_newline_from 0 (a :: b :: l))
        with (if is_nl a && is_nl b then Z.of_nat 0
              else find_double_newline_from 1 (b :: l)) in H.
      change (paragraphs_from cur (a :: b :: l))
        with (if is_nl a && is_nl b then cur :: paragraphs_from [] l
              else paragraphs_from (cur ++ [a]) (b :: l)).
      destruct (is_nl a && is_nl b); [simpl in H; lia|].
      rewrite IH by (eapply find_double_newline_from_shift; exact H).
      rewrite <- app_assoc. reflexivity.
Qed.

Lemma paragraphs_from_first (record rest cur : list byte) (i : nat) :
  find_double_newline_from i (record ++ NL :: NL :: rest)
    = Z.of_nat (i + length record) ->
  paragraphs_from cur (record ++ NL :: NL :: rest)
  = (cur ++ record) :: paragraphs_from [] rest.
Proof.
  revert cur i. induction record as [|a record IH]; intros cur i H.
  - rewrite app_nil_r. reflexivity.
  - destruct (record ++ NL :: NL :: rest) as [|b l] eqn:E;
      [destruct record; discriminate|].
    change ((a :: record) ++ NL :: NL :: rest)
      with (a :: (record ++ NL :: NL :: rest)) in *.
    rewrite E in *.
    change (find_double_newline_from i (a :: b :: l))
      with (if is_nl a && is_nl b then Z.of_nat i
            else find_double_newline_from (S i) (b :: l)) in H.
    change (paragraphs_from cur (a :: b :: l))
      with (if is_nl a && is_nl b then cur :: paragraphs_from [] l
            else paragraphs_from (cur ++ [a]) (b :: l)).
    destruct (is_nl a && is_nl b); [simpl length in H; lia|].
    rewrite <- E in *. rewrite (IH (cur ++ [a]) (S i)).
    + rewrite <- app_assoc. reflexivity.
    + rewrite H. simpl length. f_equal. lia.
Qed.

(** The records cut by the loop, followed by the remainder when it is
    not empty, are the paragraphs of the buffer. *)
Lemma extracts_paragraphs (carry : StringBuffer) (recs : list (list byte))
    (rem : StringBuffer) :
  extracts carry recs rem ->
  paragraphs carry = recs ++ last_paragraph rem.
Proof.
  unfold paragraphs.
  induction 1 as [carry Hn | record rest recs rem Hf Hex IH].
  - now rewrite paragraphs_from_none.
  - rewrite (paragraphs_from_first record rest [] 0) by exact Hf.
    rewrite IH. reflexivity.
Qed.

Section Emit.

Variable regex : list byte -> bool.

Lemma emit_cons (r : list byte) (recs : list (list byte)) (o : Output) :
  emit regex o (r :: recs) = emit regex (emit_record regex o r) recs.
Proof. reflexivity. Qed.

Lemma candidates_emit (recs : list (list byte)) (o : Output) :
  candidates (emit regex o recs) = candidates o ++ recs.
Proof.
  revert o. induction recs as [|r recs IH]; intro o.
  - simpl. now rewrite app_nil_r.
  - rewrite emit_cons, IH. unfold emit_record.
    destruct (regex (c_str r)); simpl; now rewrite <- app_assoc.
Qed.

Lemma stdout_emit (recs : list (list byte)) (o : Output) :
  stdout (emit regex o recs) = stdout o ++ render regex recs.
Proof.
  revert o. induction recs as [|r recs IH]; intro o.
  - simpl. now rewrite app_nil_r.
  - rewrite emit_cons, IH. unfold emit_record, render.
    cbn [filter]. unfold hit at 2. destruct (regex (c_str r)); simpl.
    + now rewrite <- !app_assoc.
    + reflexivity.
Qed.

Lemma emit_app (recs1 recs2 : list (list byte)) (o : Output) :
  emit regex o (recs1 ++ recs2) = emit regex (emit regex o recs1) recs2.
Proof. unfold emit. apply fold_left_app. Qed.

Lemma process_paragraphs_body_turn (record rest : list byte) (o : Output)
    (m : bool) :
  find_double_newline_from 0 (record ++ NL :: NL :: rest)
    = Z.of_nat (length record) ->
  process_paragraphs_body regex (record ++ NL :: NL :: rest) o m
  = Some (rest, emit_record regex o record, regex (c_str record) || m).
Proof.
  intro Hf. unfold process_paragraphs_body.
  rewrite find_double_newline_all, Hf.
  destruct (Z.of_nat (length record) <? 0)%Z eqn:E;
    [apply Z.ltb_lt in E; lia|].
  rewrite Nat2Z.id, string_buffer_consume_skipn.
  rewrite firstn_app, firstn_all, Nat.sub_diag. simpl firstn.
  rewrite app_nil_r, skipn_app.
  rewrite skipn_all2 by lia.
  replace (length record + 2 - length record) with 2 by lia.
  reflexivity.
Qed.

Lemma process_paragraphs_loop_extracts (carry : StringBuffer)
    (recs : list (list byte)) (rem : StringBuffer) :
  extracts carry recs rem ->
  forall fuel o m,
    length carry / 2 <= fuel ->
    process_paragraphs_loop regex fuel carry o m
    = Some (rem, emit regex o recs, existsb (hit regex) recs || m).
Proof.
  induction 1 as [carry Hn | record rest recs rem Hf Hex IH];
    intros fuel o m Hfuel.
  - assert (Hb : process_paragraphs_body regex carry o m = None)
      by (now apply process_paragraphs_body_none).
    destruct fuel; simpl; rewrite Hb; reflexivity.
  - assert (Hl : S (length rest / 2)
                 <= length (record ++ NL :: NL :: rest) / 2).
    { apply half_plus_two. rewrite length_app. simpl. lia. }
    destruct fuel as [|fuel]; [lia|].
    cbn [process_paragraphs_loop].
    rewrite process_paragraphs_body_turn by exact Hf.
    rewrite IH by lia. simpl. unfold hit at 2.
    destruct (regex (c_str record)), (existsb (hit regex) recs), m;
      reflexivity.
Qed.

Lemma process_paragraphs_extracts (carry : StringBuffer)
    (recs : list (list byte)) (rem : StringBuffer) (o : Output) :
  extracts carry recs rem ->
  process_paragraphs regex carry o
  = (rem, emit regex o recs, existsb (hit regex) recs).
Proof.
  intro H. unfold process_paragraphs.
  rewrite (process_paragraphs_loop_extracts _ _ _ H) by apply Nat.le_refl.
  now rewrite orb_false_r.
Qed.

Lemma flush_remaining_paragraph_spec (rem : StringBuffer) (o : Output) :
  flush_remaining_paragraph regex rem o
  = ([],
     mkOutput (stdout o ++ flush_text regex rem)
       (candidates o ++ last_paragraph rem),
     match rem with [] => false | _ :: _ => hit regex rem end).
Proof.
  unfold flush_remaining_paragraph, flush_text, hit.
  destruct rem as [|b rem].
  - simpl. rewrite !app_nil_r. destruct o; reflexivity.
  - cbn [length Nat.eqb orb last_paragraph].
    destruct (regex (c_str (b :: rem))).
    + destruct (ends_with_nl (b :: rem)); simpl.
      * rewrite app_nil_r. reflexivity.
      * unfold printf; simpl. rewrite <- app_assoc. reflexivity.
    + unfold tested. simpl. rewrite app_nil_r. reflexivity.
Qed.

End Emit.

(** ** Machine offsets, slices of the file and the distributor's cut *)

Lemma wrap_long_small (z : Z) :
  (0 <= z <= LONG_MAX)%Z -> wrap_long z = z.
Proof.
  unfold wrap_long, LONG_MAX. intro H.
  rewrite Z.mod_small; lia.
Qed.

Lemma distributor_bytes_spec (tempbuf : list byte) (read_bytes : nat) :
  0 < read_bytes ->
  0 < distributor_bytes tempbuf read_bytes <= read_bytes /\
  (is_nl (nth (distributor_bytes tempbuf read_bytes - 1) tempbuf NUL) = true
   \/ (distributor_bytes tempbuf read_bytes = read_bytes /\
       forall k, k < read_bytes -> is_nl (nth k tempbuf NUL) = false)).
Proof.
  intro Hpos. unfold distributor_bytes.
  destruct (scan_last_newline_spec tempbuf read_bytes read_bytes)
    as [[Hd Hn] | (Hr & Hnl & _)].
  - rewrite Hd, Nat.ltb_irrefl.
    destruct (read_bytes =? 0) eqn:E; [apply Nat.eqb_eq in E; lia|].
    split; [lia|]. right. auto.
  - set (r := scan_last_newline tempbuf read_bytes read_bytes) in *.
    destruct (r <? read_bytes) eqn:E.
    + destruct (r =? 0) eqn:E0; [apply Nat.eqb_eq in E0; lia|].
      apply Nat.ltb_lt in E. split; [lia|]. left. exact Hnl.
    + apply Nat.ltb_ge in E. assert (r = read_bytes) by lia.
      destruct (read_bytes =? 0) eqn:E0; [apply Nat.eqb_eq in E0; lia|].
      split; [lia|]. left. congruence.
Qed.

Lemma BUFFER_SIZE_positive : 0 < BUFFER_SIZE.
Proof. apply Nat.ltb_lt. vm_compute. reflexivity. Qed.

Section FileFacts.

Variable file : list byte.

Lemma fread_at_slice (off : Z) (n : nat) :
  (0 <= off)%Z -> fread_at file off n = Some (slice file off n).
Proof.
  intro H. unfold fread_at.
  destruct (off <? 0)%Z eqn:E; [apply Z.ltb_lt in E; lia|reflexivity].
Qed.

Lemma length_slice (off : Z) (n : nat) :
  length (slice file off n) = Nat.min n (length file - Z.to_nat off).
Proof. unfold slice. now rewrite length_firstn, length_skipn. Qed.

Lemma window_bytes_le (off : Z) :
  window_bytes file off <= Nat.min BUFFER_SIZE (length file - Z.to_nat off).
Proof.
  unfold window_bytes. rewrite <- length_slice.
  destruct (length (slice file off BUFFER_SIZE) =? 0) eqn:E; [lia|].
  apply Nat.eqb_neq in E.
  apply distributor_bytes_spec. lia.
Qed.

Lemma window_bytes_positive (off : Z) :
  (0 <= off < Z.of_nat (length file))%Z -> 0 < window_bytes file off.
Proof.
  intro H. unfold window_bytes.
  assert (Hl : 0 < length (slice file off BUFFER_SIZE)).
  { rewrite length_slice. pose proof BUFFER_SIZE_positive. lia. }
  destruct (length (slice file off BUFFER_SIZE) =? 0) eqn:E;
    [apply Nat.eqb_eq in E; lia|].
  now apply distributor_bytes_spec.
Qed.

Lemma window_bytes_end (off : Z) :
  (Z.of_nat (length file) <= off)%Z -> window_bytes file off = 0.
Proof.
  intro H. unfold window_bytes.
  assert (Hl : length (slice file off BUFFER_SIZE) = 0)
    by (rewrite length_slice; lia).
  now rewrite Hl.
Qed.

Lemma slice_slice (off : Z) (n k : nat) :
  n <= k -> slice file off n = firstn n (slice file off k).
Proof.
  intro H. unfold slice. rewrite firstn_firstn.
  now rewrite Nat.min_l by exact H.
Qed.

Lemma slice_window (off : Z) :
  length (slice file off (window_bytes file off)) = window_bytes file off.
Proof.
  rewrite length_slice. pose proof (window_bytes_le off). lia.
Qed.

Lemma window_bytes_eq (off : Z) :
  0 < window_bytes file off ->
  0 < length (slice file off BUFFER_SIZE) /\
  window_bytes file off
  = distributor_bytes (slice file off BUFFER_SIZE)
      (length (slice file off BUFFER_SIZE)).
Proof.
  unfold window_bytes.
  destruct (length (slice file off BUFFER_SIZE) =? 0) eqn:E; [lia|].
  apply Nat.eqb_neq in E. intros _. split; [lia|reflexivity].
Qed.

(** The range the distributor cuts either ends with a line delimiter or
    holds none and is the whole read-ahead window. *)
Lemma window_bytes_cut (off : Z) :
  0 < window_bytes file off ->
  is_nl (nth (window_bytes file off - 1)
           (slice file off (window_bytes file off)) NUL) = true
  \/ (window_bytes file off = length (slice file off BUFFER_SIZE) /\
      forall k, k < window_bytes file off ->
                is_nl (nth k (slice file off (window_bytes file off)) NUL) = false).
Proof.
  intro Hpos.
  assert (Hnth : forall k, k < window_bytes file off ->
             nth k (slice file off (window_bytes file off)) NUL
             = nth k (slice file off BUFFER_SIZE) NUL).
  { intros k Hk.
    rewrite (slice_slice off (window_bytes file off) BUFFER_SIZE)
      by (pose proof (window_bytes_le off); lia).
    now rewrite nth_firstn, (proj2 (Nat.ltb_lt _ _) Hk). }
  destruct (window_bytes_eq off Hpos) as [Hl Heq].
  destruct (distributor_bytes_spec (slice file off BUFFER_SIZE) _ Hl)
    as [Hr [Hnl|[He Hn]]]; rewrite <- Heq in *.
  - left. rewrite Hnth by lia. exact Hnl.
  - right. split; [exact He|]. intros k Hk.
    rewrite Hnth by lia. apply Hn. lia.
Qed.

End FileFacts.

Lemma firstn_plus_slice (file : list byte) (off : Z) (n : nat) :
  (0 <= off)%Z ->
  firstn (Z.to_nat (off + Z.of_nat n)) file
  = firstn (Z.to_nat off) file ++ slice file off n.
Proof.
  intro H. unfold slice.
  replace (Z.to_nat (off + Z.of_nat n)) with (Z.to_nat off + n) by lia.
  generalize (Z.to_nat off) as k. intro k. revert file.
  induction k as [|k IH]; intro file; [reflexivity|].
  destruct file as [|b file]; simpl.
  - now rewrite firstn_nil.
  - now rewrite IH.
Qed.

(** A worker that is handed the range the distributor cut reports that
    very range, bytes and count. *)
Lemma child_result_window (file : list byte) (id : nat) (off : Z)
    (elapsed : Z) :
  (0 <= off)%Z -> 0 < window_bytes file off ->
  child_result file id off (window_bytes file off) elapsed
  = Some (mkPayload id off (window_bytes file off) elapsed
            (window_bytes file off),
          slice file off (window_bytes file off)).
Proof.
  intros Hoff Hpos. unfold child_result.
  rewrite fread_at_slice by exact Hoff.
  rewrite slice_window.
  assert (Hu : child_usable (slice file off (window_bytes file off))
                 (window_bytes file off) = window_bytes file off).
  { destruct (window_bytes_cut file off Hpos) as [Hnl|[_ Hn]].
    - revert Hnl. generalize (slice file off (window_bytes file off)).
      destruct (window_bytes file off) as [|n']; [lia|]. intros buf Hnl.
      replace (S n' - 1) with n' in Hnl by lia.
      unfold child_usable, child_trim. cbn [scan_last_newline].
      rewrite Hnl. reflexivity.
    - now apply child_usable_no_newline. }
  rewrite Hu. f_equal. f_equal. apply firstn_all2.
  rewrite slice_window. apply Nat.le_refl.
Qed.

(** ** Ranges of the file *)

Section RangeFacts.

Variable file : list byte.

Lemma chain_le (l : list (Z * nat)) (a b : Z) :
  chain file a l b -> (a <= b)%Z.
Proof.
  revert a. induction l as [|[o n] l IH]; intros a; simpl.
  - lia.
  - intros (_ & _ & _ & H). apply IH in H. lia.
Qed.

Lemma chain_in (l : list (Z * nat)) (a b o : Z) (n : nat) :
  chain file a l b -> In (o, n) l ->
  (a <= o)%Z /\ (o + Z.of_nat n <= b)%Z /\
  n = window_bytes file o /\ 0 < n.
Proof.
  revert a. induction l as [|[o' n'] l IH]; intros a; simpl; [tauto|].
  intros (-> & Hn & Hpos & H) [Heq|Hin].
  - injection Heq as <- <-. apply chain_le in H.
    split; [lia|]. split; [lia|]. split; [exact Hn|exact Hpos].
  - destruct (IH _ H Hin) as (? & ? & ? & ?).
    split; [lia|]. split; [lia|]. split; assumption.
Qed.

Lemma chain_head (l : list (Z * nat)) (a b : Z) (n : nat) :
  chain file a l b -> In (a, n) l -> exists l', l = (a, n) :: l'.
Proof.
  destruct l as [|[o' n'] l]; simpl; [tauto|].
  intros (-> & Hn & Hpos & H) [Heq|Hin].
  - injection Heq as <-. eauto.
  - destruct (chain_in _ _ _ _ _ H Hin) as (Hle & _). lia.
Qed.

Lemma chain_snoc (l : list (Z * nat)) (a b : Z) (n : nat) :
  chain file a l b -> n = window_bytes file b -> 0 < n ->
  chain file a (l ++ [(b, n)]) (b + Z.of_nat n)%Z.
Proof.
  revert a. induction l as [|[o' n'] l IH]; intros a; simpl.
  - intros -> Hn Hpos. auto.
  - intros (-> & Hn' & Hpos' & H) Hn Hpos. auto.
Qed.

Lemma chain_bound (l : list (Z * nat)) (a b : Z) :
  (0 <= a <= Z.of_nat (length file))%Z -> chain file a l b ->
  (b <= Z.of_nat (length file))%Z.
Proof.
  revert a. induction l as [|[o' n'] l IH]; intros a Ha; simpl.
  - lia.
  - intros (-> & Hn & Hpos & H). apply (IH (a + Z.of_nat n')%Z); [|exact H].
    pose proof (window_bytes_le file a). lia.
Qed.

(** Two chains from the same offset to the same end are equal. *)
Lemma chain_unique (l1 l2 : list (Z * nat)) (a b : Z) :
  chain file a l1 b -> chain file a l2 b -> l1 = l2.
Proof.
  revert a l2. induction l1 as [|[o1 n1] l1 IH]; intros a l2; simpl.
  - intros <-. destruct l2 as [|[o2 n2] l2]; simpl; [reflexivity|].
    intros (_ & _ & Hpos & H). apply chain_le in H. lia.
  - intros (-> & -> & Hpos & H1).
    destruct l2 as [|[o2 n2] l2]; simpl.
    + intros <-. apply chain_le in H1. lia.
    + intros (-> & -> & _ & H2). f_equal. eapply IH; eassumption.
Qed.

End RangeFacts.

(** ** The pending list *)

Lemma insert_after_perm (next : list ChunkNode) (node : ChunkNode) :
  Permutation (insert_after next node) (node :: next).
Proof.
  induction next as [|n rest IH]; simpl; [reflexivity|].
  destruct (file_offset n <? file_offset node)%Z; [|reflexivity].
  rewrite IH. apply perm_swap.
Qed.

Lemma insert_chunk_sorted_perm (head : list ChunkNode) (node : ChunkNode) :
  Permutation (insert_chunk_sorted head node) (node :: head).
Proof.
  destruct head as [|h rest]; simpl; [reflexivity|].
  destruct (file_offset node <? file_offset h)%Z; [reflexivity|].
  rewrite insert_after_perm. apply perm_swap.
Qed.

Lemma insert_after_sorted (next : list ChunkNode) (node : ChunkNode) :
  StronglySorted offset_le next ->
  StronglySorted offset_le (insert_after next node).
Proof.
  induction 1 as [|n rest Hs IH Hall]; simpl.
  - constructor; constructor.
  - destruct (file_offset n <? file_offset node)%Z eqn:E.
    + apply Z.ltb_lt in E. constructor; [exact IH|].
      rewrite insert_after_perm. constructor; [unfold offset_le; lia|].
      exact Hall.
    + apply Z.ltb_ge in E. constructor.
      * constructor; assumption.
      * constructor; [exact E|].
        eapply Forall_impl; [|exact Hall].
        unfold offset_le. intros; lia.
Qed.

Lemma insert_chunk_sorted_sorted (head : list ChunkNode) (node : ChunkNode) :
  StronglySorted offset_le head ->
  StronglySorted offset_le (insert_chunk_sorted head node).
Proof.
  intro Hs. destruct head as [|h rest]; simpl.
  - constructor; constructor.
  - destruct (file_offset node <? file_offset h)%Z eqn:E.
    + apply Z.ltb_lt in E. constructor; [exact Hs|].
      inversion Hs as [|? ? Hs' Hall]; subst.
      constructor; [unfold offset_le; lia|].
      eapply Forall_impl; [|exact Hall]. unfold offset_le. intros; lia.
    + apply Z.ltb_ge in E. inversion Hs as [|? ? Hs' Hall]; subst.
      constructor; [now apply insert_after_sorted|].
      rewrite insert_after_perm. constructor; [exact E|exact Hall].
Qed.

Lemma pop_expected_chunk_some (head : list ChunkNode) (expected : Z)
    (node : ChunkNode) (rest : list ChunkNode) :
  pop_expected_chunk head expected = Some (node, rest) <->
  head = node :: rest /\ file_offset node = expected.
Proof.
  unfold pop_expected_chunk. destruct head as [|h t].
  - split; [discriminate|intros [H _]; discriminate].
  - destruct (file_offset h =? expected)%Z eqn:E; simpl.
    + apply Z.eqb_eq in E. split.
      * intro H; injection H as <- <-. auto.
      * intros [H _]; injection H as <- <-. reflexivity.
    + apply Z.eqb_neq in E. split; [discriminate|].
      intros [H He]; injection H as <- <-. contradiction.
Qed.

(** A sorted pending list whose front is not the expected offset holds no
    chunk at the expected offset, provided nothing in it lies before. *)
Lemma pop_expected_chunk_none (head : list ChunkNode) (expected : Z) :
  StronglySorted offset_le head ->
  Forall (fun ch => (expected <= file_offset ch)%Z) head ->
  pop_expected_chunk head expected = None ->
  Forall (fun ch => (expected < file_offset ch)%Z) head.
Proof.
  intros Hs Hall Hpop. destruct head as [|h t]; [constructor|].
  unfold pop_expected_chunk in Hpop.
  destruct (file_offset h =? expected)%Z eqn:E; [discriminate|].
  apply Z.eqb_neq in E.
  inversion Hs as [|? ? _ Hle]; subst.
  inversion Hall as [|? ? Hh _]; subst.
  constructor; [lia|].
  eapply Forall_impl; [|exact Hle]. unfold offset_le. intros; lia.
Qed.

(** ** Workers in flight *)

Lemma array_set_length {A : Type} (a : list A) (i : nat) (v : A) :
  length (array_set a i v) = length a.
Proof.
  revert i. induction a as [|x a IH]; intro i; [reflexivity|].
  destruct i; simpl; [reflexivity|now rewrite IH].
Qed.

Lemma array_set_nth_error {A : Type} (a : list A) (i j : nat) (v : A) :
  i < length a ->
  nth_error (array_set a i v) j
  = if j =? i then Some v else nth_error a j.
Proof.
  revert i j. induction a as [|x a IH]; intros i j Hi; [simpl in Hi; lia|].
  destruct i, j; simpl; try reflexivity.
  apply IH. simpl in Hi. lia.
Qed.

Lemma flat_map_array_set {A B : Type} (f : A -> list B) (ws : list A)
    (i : nat) (w w' : A) :
  nth_error ws i = Some w ->
  Permutation (f w ++ flat_map f (array_set ws i w'))
              (f w' ++ flat_map f ws).
Proof.
  revert i. induction ws as [|x ws IH]; intros i H.
  - destruct i; discriminate.
  - destruct i; simpl in *.
    + injection H as ->. rewrite !app_assoc.
      apply Permutation_app_tail, Permutation_app_comm.
    + specialize (IH _ H).
      rewrite !app_assoc.
      rewrite (Permutation_app_comm (f w) (f x)).
      rewrite (Permutation_app_comm (f w') (f x)).
      rewrite <- !app_assoc. now apply Permutation_app_head.
Qed.

Lemma filter_array_set_closed (ws : list Worker) (i : nat) (w w' : Worker) :
  nth_error ws i = Some w ->
  length (filter is_closed (array_set ws i w'))
  + (if is_closed w then 1 else 0)
  = length (filter is_closed ws) + (if is_closed w' then 1 else 0).
Proof.
  revert i. induction ws as [|x ws IH]; intros i H.
  - destruct i; discriminate.
  - destruct i; simpl in *.
    + injection H as ->. destruct (is_closed w), (is_closed w'); simpl; lia.
    + specialize (IH _ H). destruct (is_closed x); simpl; lia.
Qed.

(** ** The drain loop keeps the coordinator consistent *)

Section DrainFacts.

Variable file : list byte.
Variable regex : list byte -> bool.
Hypothesis file_fits : (Z.of_nat (length file) <= LONG_MAX)%Z.

Lemma coord_inv_bounds (R : list (Z * nat)) (c : Coordinator) :
  coord_inv file regex R c ->
  (0 <= next_offset_to_process c <= next_offset_to_assign c)%Z /\
  (next_offset_to_assign c <= Z.of_nat (length file))%Z.
Proof.
  intros [Hp (l & _ & Hc) _ _ _ Hlog _ _].
  pose proof (chain_le _ _ _ _ Hc) as Hle.
  assert (Hpl : (next_offset_to_process c <= Z.of_nat (length file))%Z).
  { apply (chain_bound file (map log_range (logfile c)) 0%Z);
      [lia|exact Hlog]. }
  split; [lia|].
  apply (chain_bound file l (next_offset_to_process c)); [lia|exact Hc].
Qed.

Lemma carry_at_extracts (off : Z) (recs : list (list byte))
    (rem : StringBuffer) :
  extracts (firstn (Z.to_nat off) file) recs rem ->
  carry_at file regex off = rem.
Proof.
  intro H. unfold carry_at.
  now rewrite (process_paragraphs_extracts regex _ _ _ (mkOutput [] []) H).
Qed.

Lemma consume_chunk_inv (R : list (Z * nat)) (c : Coordinator)
    (ready : ChunkNode) (head : list ChunkNode) :
  coord_inv file regex R c ->
  pop_expected_chunk (pending_chunks c) (next_offset_to_process c)
    = Some (ready, head) ->
  coord_inv file regex R (consume_chunk regex ready head c) /\
  next_offset_to_process (consume_chunk regex ready head c)
    = (next_offset_to_process c + Z.of_nat (bytes_read ready))%Z /\
  0 < bytes_read ready.
Proof.
  intros Hinv Hpop.
  destruct (coord_inv_bounds _ _ Hinv) as [Hb1 Hb2].
  destruct Hinv as [Hp (l & Hperm & Hc) Hs Hck (recs & Hex & Hout) Hlc Hlo Hf].
  apply pop_expected_chunk_some in Hpop. destruct Hpop as [Hpend Hoff].
  rewrite Hpend in *.
  assert (Hin : In (next_offset_to_process c, bytes_read ready) l).
  { eapply Permutation_in; [symmetry; exact Hperm|].
    left. unfold chunk_range. now rewrite Hoff. }
  destruct (chain_head _ _ _ _ _ Hc Hin) as [l' ->].
  destruct Hc as (_ & Hn & Hpos & Hc').
  simpl map in Hperm. simpl app in Hperm.
  unfold chunk_range at 1 in Hperm. rewrite Hoff in Hperm.
  apply Permutation_cons_inv in Hperm.
  pose proof (chain_le _ _ _ _ Hc') as Hle.
  inversion Hck as [|? ? [Htl Htx] Hck']; subst.
  inversion Hs as [|? ? Hs' _]; subst.
  assert (Hw : wrap_long (file_offset ready + Z.of_nat (bytes_read ready))
               = (next_offset_to_process c + Z.of_nat (bytes_read ready))%Z).
  { rewrite Hoff. apply wrap_long_small. lia. }
  assert (Hcarry :
            (if 0 <? text_length ready
             then string_buffer_append (carry c) (text ready)
                    (text_length ready)
             else carry c)
            = carry c ++ slice file (next_offset_to_process c)
                           (bytes_read ready)).
  { rewrite Htl. destruct (0 <? bytes_read ready) eqn:E;
      [|apply Nat.ltb_ge in E; lia].
    unfold string_buffer_append. rewrite Htx, Hoff. f_equal.
    apply firstn_all2. rewrite length_slice. lia. }
  destruct (extracts_total
              (carry c ++ slice file (next_offset_to_process c)
                            (bytes_read ready))) as (recs2 & rem2 & Hex2).
  unfold consume_chunk. rewrite Hcarry.
  rewrite (process_paragraphs_extracts regex _ _ _ (out c) Hex2).
  rewrite Hw. split; [|split; [reflexivity|exact Hpos]].
  constructor; simpl.
  - lia.
  - exists l'. split; assumption.
  - exact Hs'.
  - exact Hck'.
  - exists (recs ++ recs2). split.
    + rewrite firstn_plus_slice by lia.
      eapply extracts_app; eassumption.
    + rewrite Hout. symmetry. apply emit_app.
  - unfold write_log_entry. rewrite map_app. simpl map.
    unfold log_range at 2. simpl. rewrite Hoff.
    apply chain_snoc; assumption.
  - unfold write_log_entry. apply Forall_app. split; [exact Hlo|].
    constructor; [|constructor].
    unfold log_ok, found_at. simpl. rewrite Hoff.
    rewrite (carry_at_extracts _ _ _ Hex), <- Hn.
    now rewrite (process_paragraphs_extracts regex _ _ _ (mkOutput [] []) Hex2).
  - exact Hf.
Qed.

Lemma consume_chunk_fields (ready : ChunkNode) (head : list ChunkNode)
    (c : Coordinator) :
  let c' := consume_chunk regex ready head c in
  next_offset_to_assign c' = next_offset_to_assign c /\
  finished_assignments c' = finished_assignments c /\
  finished_children c' = finished_children c /\
  end_sent c' = end_sent c /\
  pending_chunks c' = head /\
  exists found,
    logfile c' = logfile c
                 ++ [mkLog (process_id ready) (file_offset ready)
                       (bytes_read ready) (elapsed_time ready) found].
Proof.
  unfold consume_chunk.
  destruct (process_paragraphs regex _ (out c)) as [[carry2 out2] found].
  simpl. split_and; try reflexivity. exists found. reflexivity.
Qed.

Lemma drain_loop_inv (R : list (Z * nat)) (fuel : nat) (c : Coordinator) :
  length (pending_chunks c) <= fuel ->
  coord_inv file regex R c ->
  exists c',
    drain_loop regex fuel c = Some c' /\
    coord_inv file regex R c' /\
    pop_expected_chunk (pending_chunks c') (next_offset_to_process c')
      = None /\
    next_offset_to_assign c' = next_offset_to_assign c /\
    finished_assignments c' = finished_assignments c /\
    finished_children c' = finished_children c /\
    (next_offset_to_process c <= next_offset_to_process c')%Z.
Proof.
  revert c. induction fuel as [|fuel IH]; intros c Hfuel Hinv.
  - destruct (pending_chunks c) as [|h t] eqn:Hp; [|simpl in Hfuel; lia].
    exists c. simpl. rewrite Hp. simpl.
    split_and; try reflexivity; try assumption; lia.
  - cbn [drain_loop].
    destruct (pop_expected_chunk (pending_chunks c)
                (next_offset_to_process c)) as [[ready head]|] eqn:Hpop.
    + destruct (consume_chunk_inv R c ready head Hinv Hpop)
        as (Hinv' & Hproc & Hpos).
      destruct (consume_chunk_fields ready head c)
        as (Ha & Hf & Hch & _ & Hpd & _).
      apply pop_expected_chunk_some in Hpop. destruct Hpop as [Hpend _].
      destruct (IH (consume_chunk regex ready head c))
        as (c' & Hd & Hi & Hn & Ha' & Hf' & Hch' & Hle);
        [rewrite Hpd; rewrite Hpend in Hfuel; simpl in Hfuel; lia
        |exact Hinv'|].
      exists c'. rewrite Hd.
      split_and; try assumption; try congruence; lia.
    + exists c. split_and; try reflexivity; try assumption; lia.
Qed.

Lemma drain_pending_inv (R : list (Z * nat)) (c : Coordinator) :
  coord_inv file regex R c ->
  coord_inv file regex R (drain_pending regex c) /\
  pop_expected_chunk (pending_chunks (drain_pending regex c))
    (next_offset_to_process (drain_pending regex c)) = None /\
  next_offset_to_assign (drain_pending regex c) = next_offset_to_assign c /\
  finished_assignments (drain_pending regex c) = finished_assignments c /\
  finished_children (drain_pending regex c) = finished_children c /\
  (next_offset_to_process c
   <= next_offset_to_process (drain_pending regex c))%Z.
Proof.
  intro Hinv. unfold drain_pending.
  destruct (drain_loop_inv R _ c (Nat.le_refl _) Hinv)
    as (c' & -> & H). exact H.
Qed.

(** A drain that finds nothing to pop changes nothing. *)
Lemma drain_pending_idle (c : Coordinator) :
  pop_expected_chunk (pending_chunks c) (next_offset_to_process c) = None ->
  drain_pending regex c = c.
Proof.
  intro H. unfold drain_pending.
  destruct (length (pending_chunks c)); simpl; now rewrite H.
Qed.

Lemma coord_inv_perm (R R' : list (Z * nat)) (c : Coordinator) :
  Permutation R R' -> coord_inv file regex R c -> coord_inv file regex R' c.
Proof.
  intros HP [Hp (l & Hperm & Hc) Hs Hck Hout Hlc Hlo Hf].
  constructor; try assumption.
  exists l. split; [|exact Hc].
  rewrite Hperm. now apply Permutation_app_head.
Qed.

Lemma insert_chunk_inv (R : list (Z * nat)) (c : Coordinator)
    (node : ChunkNode) :
  coord_inv file regex (chunk_range node :: R) c ->
  chunk_ok file node ->
  coord_inv file regex R
    (mkCoordinator (next_offset_to_assign c) (next_offset_to_process c)
       (insert_chunk_sorted (pending_chunks c) node) (carry c)
       (finished_assignments c) (finished_children c) (end_sent c)
       (out c) (logfile c)).
Proof.
  intros [Hp (l & Hperm & Hc) Hs Hck Hout Hlc Hlo Hf] Hok.
  constructor; simpl; try assumption.
  - exists l. split; [|exact Hc].
    rewrite Hperm, insert_chunk_sorted_perm. simpl.
    symmetry. apply Permutation_middle.
  - now apply insert_chunk_sorted_sorted.
  - rewrite insert_chunk_sorted_perm. now constructor.
Qed.

Lemma handle_result_inv (R : list (Z * nat)) (c : Coordinator)
    (i : nat) (off : Z) (n : nat) (elapsed : Z) :
  coord_inv file regex ((off, n) :: R) c ->
  exists payload txt,
    child_result file i off n elapsed = Some (payload, txt) /\
    coord_inv file regex R (handle_result regex payload txt c) /\
    pop_expected_chunk
      (pending_chunks (handle_result regex payload txt c))
      (next_offset_to_process (handle_result regex payload txt c)) = None /\
    next_offset_to_assign (handle_result regex payload txt c)
      = next_offset_to_assign c /\
    finished_assignments (handle_result regex payload txt c)
      = finished_assignments c /\
    finished_children (handle_result regex payload txt c)
      = finished_children c /\
    (next_offset_to_process c
     <= next_offset_to_process (handle_result regex payload txt c))%Z.
Proof.
  intro Hinv.
  assert (Hrange : (0 <= off)%Z /\ n = window_bytes file off /\ 0 < n).
  { destruct Hinv as [Hp (l & Hperm & Hc) _ _ _ _ _ _].
    assert (Hin : In (off, n) l).
    { eapply Permutation_in; [symmetry; exact Hperm|].
      apply in_or_app. right. now left. }
    destruct (chain_in _ _ _ _ _ _ Hc Hin) as (? & _ & ? & ?).
    split; [lia|]. split; assumption. }
  destruct Hrange as (Hoff & Hn & Hpos).
  exists (mkPayload i off n elapsed n), (slice file off n).
  split; [subst n; now apply child_result_window|].
  unfold handle_result.
  set (node := create_chunk (mkPayload i off n elapsed n) (slice file off n)).
  assert (Hnode : node = mkChunk i off n elapsed n (slice file off n)).
  { unfold node, create_chunk. simpl.
    destruct (0 <? n) eqn:E; [|apply Nat.ltb_ge in E; lia].
    f_equal. apply firstn_all2. rewrite length_slice. lia. }
  assert (Hok : chunk_ok file node)
    by (rewrite Hnode; split; reflexivity).
  assert (Hr : chunk_range node = (off, n)) by (now rewrite Hnode).
  rewrite <- Hr in Hinv.
  pose proof (insert_chunk_inv R c node Hinv Hok) as Hins.
  apply drain_pending_inv in Hins. exact Hins.
Qed.

Lemma send_end_inv (R : list (Z * nat)) (i : nat) (c : Coordinator) :
  coord_inv file regex R c ->
  finished_assignments c = true ->
  coord_inv file regex R (fst (send_end i c)) /\
  finished_assignments (fst (send_end i c)) = true /\
  (snd (send_end i c) = ReplyEnd \/ snd (send_end i c) = NoReply) /\
  next_offset_to_assign (fst (send_end i c)) = next_offset_to_assign c /\
  next_offset_to_process (fst (send_end i c)) = next_offset_to_process c /\
  pending_chunks (fst (send_end i c)) = pending_chunks c /\
  finished_children (fst (send_end i c)) = finished_children c /\
  logfile (fst (send_end i c)) = logfile c /\
  out (fst (send_end i c)) = out c /\
  carry (fst (send_end i c)) = carry c.
Proof.
  intros Hinv Hf. unfold send_end.
  destruct (negb (nth i (end_sent c) false)); simpl.
  - split; [destruct Hinv; constructor; assumption|].
    split_and; auto.
  - split_and; auto.
Qed.

(** What a work request does to the coordinator. *)
Lemma handle_request_inv (R : list (Z * nat)) (i : nat) (c : Coordinator) :
  coord_inv file regex R c ->
  exists c' r,
    handle_request file i c = Some (c', r) /\
    next_offset_to_process c' = next_offset_to_process c /\
    pending_chunks c' = pending_chunks c /\
    finished_children c' = finished_children c /\
    logfile c' = logfile c /\ out c' = out c /\ carry c' = carry c /\
    match r with
    | ReplyAssign off n =>
        coord_inv file regex ((off, n) :: R) c' /\
        off = next_offset_to_assign c /\
        next_offset_to_assign c' = (off + Z.of_nat n)%Z /\
        n = window_bytes file off /\ 0 < n /\
        finished_assignments c = false /\
        finished_assignments c' = false
    | _ =>
        coord_inv file regex R c' /\
        next_offset_to_assign c' = next_offset_to_assign c /\
        finished_assignments c' = true
    end.
Proof.
  intro Hinv. destruct (coord_inv_bounds _ _ Hinv) as [Hb1 Hb2].
  unfold handle_request.
  destruct (finished_assignments c) eqn:Hfin.
  - destruct (send_end_inv R i c Hinv Hfin)
      as (Hi & Hf & Hr & Ha & Hp & Hpd & Hch & Hl & Ho & Hca).
    destruct (send_end i c) as [c' r]. simpl in *.
    exists c', r. split; [reflexivity|].
    repeat (split; [assumption|]).
    destruct Hr as [-> | ->]; auto.
  - rewrite fread_at_slice by lia.
    destruct (length (slice file (next_offset_to_assign c) BUFFER_SIZE)
              =? 0) eqn:E.
    + set (c1 := mkCoordinator _ _ _ _ true _ _ _ _).
      assert (Hlen : next_offset_to_assign c = Z.of_nat (length file)).
      { apply Nat.eqb_eq in E. rewrite length_slice in E.
        pose proof BUFFER_SIZE_positive. lia. }
      assert (Hinv1 : coord_inv file regex R c1).
      { destruct Hinv. constructor; simpl; auto. }
      destruct (send_end_inv R i c1 Hinv1 eq_refl)
        as (Hi & Hf & Hr & Ha & Hp & Hpd & Hch & Hl & Ho & Hca).
      destruct (send_end i c1) as [c' r]. simpl in *.
      exists c', r. split; [reflexivity|].
      repeat (split; [assumption|]).
      destruct Hr as [-> | ->]; auto.
    + eexists; eexists; split; [reflexivity|]. simpl.
      repeat (split; [reflexivity|]).
      assert (Hw : distributor_bytes
                     (slice file (next_offset_to_assign c) BUFFER_SIZE)
                     (length (slice file (next_offset_to_assign c)
                                BUFFER_SIZE))
                   = window_bytes file (next_offset_to_assign c)).
      { unfold window_bytes. now rewrite E. }
      rewrite Hw.
      assert (Hpos : 0 < window_bytes file (next_offset_to_assign c)).
      { apply window_bytes_positive. apply Nat.eqb_neq in E.
        rewrite length_slice in E. lia. }
      pose proof (window_bytes_le file (next_offset_to_assign c)) as Hle.
      rewrite wrap_long_small by lia.
      split; [|split_and; auto].
      destruct Hinv as [Hp (l & Hperm & Hc) Hs Hck Hout Hlc Hlo Hf].
      constructor; simpl; try assumption.
      * exists (l ++ [(next_offset_to_assign c,
                       window_bytes file (next_offset_to_assign c))]).
        split; [|apply chain_snoc; auto].
        rewrite Hperm. rewrite <- app_assoc.
        apply Permutation_app_head.
        symmetry. apply Permutation_cons_append.
      * intro H. discriminate.
Qed.

End DrainFacts.

(** ** The dispatch loop keeps the system consistent *)

Lemma flat_map_worker_range_repeat (n : nat) :
  flat_map worker_range (repeat Requesting n) = [].
Proof. induction n; simpl; auto. Qed.

Lemma existsb_is_leaving_repeat (n : nat) :
  existsb is_leaving (repeat Requesting n) = false.
Proof. induction n; simpl; auto. Qed.

Lemma filter_is_closed_repeat (n : nat) :
  filter is_closed (repeat Requesting n) = [].
Proof. induction n; simpl; auto. Qed.

Lemma existsb_array_set {A : Type} (f : A -> bool) (ws : list A) (i : nat)
    (w' : A) :
  existsb f (array_set ws i w') = true ->
  f w' = true \/ existsb f ws = true.
Proof.
  revert i. induction ws as [|x ws IH]; intros i; simpl; [auto|].
  destruct i; simpl.
  - intro H. apply orb_true_iff in H as [H|H]; [auto|].
    right. rewrite H. apply orb_true_r.
  - intro H. apply orb_true_iff in H as [H|H].
    + right. now rewrite H.
    + destruct (IH _ H) as [H'|H']; [auto|].
      right. rewrite H'. apply orb_true_r.
Qed.

Lemma nth_error_lt {A : Type} (l : list A) (i : nat) (x : A) :
  nth_error l i = Some x -> i < length l.
Proof. intro H. apply nth_error_Some. congruence. Qed.

Section SystemFacts.

Variable file : list byte.
Variable regex : list byte -> bool.
Variable num_procs : nat.
Hypothesis file_fits : (Z.of_nat (length file) <= LONG_MAX)%Z.

Lemma invariant_init :
  invariant file regex num_procs (system_init num_procs).
Proof.
  constructor; simpl.
  - rewrite flat_map_worker_range_repeat.
    constructor; simpl.
    + lia.
    + exists []. split; [constructor|reflexivity].
    + constructor.
    + constructor.
    + exists []. split; [|reflexivity]. now constructor.
    + reflexivity.
    + constructor.
    + discriminate.
  - reflexivity.
  - rewrite existsb_is_leaving_repeat. discriminate.
  - now rewrite filter_is_closed_repeat.
  - apply repeat_length.
Qed.

(** One message: the invariant is kept, the cursors do not go back, and
    each cursor moves only on its own kind of message. *)
Lemma system_step_facts (s s' : System) (e : Event) :
  invariant file regex num_procs s ->
  system_step file regex s e = Some s' ->
  invariant file regex num_procs s' /\
  exists w,
    nth_error (workers s) (ev_worker e) = Some w /\
    match w with
    | Requesting =>
        next_offset_to_process (coord s')
          = next_offset_to_process (coord s) /\
        logfile (coord s') = logfile (coord s) /\
        out (coord s') = out (coord s) /\
        carry (coord s') = carry (coord s) /\
        pending_chunks (coord s') = pending_chunks (coord s) /\
        ((next_offset_to_assign (coord s')
            = next_offset_to_assign (coord s) /\
          finished_assignments (coord s') = true /\
          (nth_error (workers s') (ev_worker e) = Some Exiting \/
           nth_error (workers s') (ev_worker e) = Some Waiting))
         \/
         (exists n,
             0 < n /\ n = window_bytes file (next_offset_to_assign (coord s))
             /\ next_offset_to_assign (coord s')
                = (next_offset_to_assign (coord s) + Z.of_nat n)%Z
             /\ nth_error (workers s') (ev_worker e)
                = Some (Assigned (next_offset_to_assign (coord s)) n)))
    | Assigned off n =>
        next_offset_to_assign (coord s') = next_offset_to_assign (coord s) /\
        (next_offset_to_process (coord s)
         <= next_offset_to_process (coord s'))%Z /\
        n = window_bytes file off /\ 0 < n /\
        coord s'
        = handle_result regex
            (mkPayload (ev_worker e) off n (ev_elapsed e) n)
            (slice file off n) (coord s) /\
        nth_error (workers s') (ev_worker e) = Some Requesting
    | Exiting =>
        next_offset_to_assign (coord s') = next_offset_to_assign (coord s) /\
        next_offset_to_process (coord s')
          = next_offset_to_process (coord s) /\
        logfile (coord s') = logfile (coord s) /\
        out (coord s') = out (coord s) /\
        carry (coord s') = carry (coord s) /\
        pending_chunks (coord s') = pending_chunks (coord s)
    | Waiting | Closed => False
    end.
Proof.
  intros [Hc Hd Hlv Hch Hws] Hstep. unfold system_step in Hstep.
  destruct (nth_error (workers s) (ev_worker e)) as [w|] eqn:Hw;
    [|discriminate].
  pose proof (nth_error_lt _ _ _ Hw) as Hlt.
  destruct w as [|off n| | |]; simpl in Hstep; try discriminate.
  - (* a work request *)
    destruct (handle_request_inv file regex file_fits _ (ev_worker e)
                (coord s) Hc)
      as (c' & r & Hreq & Hp & Hpd & Hcc & Hl & Ho & Hca & Hr).
    rewrite Hreq in Hstep. injection Hstep as <-. simpl.
    split.
    + constructor; simpl.
      * destruct r as [| |off n].
        -- destruct Hr as (Hi & _). eapply coord_inv_perm; [|exact Hi].
           pose proof (flat_map_array_set worker_range (workers s)
                         (ev_worker e) Requesting Waiting Hw) as HP.
           simpl in HP. now symmetry.
        -- destruct Hr as (Hi & _). eapply coord_inv_perm; [|exact Hi].
           pose proof (flat_map_array_set worker_range (workers s)
                         (ev_worker e) Requesting Exiting Hw) as HP.
           simpl in HP. now symmetry.
        -- destruct Hr as (Hi & _). eapply coord_inv_perm; [|exact Hi].
           pose proof (flat_map_array_set worker_range (workers s)
                         (ev_worker e) Requesting (Assigned off n) Hw) as HP.
           simpl in HP. now symmetry.
      * now rewrite Hp, Hpd.
      * intro H. apply existsb_array_set in H.
        destruct r as [| |off n]; try (destruct Hr as (_ & _ & Hf); exact Hf).
        destruct Hr as (_ & _ & _ & _ & _ & Hf & _).
        destruct H as [H|H]; [discriminate|].
        apply Hlv in H. congruence.
      * rewrite Hcc, Hch.
        pose proof (filter_array_set_closed (workers s) (ev_worker e)
                      Requesting (worker_next Requesting r) Hw) as HF.
        destruct r; simpl in HF; lia.
      * now rewrite array_set_length.
    + exists Requesting. split; [reflexivity|].
      repeat (split; [assumption|]).
      rewrite array_set_nth_error by exact Hlt. rewrite Nat.eqb_refl.
      destruct r as [| |off n]; simpl.
      * left. destruct Hr as (_ & Ha & Hf). auto.
      * left. destruct Hr as (_ & Ha & Hf). auto.
      * right. destruct Hr as (_ & -> & Ha & Hn & Hpos & _).
        exists n. auto.
  - (* a completed chunk *)
    assert (HP : Permutation (flat_map worker_range (workers s))
                   ((off, n)
                    :: flat_map worker_range
                         (array_set (workers s) (ev_worker e) Requesting))).
    { pose proof (flat_map_array_set worker_range (workers s)
                    (ev_worker e) (Assigned off n) Requesting Hw) as HP.
      simpl in HP. now symmetry. }
    pose proof (coord_inv_perm file regex _ _ _ HP Hc) as Hc'.
    destruct (handle_result_inv file regex file_fits _ (coord s)
                (ev_worker e) off n (ev_elapsed e) Hc')
      as (payload & txt & Hres & Hi & Hdr & Ha & Hf & Hcc & Hle).
    assert (Hrange : n = window_bytes file off /\ 0 < n /\ (0 <= off)%Z).
    { destruct Hc' as [? (l & Hperm & Hchain) _ _ _ _ _ _].
      assert (Hin : In (off, n) l).
      { eapply Permutation_in; [symmetry; exact Hperm|].
        apply in_or_app. right. now left. }
      destruct (chain_in _ _ _ _ _ _ Hchain Hin) as (? & _ & ? & ?).
      split; [assumption|]. split; [assumption|lia]. }
    destruct Hrange as (Hn & Hpos & Hoff).
    assert (Hres' : child_result file (ev_worker e) off n (ev_elapsed e)
                    = Some (mkPayload (ev_worker e) off n (ev_elapsed e) n,
                            slice file off n)).
    { rewrite Hn. apply child_result_window; [exact Hoff|now rewrite <- Hn]. }
    rewrite Hres' in Hres. injection Hres as <- <-.
    rewrite Hres' in Hstep. simpl in Hstep. injection Hstep as <-. simpl.
    split.
    + constructor; simpl.
      * exact Hi.
      * exact Hdr.
      * intro H. apply existsb_array_set in H.
        destruct H as [H|H]; [discriminate|]. rewrite Hf. now apply Hlv.
      * rewrite Hcc, Hch.
        pose proof (filter_array_set_closed (workers s) (ev_worker e)
                      (Assigned off n) Requesting Hw) as HF.
        simpl in HF. lia.
      * now rewrite array_set_length.
    + exists (Assigned off n). split; [reflexivity|].
      split_and; try assumption; try reflexivity.
      rewrite array_set_nth_error by exact Hlt. now rewrite Nat.eqb_refl.
  - (* the pipe of a worker that was told to stop closes *)
    injection Hstep as <-. simpl. split.
    + constructor; simpl.
      * eapply coord_inv_perm;
          [|destruct Hc; constructor; simpl; eassumption].
        pose proof (flat_map_array_set worker_range (workers s)
                      (ev_worker e) Exiting Closed Hw) as HP.
        simpl in HP. now symmetry.
      * exact Hd.
      * intros _. apply Hlv.
        clear - Hw. revert Hw. generalize (ev_worker e) as i.
        induction (workers s) as [|x ws IH]; intros i H.
        -- destruct i; discriminate.
        -- destruct i; simpl in *.
           ++ injection H as ->. reflexivity.
           ++ rewrite (IH _ H). apply orb_true_r.
      * rewrite Hch.
        pose proof (filter_array_set_closed (workers s) (ev_worker e)
                      Exiting Closed Hw) as HF.
        simpl in HF. lia.
      * now rewrite array_set_length.
    + exists Exiting. split; [reflexivity|]. split_and; reflexivity.
Qed.

Lemma run_invariant (es : list Event) (s s' : System) :
  invariant file regex num_procs s ->
  run file regex s es = Some s' ->
  invariant file regex num_procs s'.
Proof.
  revert s. induction es as [|e es IH]; intros s Hinv; simpl.
  - intro H; injection H as <-. exact Hinv.
  - destruct (system_step file regex s e) as [s1|] eqn:E; [|discriminate].
    apply IH. now apply (system_step_facts s s1 e).
Qed.

Lemma run_app (es1 es2 : list Event) (s : System) :
  run file regex s (es1 ++ es2)
  = match run file regex s es1 with
    | Some s1 => run file regex s1 es2
    | None => None
    end.
Proof.
  revert s. induction es1 as [|e es1 IH]; intro s; simpl; [reflexivity|].
  destruct (system_step file regex s e); [apply IH|reflexivity].
Qed.

End SystemFacts.

(** ** When the dispatch loop is left *)

Lemma filter_length_all {A : Type} (f : A -> bool) (l : list A) :
  length l <= length (filter f l) -> forallb f l = true.
Proof.
  induction l as [|x l IH]; simpl; [reflexivity|].
  destruct (f x) eqn:E; simpl; intro H.
  - apply IH. lia.
  - pose proof (filter_length_le f l). lia.
Qed.

Lemma forallb_closed_no_range (ws : list Worker) :
  forallb is_closed ws = true -> flat_map worker_range ws = [].
Proof.
  induction ws as [|w ws IH]; simpl; [reflexivity|].
  intro H. apply andb_true_iff in H as [Hw H].
  destruct w; try discriminate. simpl. now apply IH.
Qed.

Lemma forallb_closed_leaving (ws : list Worker) :
  0 < length ws -> forallb is_closed ws = true ->
  existsb is_leaving ws = true.
Proof.
  destruct ws as [|w ws]; simpl; [lia|].
  intros _ H. apply andb_true_iff in H as [Hw _].
  destruct w; try discriminate. reflexivity.
Qed.

Section FinalFacts.

Variable file : list byte.
Variable regex : list byte -> bool.
Variable num_procs : nat.
Hypothesis file_fits : (Z.of_nat (length file) <= LONG_MAX)%Z.

Lemma main_loop_exits_closed (s : System) :
  invariant file regex num_procs s ->
  main_loop_exits num_procs s = true ->
  forallb is_closed (workers s) = true.
Proof.
  intros [_ _ _ Hch Hws] H. unfold main_loop_exits in H.
  apply orb_true_iff in H as [H|H]; [|exact H].
  apply negb_true_iff, orb_false_iff in H as [H _].
  apply Nat.ltb_ge in H. apply filter_length_all. lia.
Qed.

(** With every pipe closed nothing is pending and both cursors are at
    the end of the file. *)
Lemma all_closed_consumed (s : System) :
  0 < num_procs ->
  invariant file regex num_procs s ->
  forallb is_closed (workers s) = true ->
  pending_chunks (coord s) = [] /\
  next_offset_to_process (coord s) = Z.of_nat (length file) /\
  next_offset_to_assign (coord s) = Z.of_nat (length file).
Proof.
  intros Hn [Hc Hd Hlv Hch Hws] Hall.
  assert (Hfin : next_offset_to_assign (coord s) = Z.of_nat (length file)).
  { apply (ci_finished _ _ _ _ Hc), Hlv, forallb_closed_leaving;
      [lia|exact Hall]. }
  destruct Hc as [Hp (l & Hperm & Hchain) Hs Hck _ _ _ _].
  rewrite (forallb_closed_no_range _ Hall), app_nil_r in Hperm.
  assert (Hlow : Forall (fun ch => (next_offset_to_process (coord s)
                                    <= file_offset ch)%Z)
                   (pending_chunks (coord s))).
  { apply Forall_forall. intros ch Hin.
    assert (Hin' : In (chunk_range ch) l).
    { eapply Permutation_in; [symmetry; exact Hperm|]. now apply in_map. }
    destruct (chain_in _ _ _ _ _ _ Hchain Hin') as (? & _). assumption. }
  pose proof (pop_expected_chunk_none _ _ Hs Hlow Hd) as Hgt.
  destruct l as [|[o n] l'].
  - apply Permutation_nil in Hperm. apply map_eq_nil in Hperm.
    simpl in Hchain. split; [exact Hperm|]. split; congruence.
  - exfalso. destruct Hchain as (-> & _).
    assert (Hin : In (next_offset_to_process (coord s), n)
                    (map chunk_range (pending_chunks (coord s))))
      by (eapply Permutation_in; [exact Hperm|now left]).
    apply in_map_iff in Hin. destruct Hin as (ch & Heq & Hin).
    rewrite Forall_forall in Hgt. specialize (Hgt _ Hin).
    unfold chunk_range in Heq. injection Heq as Heq _. lia.
Qed.

(** What a whole run leaves behind, whatever the schedule. *)
Lemma main_complete (es : list Event) (cf : Coordinator) :
  main file regex num_procs es = Some cf ->
  exists recs rem,
    extracts file recs rem /\
    out cf = mkOutput (render regex recs ++ flush_text regex rem)
               (recs ++ last_paragraph rem) /\
    carry cf = [] /\ pending_chunks cf = [] /\
    next_offset_to_process cf = Z.of_nat (length file) /\
    next_offset_to_assign cf = Z.of_nat (length file) /\
    chain file 0 (map log_range (logfile cf)) (Z.of_nat (length file)) /\
    Forall (log_ok file regex) (logfile cf) /\
    exists s,
      run file regex (system_init num_procs) es = Some s /\
      logfile cf = logfile (coord s) /\
      main_epilogue regex (coord s) = cf /\
      pending_chunks (coord s) = [] /\
      carry (coord s) = rem /\
      stdout (out (coord s)) = render regex recs.
Proof.
  unfold main.
  destruct ((num_procs <? 1) || (MAX_PROCESSES <? num_procs)) eqn:Hn;
    [discriminate|].
  apply orb_false_iff in Hn as [Hn _]. apply Nat.ltb_ge in Hn.
  destruct (run file regex (system_init num_procs) es) as [s|] eqn:Hrun;
    [|discriminate].
  destruct (main_loop_exits num_procs s) eqn:Hexit; [|discriminate].
  intro H; injection H as <-.
  pose proof (run_invariant file regex num_procs file_fits es _ s
                (invariant_init file regex num_procs) Hrun) as Hinv.
  pose proof (main_loop_exits_closed s Hinv Hexit) as Hall.
  destruct (all_closed_consumed s Hn Hinv Hall) as (Hpd & Hp & Ha).
  destruct Hinv as [Hc Hd _ _ _].
  destruct Hc as [_ _ _ _ (recs & Hex & Hout) Hlc Hlo _].
  rewrite Hp, Nat2Z.id, firstn_all in Hex.
  unfold main_epilogue. rewrite (drain_pending_idle regex _ Hd).
  rewrite flush_remaining_paragraph_spec. simpl.
  exists recs, (carry (coord s)). split; [exact Hex|].
  rewrite Hout, stdout_emit, candidates_emit. simpl.
  split; [reflexivity|]. split; [reflexivity|].
  split; [exact Hpd|]. split; [exact Hp|]. split; [exact Ha|].
  rewrite Hp in Hlc. split; [exact Hlc|]. split; [exact Hlo|].
  exists s. split; [reflexivity|]. split; [reflexivity|].
  split; [|split; [exact Hpd|split; [reflexivity|]]].
  - unfold main_epilogue. rewrite (drain_pending_idle regex _ Hd).
    rewrite flush_remaining_paragraph_spec. simpl.
    rewrite Hout, stdout_emit, candidates_emit. reflexivity.
  - rewrite Hout, stdout_emit. reflexivity.
Qed.

End FinalFacts.

(** ** What the drain loop consumes *)

Section DrainTrace.

Variable regex : list byte -> bool.

Lemma drain_loop_consumes (fuel : nat) (c c' : Coordinator) :
  drain_loop regex fuel c = Some c' ->
  exists consumed,
    pending_chunks c = consumed ++ pending_chunks c' /\
    map log_header (logfile c')
    = map log_header (logfile c) ++ map chunk_header consumed /\
    (consumed = [] -> c' = c).
Proof.
  revert c. induction fuel as [|fuel IH]; intro c; cbn [drain_loop].
  - destruct (pop_expected_chunk (pending_chunks c)
                (next_offset_to_process c)) as [[ready head]|];
      [discriminate|].
    intro H; injection H as <-. exists []. rewrite app_nil_r. auto.
  - destruct (pop_expected_chunk (pending_chunks c)
                (next_offset_to_process c)) as [[ready head]|] eqn:Hpop.
    + intro H. destruct (IH _ H) as (consumed & Hpd & Hlog & _).
      destruct (consume_chunk_fields regex ready head c)
        as (_ & _ & _ & _ & Hhead & found & Hl).
      apply pop_expected_chunk_some in Hpop. destruct Hpop as [Hpend _].
      exists (ready :: consumed). split; [|split; [|discriminate]].
      * rewrite Hpend. simpl. f_equal. now rewrite <- Hpd, Hhead.
      * rewrite Hlog, Hl, map_app. simpl. now rewrite <- app_assoc.
    + intro H; injection H as <-. exists []. rewrite app_nil_r. auto.
Qed.

Lemma drain_loop_total (fuel : nat) (c : Coordinator) :
  length (pending_chunks c) <= fuel ->
  exists c', drain_loop regex fuel c = Some c'.
Proof.
  revert c. induction fuel as [|fuel IH]; intros c Hf; cbn [drain_loop].
  - destruct (pending_chunks c) as [|h t] eqn:E; [|simpl in Hf; lia].
    simpl. eauto.
  - destruct (pop_expected_chunk (pending_chunks c)
                (next_offset_to_process c)) as [[ready head]|] eqn:Hpop;
      [|eauto].
    apply IH.
    destruct (consume_chunk_fields regex ready head c)
      as (_ & _ & _ & _ & -> & _).
    apply pop_expected_chunk_some in Hpop. destruct Hpop as [Hpend _].
    rewrite Hpend in Hf. simpl in Hf. lia.
Qed.

(** The drain pops chunks off the front of the pending list and writes
    one log row for each of them, in the same order. *)
Lemma drain_pending_consumes (c : Coordinator) :
  exists consumed,
    pending_chunks c = consumed ++ pending_chunks (drain_pending regex c) /\
    map log_header (logfile (drain_pending regex c))
    = map log_header (logfile c) ++ map chunk_header consumed /\
    (consumed = [] -> drain_pending regex c = c).
Proof.
  unfold drain_pending.
  destruct (drain_loop_total (length (pending_chunks c)) c (Nat.le_refl _))
    as [c' Hd].
  rewrite Hd. now apply (drain_loop_consumes _ _ _ Hd).
Qed.

Lemma main_epilogue_fields (c : Coordinator) :
  logfile (main_epilogue regex c) = logfile (drain_pending regex c) /\
  next_offset_to_process (main_epilogue regex c)
    = next_offset_to_process (drain_pending regex c) /\
  next_offset_to_assign (main_epilogue regex c)
    = next_offset_to_assign (drain_pending regex c) /\
  out (main_epilogue regex c)
    = mkOutput
        (stdout (out (drain_pending regex c))
         ++ flush_text regex (carry (drain_pending regex c)))
        (candidates (out (drain_pending regex c))
         ++ last_paragraph (carry (drain_pending regex c))).
Proof.
  unfold main_epilogue. rewrite flush_remaining_paragraph_spec.
  simpl. auto.
Qed.

End DrainTrace.

Lemma length_insert_chunk_sorted (head : list ChunkNode) (node : ChunkNode) :
  length (insert_chunk_sorted head node) = S (length head).
Proof.
  now rewrite (Permutation_length (insert_chunk_sorted_perm head node)).
Qed.

Lemma chain_consecutive (file : list byte) (log : list LogEntry) (a b : Z)
    (k : nat) (e1 e2 : LogEntry) :
  chain file a (map log_range log) b ->
  nth_error log k = Some e1 -> nth_error log (S k) = Some e2 ->
  log_file_offset e2
  = (log_file_offset e1 + Z.of_nat (log_bytes_read e1))%Z /\
  (log_file_offset e1 < log_file_offset e2)%Z.
Proof.
  revert a k. induction log as [|x log IH]; intros a k Hc H1 H2.
  - destruct k; discriminate.
  - destruct k as [|k].
    + simpl in H1. injection H1 as ->.
      destruct log as [|y log]; [discriminate|].
      simpl in H2. injection H2 as ->.
      simpl in Hc. destruct Hc as (Ho & _ & Hpos & Ho2 & _).
      rewrite Ho, Ho2. lia.
    + simpl in Hc. destruct Hc as (_ & _ & _ & Hc).
      now apply (IH _ k Hc).
Qed.

(** ** Properties of whole runs *)

Section Runs.

Variable file : list byte.
Variable regex : list byte -> bool.
Variable num_procs : nat.
Hypothesis file_fits : (Z.of_nat (length file) <= LONG_MAX)%Z.

(** C1. At any point of any run, and at its end, the offsets of the log
    rows are contiguous and strictly increasing: each row starts where
    the row before it stopped, whatever the order in which the workers
    deliver ([es] is any schedule). *)
Theorem log_offsets_contiguous (es : list Event) (s : System)
    (k : nat) (e1 e2 : LogEntry) :
  run file regex (system_init num_procs) es = Some s ->
  (nth_error (logfile (coord s)) k = Some e1 /\
   nth_error (logfile (coord s)) (S k) = Some e2)
  \/ (nth_error (logfile (main_epilogue regex (coord s))) k = Some e1 /\
      nth_error (logfile (main_epilogue regex (coord s))) (S k) = Some e2) ->
  log_file_offset e2
  = (log_file_offset e1 + Z.of_nat (log_bytes_read e1))%Z /\
  (log_file_offset e1 < log_file_offset e2)%Z.
Proof.
  intros Hrun H.
  pose proof (run_invariant file regex num_procs file_fits es _ s
                (invariant_init file regex num_procs) Hrun) as Hinv.
  destruct Hinv as [Hc Hd _ _ _].
  assert (Hlog : logfile (main_epilogue regex (coord s))
                 = logfile (coord s)).
  { destruct (main_epilogue_fields regex (coord s)) as (-> & _).
    now rewrite (drain_pending_idle regex _ Hd). }
  rewrite Hlog in H.
  assert (H' : nth_error (logfile (coord s)) k = Some e1 /\
               nth_error (logfile (coord s)) (S k) = Some e2) by tauto.
  destruct H' as [H1 H2].
  exact (chain_consecutive file _ _ _ k e1 e2 (ci_log_chain _ _ _ _ Hc)
           H1 H2).
Qed.


End Runs.

(** ** Records, remainders and their bytes *)


(** The records, each followed by its delimiter pair, and then the
    remainder, are the buffer again. *)
Lemma extracts_rebuild (carry : StringBuffer) (recs : list (list byte))
    (rem : StringBuffer) :
  extracts carry recs rem ->
  carry = concat (map (fun r => r ++ [NL; NL]) recs) ++ rem.
Proof.
  induction 1 as [carry Hn | record rest recs rem Hf Hex IH];
    [reflexivity|].
  simpl. rewrite <- !app_assoc. simpl. now rewrite <- IH.
Qed.

Lemma extracts_forall (P : byte -> Prop) (carry : StringBuffer)
    (recs : list (list byte)) (rem : StringBuffer) :
  extracts carry recs rem -> Forall P carry ->
  Forall (Forall P) recs /\ Forall P rem.
Proof.
  induction 1 as [carry Hn | record rest recs rem Hf Hex IH]; intro HP.
  - split; [constructor|exact HP].
  - apply Forall_app in HP as [Hr HP].
    inversion HP as [|? ? _ HP']; subst.
    inversion HP' as [|? ? _ HP'']; subst.
    destruct (IH HP'') as [H1 H2]. split; [constructor|]; assumption.
Qed.

Lemma c_str_no_nul (data : list byte) :
  Forall (fun b => b <> NUL) data -> c_str data = data.
Proof.
  induction 1 as [|b data Hb _ IH]; simpl; [reflexivity|].
  destruct (Byte.eqb b NUL) eqn:E.
  - apply Byte.byte_dec_bl in E. contradiction.
  - now rewrite IH.
Qed.

Lemma map_c_str_no_nul (recs : list (list byte)) :
  Forall (Forall (fun b => b <> NUL)) recs -> map c_str recs = recs.
Proof.
  induction 1 as [|r l Hr _ IH]; [reflexivity|].
  cbn [map]. now rewrite (c_str_no_nul _ Hr), IH.
Qed.

Lemma ends_with_nl_snoc (l : list byte) (b : byte) :
  ends_with_nl (l ++ [b]) = is_nl b.
Proof.
  unfold ends_with_nl. rewrite length_app. simpl.
  replace (length l + 1 - 1) with (length l) by lia.
  now rewrite nth_middle.
Qed.

Lemma find_double_newline_from_pair (pre post : list byte) (i : nat) :
  (0 <= find_double_newline_from i (pre ++ NL :: NL :: post))%Z.
Proof.
  revert i. induction pre as [|a pre IH]; intro i.
  - simpl. lia.
  - destruct (pre ++ NL :: NL :: post) as [|b l] eqn:E;
      [destruct pre; discriminate|].
    change ((a :: pre) ++ NL :: NL :: post)
      with (a :: (pre ++ NL :: NL :: post)).
    rewrite E.
    change (find_double_newline_from i (a :: b :: l))
      with (if is_nl a && is_nl b then Z.of_nat i
            else find_double_newline_from (S i) (b :: l)).
    destruct (is_nl a && is_nl b); [lia|]. apply IH.
Qed.

(** A buffer the loop is done with does not end in two line
    delimiters. *)
Lemma remainder_single_newline (rem body : list byte) :
  find_double_newline_from 0 rem = (-1)%Z ->
  rem = body ++ [NL] -> ends_with_nl body = false.
Proof.
  intros Hn ->.
  destruct body as [|b body] using rev_ind; [reflexivity|].
  rewrite ends_with_nl_snoc. destruct (is_nl b) eqn:E; [|reflexivity].
  apply is_nl_true in E. subst b. rewrite <- app_assoc in Hn. simpl in Hn.
  pose proof (find_double_newline_from_pair body [] 0). lia.
Qed.

(** A record cut by the loop does not end with a line delimiter. *)
Lemma first_pair_record (record rest : list byte) (i : nat) :
  find_double_newline_from i (record ++ NL :: NL :: rest)
    = Z.of_nat (i + length record) ->
  ends_with_nl record = false.
Proof.
  destruct record as [|b record] using rev_ind; [reflexivity|].
  intros H. rewrite ends_with_nl_snoc.
  destruct (is_nl b) eqn:E; [|reflexivity].
  apply is_nl_true in E. subst b. exfalso.
  assert (Heq : (record ++ [NL]) ++ NL :: NL :: rest
                = (record ++ [NL; NL]) ++ NL :: rest)
    by (rewrite <- !app_assoc; reflexivity).
  rewrite Heq in H.
  rewrite find_double_newline_from_app in H.
  - destruct (find_double_newline_from_range ((record ++ [NL; NL])) i)
      as [Hm|Hr].
    + pose proof (find_double_newline_from_pair record [] i). simpl in *.
      lia.
    + rewrite !length_app in *. simpl in *. lia.
  - apply (find_double_newline_from_pair record [] i).
Qed.

Lemma extracts_records_no_trailing_nl (carry : StringBuffer)
    (recs : list (list byte)) (rem : StringBuffer) :
  extracts carry recs rem -> Forall (fun r => ends_with_nl r = false) recs.
Proof.
  induction 1 as [carry Hn | record rest recs rem Hf Hex IH];
    constructor; [|exact IH].
  now apply (first_pair_record record rest 0).
Qed.

Lemma nth_slice (file : list byte) (off : Z) (n k : nat) :
  k < n ->
  nth k (slice file off n) NUL = nth (Z.to_nat off + k) file NUL.
Proof.
  intro H. unfold slice.
  rewrite nth_firstn, (proj2 (Nat.ltb_lt _ _) H). apply nth_skipn.
Qed.

Lemma handle_request_fields (file : list byte) (i : nat)
    (c c' : Coordinator) (r : Reply) :
  handle_request file i c = Some (c', r) ->
  logfile c' = logfile c /\ pending_chunks c' = pending_chunks c.
Proof.
  unfold handle_request, send_end.
  destruct (finished_assignments c).
  - destruct (negb (nth i (end_sent c) false)); intro H;
      injection H as <- <-; auto.
  - destruct (fread_at file (next_offset_to_assign c) BUFFER_SIZE)
      as [tempbuf|]; [|discriminate].
    destruct (length tempbuf =? 0).
    + simpl. destruct (negb (nth i (end_sent c) false)); intro H;
        injection H as <- <-; auto.
    + intro H; injection H as <- <-; auto.
Qed.

Lemma results_read_count (file : list byte) (regex : list byte -> bool)
    (es : list Event) (s s' : System) :
  run file regex s es = Some s' ->
  length (logfile (coord s')) + length (pending_chunks (coord s'))
  = length (logfile (coord s)) + length (pending_chunks (coord s))
    + results_read file regex s es.
Proof.
  revert s. induction es as [|e es IH]; intro s; simpl.
  - intro H; injection H as <-. lia.
  - destruct (system_step file regex s e) as [s1|] eqn:Hstep;
      [|discriminate].
    intro Hrun. rewrite (IH _ Hrun). clear IH Hrun.
    unfold system_step in Hstep.
    destruct (nth_error (workers s) (ev_worker e)) as [w|]; [|discriminate].
    destruct w as [|off n| | |]; simpl in Hstep; try discriminate.
    + destruct (handle_request file (ev_worker e) (coord s))
        as [[c' r]|] eqn:Hreq; [|discriminate].
      injection Hstep as <-. simpl.
      destruct (handle_request_fields _ _ _ _ _ Hreq) as [-> ->]. lia.
    + destruct (child_result file (ev_worker e) off n (ev_elapsed e))
        as [[payload txt]|]; [|discriminate].
      simpl in Hstep. injection Hstep as <-. simpl.
      unfold handle_result.
      set (c1 := mkCoordinator _ _ _ _ _ _ _ _ _).
      destruct (drain_pending_consumes regex c1) as (consumed & Hpd & Hlog & _).
      apply (f_equal (@length _)) in Hlog, Hpd.
      rewrite length_app, !length_map in Hlog. rewrite length_app in Hpd.
      subst c1. simpl in Hlog, Hpd.
      rewrite length_insert_chunk_sorted in Hpd. lia.
    + injection Hstep as <-. simpl. lia.
Qed.


Lemma render_no_nul (regex : list byte -> bool) (recs : list (list byte)) :
  Forall (Forall (fun b => b <> NUL)) recs ->
  render regex recs
  = concat (map (fun r => r ++ [NL; NL]) (filter regex recs)).
Proof.
  induction 1 as [|r recs Hr _ IH]; [reflexivity|].
  unfold render, hit in *. simpl. rewrite (c_str_no_nul _ Hr).
  destruct (regex r); simpl.
  - rewrite (c_str_no_nul _ Hr). now rewrite IH.
  - exact IH.
Qed.

Lemma consume_all_extracts (regex : list byte -> bool)
    (texts : list (list byte)) (c : Coordinator) (pre : list byte)
    (recs : list (list byte)) :
  extracts pre recs (carry c) ->
  out c = emit regex (mkOutput [] []) recs ->
  pending_chunks c = [] ->
  exists recs',
    extracts (pre ++ concat texts) recs'
      (carry (consume_all regex texts c)) /\
    out (consume_all regex texts c) = emit regex (mkOutput [] []) recs' /\
    pending_chunks (consume_all regex texts c) = [].
Proof.
  revert c pre recs. induction texts as [|txt texts IH];
    intros c pre recs Hex Hout Hpd.
  - exists recs. simpl. rewrite app_nil_r. auto.
  - simpl concat. rewrite app_assoc.
    change (consume_all regex (txt :: texts) c)
      with (consume_all regex texts
              (consume_chunk regex (chunk_of_text txt) [] c)).
    assert (Hcarry :
              (if 0 <? text_length (chunk_of_text txt)
               then string_buffer_append (carry c)
                      (text (chunk_of_text txt))
                      (text_length (chunk_of_text txt))
               else carry c) = carry c ++ txt).
    { simpl. unfold string_buffer_append. rewrite firstn_all.
      destruct txt; simpl; [now rewrite app_nil_r|reflexivity]. }
    destruct (extracts_total (carry c ++ txt)) as (recs2 & rem2 & Hex2).
    apply (IH _ _ (recs ++ recs2)).
    + unfold consume_chunk. rewrite Hcarry.
      rewrite (process_paragraphs_extracts regex _ _ _ (out c) Hex2).
      simpl. eapply extracts_app; eassumption.
    + unfold consume_chunk. rewrite Hcarry.
      rewrite (process_paragraphs_extracts regex _ _ _ (out c) Hex2).
      simpl. rewrite Hout. symmetry. apply emit_app.
    + unfold consume_chunk.
      destruct (process_paragraphs regex _ (out c)) as [[? ?] ?].
      reflexivity.
Qed.

Section RunProperties.

Variable file : list byte.
Variable regex : list byte -> bool.
Variable num_procs : nat.
Hypothesis file_fits : (Z.of_nat (length file) <= LONG_MAX)%Z.

(** C2, as the code has it.  On an input without NUL bytes, whatever
    the schedule, the candidate records of a whole run (those cut by
    [process_paragraphs] after each append to the carry buffer, then the
    one of the terminal flush) are exactly the blank-line-delimited
    paragraphs of the input, each once and in order, and the C strings
    handed to the matcher for them are these paragraphs byte for byte;
    the records cut by the loop, each followed by its delimiter pair,
    then what the flush takes, are the input again; and the same
    records come out of the pipeline (append, [process_paragraphs],
    terminal flush) for every way of cutting the input into consecutive
    chunks. *)
Theorem every_paragraph_extracted_once (es : list Event) (cf : Coordinator) :
  Forall (fun b => b <> NUL) file ->
  main file regex num_procs es = Some cf ->
  candidates (out cf) = paragraphs file /\
  map c_str (candidates (out cf)) = paragraphs file /\
  (exists recs rem,
      candidates (out cf) = recs ++ last_paragraph rem /\
      file = concat (map (fun r => r ++ [NL; NL]) recs) ++ rem) /\
  (forall texts,
      concat texts = file ->
      candidates
        (out (main_epilogue regex
                (consume_all regex texts coordinator_init)))
      = paragraphs file /\
      map c_str
        (candidates
           (out (main_epilogue regex
                   (consume_all regex texts coordinator_init))))
      = paragraphs file).
Proof.
  intros Hnul H.
  destruct (main_complete file regex num_procs file_fits es cf H)
    as (recs & rem & Hex & Hout & _).
  assert (Hstr : map c_str (paragraphs file) = paragraphs file).
  { rewrite (extracts_paragraphs _ _ _ Hex).
    destruct (extracts_forall _ _ _ _ Hex Hnul) as [Hrecs Hrem].
    assert (Hall : Forall (Forall (fun b => b <> NUL))
                     (recs ++ last_paragraph rem)).
    { apply Forall_app. split; [exact Hrecs|].
      destruct rem; simpl; [constructor|].
      constructor; [exact Hrem|constructor]. }
    exact (map_c_str_no_nul _ Hall). }
  assert (Hcand : candidates (out cf) = paragraphs file).
  { rewrite Hout. simpl. symmetry. now apply extracts_paragraphs. }
  split; [exact Hcand|]. split; [now rewrite Hcand|]. split.
  - rewrite Hout. simpl.
    exists recs, rem. split; [reflexivity|]. now apply extracts_rebuild.
  - intros texts Htexts.
    destruct (consume_all_extracts regex texts coordinator_init [] []
                (extracts_done [] eq_refl) eq_refl eq_refl)
      as (recs' & Hex' & Hout' & Hpd').
    simpl app in Hex'. rewrite Htexts in Hex'.
    destruct (main_epilogue_fields regex
                (consume_all regex texts coordinator_init))
      as (_ & _ & _ & ->).
    rewrite drain_pending_idle by (now rewrite Hpd').
    simpl. rewrite Hout', candidates_emit. simpl.
    rewrite <- (extracts_paragraphs _ _ _ Hex').
    split; [reflexivity|exact Hstr].
Qed.

(** C3, as the code has it.  Every range the distributor hands out is
    not empty, lies in the file, and either ends exactly at a line
    delimiter, or holds no line delimiter at all and then fills the whole
    read-ahead window of [BUFFER_SIZE] bytes or runs to the end of the
    file. *)
Theorem assigned_range_ends_at_delimiter_or_window (es : list Event)
    (s s' : System) (e : Event) (off : Z) (n : nat) :
  run file regex (system_init num_procs) es = Some s ->
  system_step file regex s e = Some s' ->
  nth_error (workers s) (ev_worker e) = Some Requesting ->
  nth_error (workers s') (ev_worker e) = Some (Assigned off n) ->
  off = next_offset_to_assign (coord s) /\
  0 < n <= BUFFER_SIZE /\
  (0 <= off)%Z /\ (off + Z.of_nat n <= Z.of_nat (length file))%Z /\
  (nth (Z.to_nat off + n - 1) file NUL = NL
   \/ ((forall k, k < n -> nth (Z.to_nat off + k) file NUL <> NL) /\
       (n = BUFFER_SIZE \/
        (off + Z.of_nat n)%Z = Z.of_nat (length file)))).
Proof.
  intros Hrun Hstep Hw Hw'.
  pose proof (run_invariant file regex num_procs file_fits es _ s
                (invariant_init file regex num_procs) Hrun) as Hinv.
  destruct (system_step_facts file regex num_procs file_fits s s' e
              Hinv Hstep) as (_ & w & Hw0 & Hfacts).
  rewrite Hw in Hw0. injection Hw0 as <-.
  destruct Hfacts as (_ & _ & _ & _ & _ & Hcase).
  destruct Hcase as [(_ & _ & [Hx|Hx])|(n' & Hpos & Hn & _ & Hx)];
    rewrite Hw' in Hx; try discriminate.
  injection Hx as -> ->.
  destruct (coord_inv_bounds file regex _ _ (inv_coord _ _ _ _ Hinv))
    as [Hb1 Hb2].
  set (off := next_offset_to_assign (coord s)) in *.
  pose proof (window_bytes_le file off) as Hle.
  split; [reflexivity|]. split; [lia|]. split; [lia|]. split; [lia|].
  rewrite Hn in Hpos.
  destruct (window_bytes_cut file off Hpos) as [Hnl|[Hlen Hno]].
  - left. rewrite nth_slice in Hnl by lia.
    apply is_nl_true in Hnl. rewrite <- Hn in Hnl.
    replace (Z.to_nat off + n' - 1) with (Z.to_nat off + (n' - 1)) by lia.
    exact Hnl.
  - right. rewrite <- Hn in *. split.
    + intros k Hk. specialize (Hno k Hk).
      rewrite nth_slice in Hno by exact Hk. now apply is_nl_false.
    + rewrite length_slice in Hlen. lia.
Qed.

(** C7, as the code has it.  On an input without NUL bytes, standard
    output at the end of a run is: every matched record cut by the loop,
    verbatim and followed by exactly two line delimiters (the record
    itself does not end with one), then, if what is left in the carry
    buffer matches, that remainder verbatim with one line delimiter
    appended unless it already ends with one, so that it ends with
    exactly one. *)
Theorem stdout_records_verbatim (es : list Event) (cf : Coordinator) :
  Forall (fun b => b <> NUL) file ->
  main file regex num_procs es = Some cf ->
  exists recs rem,
    extracts file recs rem /\
    candidates (out cf) = recs ++ last_paragraph rem /\
    Forall (fun r => ends_with_nl r = false) recs /\
    stdout (out cf)
    = concat (map (fun r => r ++ [NL; NL]) (filter regex recs))
      ++ match rem with
         | [] => []
         | _ :: _ =>
             if regex rem
             then rem ++ (if ends_with_nl rem then [] else [NL])
             else []
         end /\
    (rem <> [] ->
     exists body,
       rem ++ (if ends_with_nl rem then [] else [NL]) = body ++ [NL] /\
       ends_with_nl body = false).
Proof.
  intros Hnul H.
  destruct (main_complete file regex num_procs file_fits es cf H)
    as (recs & rem & Hex & Hout & _).
  destruct (extracts_forall _ _ _ _ Hex Hnul) as [Hrecs Hrem].
  exists recs, rem. split; [exact Hex|]. rewrite Hout. simpl.
  split; [reflexivity|].
  split; [now apply (extracts_records_no_trailing_nl _ _ _ Hex)|].
  split.
  - rewrite (render_no_nul _ _ Hrecs). f_equal.
    unfold flush_text, hit. rewrite (c_str_no_nul _ Hrem). reflexivity.
  - intro Hne. destruct (ends_with_nl rem) eqn:E.
    + destruct rem as [|b body] using rev_ind; [contradiction|].
      clear IHbody. rewrite ends_with_nl_snoc in E.
      apply is_nl_true in E. subst b.
      exists body. rewrite app_nil_r. split; [reflexivity|].
      eapply remainder_single_newline; [|reflexivity].
      exact (extracts_remainder _ _ _ Hex).
    + exists rem. auto.
Qed.

(** C9. The log has exactly one row for each result read, that is for
    each chunk consumed, and none for the terminal flush: the flush
    leaves the log as it was when the dispatch loop was left, and only
    adds to standard output what it prints for the remainder. *)
Theorem log_has_one_row_per_chunk (es : list Event) (cf : Coordinator) :
  main file regex num_procs es = Some cf ->
  length (logfile cf)
  = results_read file regex (system_init num_procs) es /\
  exists s,
    run file regex (system_init num_procs) es = Some s /\
    cf = main_epilogue regex (coord s) /\
    pending_chunks (coord s) = [] /\
    logfile cf = logfile (coord s) /\
    stdout (out cf)
    = stdout (out (coord s)) ++ flush_text regex (carry (coord s)) /\
    Forall (log_ok file regex) (logfile cf).
Proof.
  intro H.
  destruct (main_complete file regex num_procs file_fits es cf H)
    as (recs & rem & Hex & Hout & _ & _ & _ & _ & _ & Hok
        & s & Hrun & Hlog & Hepi & Hpd & Hca & Hso).
  split.
  - pose proof (results_read_count file regex es _ _ Hrun) as Hc.
    rewrite Hpd in Hc. simpl in Hc. rewrite Hlog. lia.
  - exists s. split; [exact Hrun|]. split; [now symmetry|].
    split; [exact Hpd|]. split; [exact Hlog|]. split; [|exact Hok].
    rewrite Hout, Hso, Hca. reflexivity.
Qed.

End RunProperties.

(** ** The log file *)

Lemma drain_loop_appends (regex : list byte -> bool) (fuel : nat)
    (c c' : Coordinator) :
  drain_loop regex fuel c = Some c' ->
  exists rows, logfile c' = logfile c ++ rows.
Proof.
  revert c. induction fuel as [|fuel IH]; intro c; cbn [drain_loop];
    destruct (pop_expected_chunk (pending_chunks c)
                (next_offset_to_process c)) as [[ready head]|];
    try discriminate;
    try (intro H; injection H as <-; exists []; now rewrite app_nil_r).
  intro H. destruct (IH _ H) as (rows & Hrows).
  destruct (consume_chunk_fields regex ready head c)
    as (_ & _ & _ & _ & _ & found & Hl).
  rewrite Hrows, Hl, <- app_assoc. eauto.
Qed.













Section LogFileFacts.

Variable file : list byte.
Variable regex : list byte -> bool.
Variable num_procs : nat.




Hypothesis file_fits : (Z.of_nat (length file) <= LONG_MAX)%Z.


End LogFileFacts.

Lemma log_rows_no_exits (rows : list LogEntry) (r : nat) (l : LogFile) :
  exists l',
    log_rows l rows r [] = Some l' /\ lf_children l' = lf_children l.
Proof.
  revert r l. induction rows as [|row rows IH]; intros r l; cbn.
  - eauto.
  - destruct (IH (S r) (log_write_row l row)) as (l' & Hl & Hch).
    exists l'. split; [exact Hl|]. rewrite Hch. reflexivity.
Qed.

Section Lift.

Variable file : list byte.
Variable regex : list byte -> bool.

(** Every schedule of messages is the schedule of a run with its log
    file: each worker may exit just before its end of file is read. *)
Lemma machine_run_exists (es : list Event) (m : Machine) (s' : System) :
  length (lf_children (m_log m)) = length (workers (m_system m)) ->
  (forall j,
      has_exited (m_log m) j = true <->
      nth_error (workers (m_system m)) j = Some Closed) ->
  run file regex (m_system m) es = Some s' ->
  exists acts m',
    map act_event acts = es /\
    machine_run file regex m acts = Some m' /\
    m_system m' = s'.
Proof.
  revert m. induction es as [|e es IH]; intros m Hlen Hex; cbn [run].
  - intro H; injection H as <-. exists [], m. auto.
  - destruct (system_step file regex (m_system m) e) as [s1|] eqn:Hstep;
      [|discriminate].
    intro Hrun.
    assert (Hnext : exists a m1,
               act_event a = e /\
               machine_step file regex m a = Some m1 /\
               m_system m1 = s1 /\
               length (lf_children (m_log m1)) = length (workers s1) /\
               forall j,
                 has_exited (m_log m1) j = true <->
                 nth_error (workers s1) j = Some Closed).
    { pose proof Hstep as Hstep0. unfold system_step in Hstep.
      destruct (nth_error (workers (m_system m)) (ev_worker e))
        as [w|] eqn:Hw; [|discriminate].
      assert (Hi : ev_worker e < length (workers (m_system m)))
        by (apply nth_error_Some; congruence).
      destruct (worker_message file (ev_worker e) w (ev_elapsed e))
        as [msg|] eqn:Hm; [|discriminate].
      destruct (dispatch regex file (ev_worker e) msg (coord (m_system m)))
        as [[c' r]|] eqn:Hd; [|discriminate].
      injection Hstep as <-.
      destruct (is_exiting w) eqn:Hxt.
      - destruct w; try discriminate.
        cbn in Hm. injection Hm as <-. cbn in Hd. injection Hd as <- <-.
        assert (Hchild : exists buffer,
                   nth_error (lf_children (m_log m)) (ev_worker e)
                   = Some (Some buffer)).
        { destruct (nth_error (lf_children (m_log m)) (ev_worker e))
            as [[buffer|]|] eqn:Hc.
          - eauto.
          - exfalso.
            assert (Hx : has_exited (m_log m) (ev_worker e) = true)
              by (unfold has_exited; now rewrite Hc).
            apply Hex in Hx. congruence.
          - apply nth_error_None in Hc. lia. }
        destruct Hchild as [buffer Hc].
        exists (mkAction e [(ev_worker e, 0)]). eexists.
        split; [reflexivity|].
        unfold machine_step. cbn [act_event act_exits].
        rewrite Hstep0. cbn [coord handle_eof logfile workers].
        rewrite skipn_all. cbn [length forallb fst snd Nat.leb andb].
        rewrite (nth_error_nth _ _ Closed Hw). cbn [is_exiting andb].
        cbn [log_rows exits_at filter snd Nat.eqb map fst log_exits].
        unfold log_exit at 1. rewrite Hc.
        unfold has_exited at 1. cbn [lf_children].
        rewrite (array_set_nth_error _ _ _ _
                   ltac:(rewrite Hlen; exact Hi)), Nat.eqb_refl.
        cbn [negb]. split; [reflexivity|].
        cbn [m_system m_log lf_children workers].
        split; [reflexivity|].
        rewrite !array_set_length. split; [exact Hlen|].
        intro j. unfold has_exited. cbn [lf_children].
        rewrite (array_set_nth_error _ _ _ _
                   ltac:(rewrite Hlen; exact Hi)).
        rewrite (array_set_nth_error _ _ _ _ Hi).
        destruct (j =? ev_worker e); [tauto|]. apply Hex.
      - destruct (log_rows_no_exits
                    (skipn (length (logfile (coord (m_system m))))
                       (logfile c')) 0 (m_log m)) as (l' & Hl & Hch).
        exists (mkAction e []). exists (mkMachine
                 (mkSystem c' (array_set (workers (m_system m))
                                 (ev_worker e) (worker_next w r))) l').
        split; [reflexivity|].
        unfold machine_step. cbn [act_event act_exits].
        rewrite Hstep0. cbn [coord workers forallb].
        rewrite Hl, (nth_error_nth _ _ Closed Hw), Hxt. cbn [andb].
        split; [reflexivity|]. cbn [m_system m_log workers].
        split; [reflexivity|].
        rewrite array_set_length, Hch. split; [exact Hlen|].
        intro j. unfold has_exited. rewrite Hch.
        rewrite (array_set_nth_error _ _ _ _ Hi).
        destruct (j =? ev_worker e) eqn:Ej; [|apply Hex].
        apply Nat.eqb_eq in Ej. subst j.
        split.
        + intro Hx. apply Hex in Hx. rewrite Hw in Hx.
          injection Hx as ->. discriminate.
        + intro Hx. exfalso. injection Hx as Hx.
          destruct w; try discriminate; destruct r; discriminate. }
    destruct Hnext as (a & m1 & Ha & Hm1 & Hs1 & Hlen1 & Hex1).
    rewrite <- Hs1 in Hrun, Hlen1, Hex1.
    destruct (IH m1 Hlen1 Hex1 Hrun) as (acts & m' & Hacts & Hrun' & Hs').
    exists (a :: acts), m'. split; [cbn; now rewrite Ha, Hacts|].
    split; [|exact Hs']. cbn [machine_run]. now rewrite Hm1.
Qed.

Lemma main_log_exists (num_procs : nat) (es : list Event)
    (cf : Coordinator) :
  main file regex num_procs es = Some cf ->
  exists acts lines,
    map act_event acts = es /\
    main_log file regex num_procs acts = Some (cf, lines).
Proof.
  unfold main, main_log.
  destruct ((num_procs <? 1) || (MAX_PROCESSES <? num_procs));
    [discriminate|].
  destruct (run file regex (system_init num_procs) es) as [s|] eqn:Hrun;
    [|discriminate].
  destruct (main_loop_exits num_procs s) eqn:Hexit; [|discriminate].
  intro H; injection H as <-.
  destruct (machine_run_exists es (machine_init num_procs) s)
    as (acts & m & Hacts & Hm & Hs).
  - cbn. now rewrite !repeat_length.
  - intro j. cbn. unfold has_exited. cbn. split.
    + destruct (nth_error (repeat (Some [HeaderLine]) num_procs) j)
        as [c|] eqn:Hc; [|discriminate].
      apply nth_error_In, repeat_spec in Hc. subst c. discriminate.
    + intro Hc. apply nth_error_In, repeat_spec in Hc. discriminate.
  - exact Hrun.
  - exists acts. eexists. split; [exact Hacts|].
    rewrite Hm, Hs, Hexit. reflexivity.
Qed.

End Lift.


(** ** The scenario of the specification and other concrete runs *)

Lemma scenario_input_fits :
  (Z.of_nat (length scenario_input) <= LONG_MAX)%Z.
Proof. vm_compute. discriminate. Qed.

Lemma scenario_chain :
  chain scenario_input 0 [(0%Z, 31)] 31.
Proof.
  simpl. split; [reflexivity|]. split; [vm_compute; reflexivity|].
  split; [lia|reflexivity].
Qed.

(** C4, as the code has it.  On ["alpha beta\n\ngamma alpha\n\ndelta\n"]
    with pattern [alpha] and two workers, every run writes exactly the
    two paragraphs ["alpha beta\n\n"] and ["gamma alpha\n\n"], in this
    order, to standard output; the whole input fits the read-ahead
    window and ends with a line delimiter, so it is handed out as one
    range and the log has exactly one data row, at offset 0, with
    [bytes_read] the full length 31 and [found] 1; the third paragraph
    ["delta\n"] is the candidate of the terminal flush, does not match,
    and has no log row of its own. *)
Theorem scenario_alpha (es : list Event) (cf : Coordinator) :
  main scenario_input scenario_regex 2 es = Some cf ->
  stdout (out cf)
  = bytes_of "alpha beta"%string ++ [NL; NL]
    ++ bytes_of "gamma alpha"%string ++ [NL; NL] /\
  candidates (out cf)
  = [bytes_of "alpha beta"%string; bytes_of "gamma alpha"%string;
     bytes_of "delta"%string ++ [NL]] /\
  scenario_regex (c_str (bytes_of "delta"%string ++ [NL])) = false /\
  length scenario_input = 31 /\
  exists pid elapsed, logfile cf = [mkLog pid 0 31 elapsed true].
Proof.
  intro H.
  destruct (main_complete scenario_input scenario_regex 2
              scenario_input_fits es cf H)
    as (recs & rem & Hex & Hout & _ & _ & _ & _ & Hch & Hok & _).
  assert (Hpp : process_paragraphs scenario_regex scenario_input
                  (mkOutput [] [])
                = (bytes_of "delta"%string ++ [NL],
                   mkOutput
                     (bytes_of "alpha beta"%string ++ [NL; NL]
                      ++ bytes_of "gamma alpha"%string ++ [NL; NL])
                     [bytes_of "alpha beta"%string;
                      bytes_of "gamma alpha"%string],
                   true))
    by (vm_compute; reflexivity).
  rewrite (process_paragraphs_extracts scenario_regex _ _ _
             (mkOutput [] []) Hex) in Hpp.
  injection Hpp as Hrem Hemit _.
  apply (f_equal candidates) in Hemit.
  rewrite candidates_emit in Hemit. simpl in Hemit. subst recs rem.
  rewrite Hout.
  split; [vm_compute; reflexivity|]. split; [vm_compute; reflexivity|].
  split; [vm_compute; reflexivity|]. split; [vm_compute; reflexivity|].
  pose proof (chain_unique scenario_input _ _ _ _ Hch scenario_chain)
    as Hlog.
  destruct (logfile cf) as [|e [|e' l]]; try discriminate.
  inversion Hok as [|? ? Hfound _]; subst.
  destruct e as [pid off n elapsed found].
  simpl in Hlog. injection Hlog as -> ->.
  unfold log_ok in Hfound. simpl in Hfound.
  assert (Hf : found_at scenario_input scenario_regex 0 = true)
    by (vm_compute; reflexivity).
  rewrite Hf in Hfound. subst found. eauto.
Qed.

(** C4 as stated asks for two or more data rows: the run in which
    worker 1 is served first has one. *)
Lemma scenario_log_has_one_row :
  exists cf,
    main scenario_input scenario_regex 2 scenario_schedule = Some cf /\
    logfile cf = [mkLog 1 0 31 7 true] /\
    ~ 2 <= length (logfile cf).
Proof.
  eexists. split; [vm_compute; reflexivity|].
  split; [reflexivity|]. simpl. lia.
Qed.

(** C3 as stated: in a file that is one line of 8193 letters the first
    range handed out is [0, 8192); it ends at a letter, and it is not the
    last one, for the next request gets [8192, 8193). *)
Lemma long_line_range_ends_mid_line :
  exists s1 s2,
    system_step long_line_input scenario_regex (system_init 2)
      (mkEvent 0 0) = Some s1 /\
    nth_error (workers s1) 0 = Some (Assigned 0 8192) /\
    system_step long_line_input scenario_regex s1 (mkEvent 1 0) = Some s2 /\
    nth_error (workers s2) 1 = Some (Assigned 8192 1) /\
    nth 8191 long_line_input NUL = x61 /\
    nth 8191 long_line_input NUL <> NL /\
    (0 + Z.of_nat 8192 <> Z.of_nat (length long_line_input))%Z.
Proof.
  eexists. eexists.
  split; [vm_compute; reflexivity|].
  split; [vm_compute; reflexivity|].
  split; [vm_compute; reflexivity|].
  split; [vm_compute; reflexivity|].
  split; [vm_compute; reflexivity|].
  split; [vm_compute; discriminate|].
  vm_compute. discriminate.
Qed.


(** C2 as stated: the input ["a\0b\n\n"] has the one paragraph
    ["a\0b"], and what the pipeline hands to the matcher for it is the C
    string ["a"].  Whatever the matcher, the found flag of the run and
    what is printed are its verdict on ["a"]; a matcher that looks for
    the byte [b], which the paragraph holds, finds nothing. *)
Lemma nul_paragraph_not_tested_whole :
  paragraphs nul_input = [[x61; NUL; x62]] /\
  (forall regex : list byte -> bool,
      exists cf,
        main nul_input regex 1 short_schedule = Some cf /\
        map c_str (candidates (out cf)) = [[x61]] /\
        map c_str (candidates (out cf)) <> paragraphs nul_input /\
        map log_found (logfile cf) = [regex [x61]] /\
        stdout (out cf) = if regex [x61] then [x61; NL; NL] else []) /\
  (exists cf,
      main nul_input (existsb (Byte.eqb x62)) 1 short_schedule = Some cf /\
      existsb (Byte.eqb x62) [x61; NUL; x62] = true /\
      map log_found (logfile cf) = [false] /\
      stdout (out cf) = []).
Proof.
  split; [reflexivity|]. split.
  - intro regex. eexists. split; [vm_compute; reflexivity|].
    split; [vm_compute; destruct (regex [x61]); reflexivity|].
    split; [vm_compute; destruct (regex [x61]); discriminate|].
    split; vm_compute; destruct (regex [x61]); reflexivity.
  - eexists. split; [vm_compute; reflexivity|].
    split; [reflexivity|]. split; reflexivity.
Qed.


(** C7 as stated: the record ["a\0b"] matches the pattern [a] and is
    written as ["a\n\n"], not verbatim: [printf "%s"] stops at the NUL
    byte. *)
Lemma nul_record_not_verbatim :
  exists cf,
    main nul_input (word_match [x61]) 1 short_schedule = Some cf /\
    candidates (out cf) = [[x61; NUL; x62]] /\
    word_match [x61] (c_str [x61; NUL; x62]) = true /\
    stdout (out cf) = [x61; NL; NL] /\
    stdout (out cf) <> [x61; NUL; x62] ++ [NL; NL].
Proof.
  eexists. split; [vm_compute; reflexivity|].
  split; [reflexivity|]. split; [reflexivity|]. split; [reflexivity|].
  discriminate.
Qed.

(** ** The theorems at concrete inputs *)

Lemma two_chunk_input_fits :
  (Z.of_nat (length two_chunk_input) <= LONG_MAX)%Z.
Proof. vm_compute. discriminate. Defined.

Lemma tail_input_fits : (Z.of_nat (length tail_input) <= LONG_MAX)%Z.
Proof. vm_compute. discriminate. Defined.


(** One turn on ["a\n\nb"] leaves ["b"]. *)
Lemma process_paragraphs_terminates_witness :
  process_paragraphs_body scenario_regex [x61; NL; NL; x62]
    (mkOutput [] []) false
  = Some ([x62], mkOutput [] [[x61]], false) /\
  length [x62] + 2 <= length [x61; NL; NL; x62].
Proof.
  split; [reflexivity|].
  apply (proj1 (process_paragraphs_terminates scenario_regex
                  [x61; NL; NL; x62] (mkOutput [] []) false)
           [x62] (mkOutput [] [[x61]]) false).
  reflexivity.
Defined.

(** The two log rows of the two-chunk input. *)
Lemma log_offsets_contiguous_witness :
  exists s e1 e2,
    run two_chunk_input scenario_regex (system_init 1) one_worker_schedule
    = Some s /\
    nth_error (logfile (coord s)) 0 = Some e1 /\
    nth_error (logfile (coord s)) 1 = Some e2 /\
    log_file_offset e2
    = (log_file_offset e1 + Z.of_nat (log_bytes_read e1))%Z /\
    (log_file_offset e1 < log_file_offset e2)%Z.
Proof.
  destruct (run two_chunk_input scenario_regex (system_init 1)
              one_worker_schedule) as [s|] eqn:Hrun;
    [|vm_compute in Hrun; discriminate].
  destruct (nth_error (logfile (coord s)) 0) as [e1|] eqn:H1;
    [|vm_compute in Hrun; injection Hrun as <-; discriminate].
  destruct (nth_error (logfile (coord s)) 1) as [e2|] eqn:H2;
    [|vm_compute in Hrun; injection Hrun as <-; discriminate].
  exists s, e1, e2. split; [reflexivity|].
  split; [exact H1|]. split; [exact H2|].
  apply (log_offsets_contiguous two_chunk_input scenario_regex 1
           two_chunk_input_fits one_worker_schedule s 0 e1 e2 Hrun).
  left. split; assumption.
Defined.

Lemma scenario_input_no_nul : Forall (fun b => b <> NUL) scenario_input.
Proof. repeat (constructor; [discriminate|]). constructor. Defined.

(** The scenario input, whole and cut in the middle of its paragraphs and
    between the two bytes of a delimiter pair. *)
Lemma every_paragraph_extracted_once_witness :
  exists cf,
    main scenario_input scenario_regex 2 scenario_schedule = Some cf /\
    candidates (out cf) = paragraphs scenario_input /\
    map c_str (candidates (out cf)) = paragraphs scenario_input /\
    candidates
      (out (main_epilogue scenario_regex
              (consume_all scenario_regex
                 [bytes_of "alpha be"%string;
                  bytes_of "ta"%string ++ [NL];
                  [NL] ++ bytes_of "gamma alpha"%string ++ [NL; NL]
                  ++ bytes_of "del"%string;
                  bytes_of "ta"%string ++ [NL]]
                 coordinator_init)))
    = paragraphs scenario_input.
Proof.
  destruct (main scenario_input scenario_regex 2 scenario_schedule)
    as [cf|] eqn:E; [|vm_compute in E; discriminate].
  exists cf. split; [reflexivity|].
  destruct (every_paragraph_extracted_once scenario_input
              scenario_regex 2 scenario_input_fits
              scenario_schedule cf scenario_input_no_nul E)
    as (H1 & H2 & _ & H4).
  split; [exact H1|]. split; [exact H2|].
  apply H4. reflexivity.
Defined.

(** The only range of the scenario ends at the last line delimiter. *)
Lemma assigned_range_ends_at_delimiter_or_window_witness :
  exists s',
    system_step scenario_input scenario_regex (system_init 2) (mkEvent 1 0)
    = Some s' /\
    nth_error (workers s') 1 = Some (Assigned 0 31) /\
    0 < 31 <= BUFFER_SIZE.
Proof.
  destruct (system_step scenario_input scenario_regex (system_init 2)
              (mkEvent 1 0)) as [s'|] eqn:Hstep;
    [|vm_compute in Hstep; discriminate].
  assert (Hw : nth_error (workers s') 1 = Some (Assigned 0 31))
    by (vm_compute in Hstep; injection Hstep as <-; reflexivity).
  exists s'. split; [reflexivity|]. split; [exact Hw|].
  exact (proj1 (proj2
    (assigned_range_ends_at_delimiter_or_window scenario_input
       scenario_regex 2 scenario_input_fits [] (system_init 2) s'
       (mkEvent 1 0) 0 31 eq_refl Hstep eq_refl Hw))).
Defined.

Lemma scenario_alpha_witness :
  exists cf,
    main scenario_input scenario_regex 2 scenario_schedule = Some cf /\
    exists pid elapsed, logfile cf = [mkLog pid 0 31 elapsed true].
Proof.
  destruct (main scenario_input scenario_regex 2 scenario_schedule)
    as [cf|] eqn:E; [|vm_compute in E; discriminate].
  exists cf. split; [reflexivity|].
  exact (proj2 (proj2 (proj2 (proj2 (scenario_alpha scenario_schedule cf E))))).
Defined.


Lemma stdout_records_verbatim_witness :
  exists cf recs rem,
    main scenario_input scenario_regex 2 scenario_schedule = Some cf /\
    extracts scenario_input recs rem /\
    stdout (out cf)
    = concat (map (fun r => r ++ [NL; NL]) (filter scenario_regex recs))
      ++ match rem with
         | [] => []
         | _ :: _ =>
             if scenario_regex rem
             then rem ++ (if ends_with_nl rem then [] else [NL])
             else []
         end.
Proof.
  destruct (main scenario_input scenario_regex 2 scenario_schedule)
    as [cf|] eqn:E; [|vm_compute in E; discriminate].
  destruct (stdout_records_verbatim scenario_input scenario_regex 2
              scenario_input_fits scenario_schedule cf
              scenario_input_no_nul E)
    as (recs & rem & Hex & _ & _ & Hout & _).
  exists cf, recs, rem. split; [reflexivity|]. split; assumption.
Defined.


(** On ["alpha"] the only match is found by the terminal flush: it is
    printed, and the one log row has [found] 0. *)
Lemma log_has_one_row_per_chunk_witness :
  exists cf,
    main tail_input scenario_regex 1 short_schedule = Some cf /\
    length (logfile cf)
    = results_read tail_input scenario_regex (system_init 1) short_schedule
    /\ logfile cf = [mkLog 0 0 5 5 false]
    /\ stdout (out cf) = tail_input ++ [NL].
Proof.
  destruct (main tail_input scenario_regex 1 short_schedule)
    as [cf|] eqn:E; [|vm_compute in E; discriminate].
  exists cf. split; [reflexivity|].
  split.
  - exact (proj1 (log_has_one_row_per_chunk tail_input scenario_regex 1
                    tail_input_fits short_schedule cf E)).
  - vm_compute in E. injection E as <-. split; reflexivity.
Defined.

(** * Further properties of the code *)

(** ** [find_double_newline] *)

Lemma find_double_newline_from_spec (l : list byte) (i : nat) :
  (find_double_newline_from i l = (-1)%Z /\
   forall k, k + 1 < length l ->
             ~ (nth k l NUL = NL /\ nth (k + 1) l NUL = NL))
  \/
  (exists p,
      find_double_newline_from i l = Z.of_nat (i + p) /\
      p + 1 < length l /\
      nth p l NUL = NL /\ nth (p + 1) l NUL = NL /\
      forall k, k < p -> ~ (nth k l NUL = NL /\ nth (k + 1) l NUL = NL)).
Proof.
  revert i. induction l as [|a l IH]; intro i.
  - left. split; [reflexivity|]. simpl. intros; lia.
  - destruct l as [|b l].
    + left. split; [reflexivity|]. simpl. intros; lia.
    + change (find_double_newline_from i (a :: b :: l))
        with (if is_nl a && is_nl b then Z.of_nat i
              else find_double_newline_from (S i) (b :: l)).
      destruct (is_nl a && is_nl b) eqn:E.
      * apply andb_true_iff in E as [Ea Eb].
        apply is_nl_true in Ea, Eb. right. exists 0.
        rewrite Nat.add_0_r. split; [reflexivity|].
        split; [simpl; lia|]. split; [exact Ea|]. split; [exact Eb|].
        intros; lia.
      * assert (Hab : ~ (a = NL /\ b = NL)).
        { intros [Ha Hb]. apply is_nl_true in Ha, Hb.
          rewrite Ha, Hb in E. discriminate. }
        destruct (IH (S i)) as [[Hm Hn]|(p & Hr & Hp & H1 & H2 & Hn)].
        -- left. split; [exact Hm|]. intros k Hk.
           destruct k as [|k]; [exact Hab|].
           apply (Hn k). simpl in *. lia.
        -- right. exists (S p). split; [rewrite Hr; f_equal; lia|].
           split; [simpl in *; lia|]. split; [exact H1|].
           split; [exact H2|].
           intros k Hk. destruct k as [|k]; [exact Hab|].
           apply (Hn k). lia.
Qed.

(** X1. [find_double_newline (data, len)] on a buffer of at least [len]
    bytes returns [-1] exactly when no two adjacent bytes among the first
    [len] are both line delimiters; otherwise it returns the index of the
    first such pair, which lies wholly inside the first [len] bytes. *)
Theorem find_double_newline_first_pair (data : list byte) (len : nat) :
  len <= length data ->
  (find_double_newline data len = (-1)%Z /\
   forall k, k + 1 < len ->
             ~ (nth k data NUL = NL /\ nth (k + 1) data NUL = NL))
  \/
  (exists p,
      find_double_newline data len = Z.of_nat p /\
      p + 1 < len /\
      nth p data NUL = NL /\ nth (p + 1) data NUL = NL /\
      forall k, k < p ->
                ~ (nth k data NUL = NL /\ nth (k + 1) data NUL = NL)).
Proof.
  intro Hlen. unfold find_double_newline.
  assert (Hl : length (firstn len data) = len)
    by (now apply firstn_length_le).
  assert (Hnth : forall k, k < len ->
                           nth k (firstn len data) NUL = nth k data NUL).
  { intros k Hk. now rewrite nth_firstn, (proj2 (Nat.ltb_lt _ _) Hk). }
  destruct (find_double_newline_from_spec (firstn len data) 0)
    as [[Hm Hn]|(p & Hr & Hp & H1 & H2 & Hn)].
  - left. split; [exact Hm|]. intros k Hk.
    rewrite <- !Hnth by lia. apply Hn. lia.
  - right. exists p. rewrite Hl in Hp.
    split; [exact Hr|]. split; [exact Hp|].
    rewrite <- !Hnth by lia. split; [exact H1|]. split; [exact H2|].
    intros k Hk. rewrite <- !Hnth by lia. now apply Hn.
Qed.

Lemma find_double_newline_first_pair_witness :
  exists p,
    find_double_newline [x61; NL; NL; x62; NL; NL] 6 = Z.of_nat p /\
    p + 1 < 6 /\
    nth p [x61; NL; NL; x62; NL; NL] NUL = NL.
Proof.
  destruct (find_double_newline_first_pair [x61; NL; NL; x62; NL; NL] 6
              (Nat.le_refl _)) as [[Hm _]|(p & Hr & Hp & H1 & _)].
  - vm_compute in Hm. discriminate.
  - exists p. auto.
Defined.

(** ** The growable buffer *)

(** X2. Appending and consuming compose as on a queue of bytes: what was
    appended is what is left once the old contents are consumed;
    consuming [a] and then [b] bytes is consuming [a + b]; consuming
    [n] bytes takes exactly the first [n] off, or empties the buffer
    when it has no more than [n]. *)
Theorem string_buffer_append_consume (buf : StringBuffer)
    (data : list byte) (len a b n : nat) :
  string_buffer_consume (string_buffer_append buf data len) (length buf)
  = firstn len data /\
  length (string_buffer_append buf data len)
  = length buf + Nat.min len (length data) /\
  string_buffer_consume (string_buffer_consume buf a) b
  = string_buffer_consume buf (a + b) /\
  buf = firstn n buf ++ string_buffer_consume buf n /\
  length (string_buffer_consume buf n) = length buf - n.
Proof.
  rewrite !string_buffer_consume_skipn. unfold string_buffer_append.
  split; [|split; [|split; [|split]]].
  - rewrite skipn_app, Nat.sub_diag, skipn_all. reflexivity.
  - rewrite length_app, length_firstn. reflexivity.
  - rewrite skipn_skipn. f_equal. lia.
  - symmetry. apply firstn_skipn.
  - apply length_skipn.
Qed.

(** ** [process_paragraphs] as a function *)

Lemma first_pair_record_clean (record rest : list byte) :
  find_double_newline_from 0 (record ++ NL :: NL :: rest)
    = Z.of_nat (length record) ->
  find_double_newline_from 0 record = (-1)%Z.
Proof.
  intro H.
  destruct (find_double_newline_from_range record 0) as [Hm|Hr];
    [exact Hm|].
  rewrite find_double_newline_from_app in H by lia. lia.
Qed.

Lemma extracts_records_clean (carry : StringBuffer)
    (recs : list (list byte)) (rem : StringBuffer) :
  extracts carry recs rem ->
  Forall (fun r => find_double_newline_from 0 r = (-1)%Z) recs.
Proof.
  induction 1 as [carry Hn | record rest recs rem Hf Hex IH];
    constructor; [|exact IH].
  now apply (first_pair_record_clean record rest).
Qed.

Section ExtractorContract.

Variable regex : list byte -> bool.

(** X3. [process_paragraphs] loses and invents no byte: the records it
    hands to the matcher during a call, each followed by the two
    delimiter bytes it consumed with it, and then what it leaves in the
    buffer, are the buffer it was given.  No record holds a delimiter
    pair or ends with a line delimiter. *)
Theorem process_paragraphs_partitions (carry : StringBuffer) (o : Output) :
  exists recs,
    candidates (snd (fst (process_paragraphs regex carry o)))
    = candidates o ++ recs /\
    carry = concat (map (fun r => r ++ [NL; NL]) recs)
            ++ fst (fst (process_paragraphs regex carry o)) /\
    Forall (fun r => find_double_newline r (length r) = (-1)%Z /\
                     ends_with_nl r = false) recs.
Proof.
  destruct (extracts_total carry) as (recs & rem & Hex).
  rewrite (process_paragraphs_extracts regex _ _ _ o Hex). simpl.
  exists recs. split; [apply candidates_emit|].
  split; [now apply extracts_rebuild|].
  pose proof (extracts_records_clean _ _ _ Hex) as H1.
  pose proof (extracts_records_no_trailing_nl _ _ _ Hex) as H2.
  rewrite Forall_forall in *. intros r Hr.
  rewrite find_double_newline_all. auto.
Qed.

(** X4. After [process_paragraphs] the buffer holds no delimiter pair,
    so a second call right after cuts nothing: it returns 0 and leaves
    buffer and output as they are. *)
Theorem process_paragraphs_idempotent (carry : StringBuffer) (o : Output) :
  let '(carry1, o1, _) := process_paragraphs regex carry o in
  find_double_newline carry1 (length carry1) = (-1)%Z /\
  process_paragraphs regex carry1 o1 = (carry1, o1, false).
Proof.
  destruct (extracts_total carry) as (recs & rem & Hex).
  rewrite (process_paragraphs_extracts regex _ _ _ o Hex).
  pose proof (extracts_remainder _ _ _ Hex) as Hn.
  split; [now rewrite find_double_newline_all|].
  now rewrite (process_paragraphs_extracts regex _ _ _ _
                 (extracts_done rem Hn)).
Qed.

(** X5. The value [process_paragraphs] returns is 1 exactly when one of
    the records cut during the call matches, and standard output grows
    by exactly the matching records, in order, each printed as a C
    string and followed by two line delimiters; earlier output is never
    touched. *)
Theorem process_paragraphs_found_and_output (carry : StringBuffer)
    (o : Output) :
  exists recs,
    candidates (snd (fst (process_paragraphs regex carry o)))
    = candidates o ++ recs /\
    snd (process_paragraphs regex carry o)
    = existsb (fun r => regex (c_str r)) recs /\
    stdout (snd (fst (process_paragraphs regex carry o)))
    = stdout o
      ++ concat (map (fun r => c_str r ++ [NL; NL])
                   (filter (fun r => regex (c_str r)) recs)).
Proof.
  destruct (extracts_total carry) as (recs & rem & Hex).
  rewrite (process_paragraphs_extracts regex _ _ _ o Hex). simpl.
  exists recs. split; [apply candidates_emit|].
  split; [reflexivity|]. apply stdout_emit.
Qed.

End ExtractorContract.

(** ** The worker's report *)

(** X6. What a worker reports for an assignment is consistent: the
    header carries its id and the offset it was given, [bytes_read] and
    [text_length] are both the number of payload bytes, which is at most
    what was asked for; the payload is the file from that offset on; and
    the report is cut just after the last line delimiter of the read
    (no delimiter is left in the part of the read that is dropped), or
    is the whole read. *)
Theorem child_result_consistent (file : list byte) (id : nat) (offset : Z)
    (bytes : nat) (elapsed : Z) (payload : ResultPayload)
    (txt : list byte) :
  child_result file id offset bytes elapsed = Some (payload, txt) ->
  p_process_id payload = id /\ p_file_offset payload = offset /\
  p_elapsed_time payload = elapsed /\
  p_bytes_read payload = length txt /\
  p_text_length payload = length txt /\
  length txt <= bytes /\
  txt = slice file offset (length txt) /\
  (txt = slice file offset bytes \/
   (0 < length txt /\ nth (length txt - 1) txt NUL = NL)) /\
  forall k, length txt <= k < length (slice file offset bytes) ->
            nth k (slice file offset bytes) NUL <> NL.
Proof.
  unfold child_result, fread_at.
  destruct (offset <? 0)%Z; [discriminate|].
  fold (slice file offset bytes).
  set (buffer := slice file offset bytes).
  set (read_bytes := length buffer).
  intro H. injection H as <- <-. simpl.
  pose proof (child_usable_le buffer read_bytes) as Hle.
  assert (Hread : read_bytes <= bytes)
    by (unfold read_bytes, buffer; rewrite length_slice; lia).
  assert (Hlen : length (firstn (child_usable buffer read_bytes) buffer)
                 = child_usable buffer read_bytes)
    by (apply firstn_length_le; exact Hle).
  rewrite Hlen.
  split; [reflexivity|]. split; [reflexivity|]. split; [reflexivity|].
  split; [reflexivity|]. split; [reflexivity|]. split; [lia|].
  split.
  { symmetry. apply (slice_slice file offset _ bytes). lia. }
  assert (Hu : child_usable buffer read_bytes = child_trim buffer read_bytes).
  { unfold child_usable.
    destruct (child_trim buffer read_bytes =? 0) eqn:E; [|reflexivity].
    apply Nat.eqb_eq in E.
    destruct (0 <? read_bytes) eqn:E0; [|reflexivity].
    apply Nat.ltb_lt in E0.
    pose proof (child_trim_positive buffer read_bytes E0). lia. }
  rewrite Hu in *. unfold child_trim in *.
  destruct (0 <? read_bytes) eqn:E0.
  - destruct (scan_last_newline_spec buffer read_bytes 0)
      as [[Hd Hn]|(Hr & Hnl & Hn)].
    + rewrite Hd in *. simpl in *. split.
      * left. apply firstn_all.
      * intros k Hk. lia.
    + destruct (0 <? scan_last_newline buffer read_bytes 0) eqn:E1;
        [|apply Nat.ltb_ge in E1; lia].
      split.
      * right. split; [lia|].
        rewrite nth_firstn.
        destruct (scan_last_newline buffer read_bytes 0 - 1
                  <? scan_last_newline buffer read_bytes 0) eqn:E2;
          [|apply Nat.ltb_ge in E2; lia].
        now apply is_nl_true.
      * intros k Hk. apply is_nl_false. apply Hn. exact Hk.
  - split; [left; apply firstn_all|]. intros k Hk. lia.
Qed.

Lemma child_result_consistent_witness :
  exists payload txt,
    child_result scenario_input 1 0 20 7 = Some (payload, txt) /\
    p_bytes_read payload = length txt /\ length txt <= 20.
Proof.
  destruct (child_result scenario_input 1 0 20 7) as [[payload txt]|] eqn:E;
    [|vm_compute in E; discriminate].
  exists payload, txt. split; [reflexivity|].
  destruct (child_result_consistent scenario_input 1 0 20 7 payload txt E)
    as (_ & _ & _ & H1 & _ & H2 & _).
  split; assumption.
Defined.

(** X7. The two defensive resets are never taken: in the worker, the
    trimming step never gives zero bytes for a non-empty read, so the
    fall-back of line 256 changes nothing; in the distributor, the byte
    count computed from a non-empty window is never zero, so the reset
    of line 405 changes nothing. *)
Theorem zero_resets_never_taken (buffer : list byte) (read_bytes : nat) :
  child_usable buffer read_bytes = child_trim buffer read_bytes /\
  (0 < read_bytes ->
   let last_newline := scan_last_newline buffer read_bytes read_bytes in
   (if last_newline <? read_bytes then last_newline else read_bytes) <> 0
   /\ distributor_bytes buffer read_bytes
      = (if last_newline <? read_bytes then last_newline else read_bytes)).
Proof.
  split.
  - unfold child_usable.
    destruct (child_trim buffer read_bytes =? 0) eqn:E; [|reflexivity].
    apply Nat.eqb_eq in E.
    destruct (0 <? read_bytes) eqn:E0; [|reflexivity].
    apply Nat.ltb_lt in E0.
    pose proof (child_trim_positive buffer read_bytes E0). lia.
  - intros Hpos last_newline.
    assert (Hne : (if last_newline <? read_bytes then last_newline
                   else read_bytes) <> 0).
    { unfold last_newline.
      destruct (scan_last_newline_spec buffer read_bytes read_bytes)
        as [[Hd _]|(Hr & _)].
      - rewrite Hd, Nat.ltb_irrefl. lia.
      - destruct (_ <? read_bytes); lia. }
    split; [exact Hne|].
    unfold distributor_bytes. fold last_newline.
    destruct ((if last_newline <? read_bytes then last_newline
               else read_bytes) =? 0) eqn:E; [|reflexivity].
    apply Nat.eqb_eq in E. contradiction.
Qed.

Lemma zero_resets_never_taken_witness :
  distributor_bytes [NL; x61] 2 = 1.
Proof.
  destruct (zero_resets_never_taken [NL; x61] 2) as [_ H].
  destruct (H (Nat.lt_0_succ _)) as [_ ->]. reflexivity.
Defined.

(** X8. Distributor and worker agree: when [handle_request] answers a
    request with a range, the worker that reads that range reports all
    of it, the same offset and the same number of bytes, and the assign
    cursor is at the end of that range; so consecutive ranges leave no
    gap and do not overlap. *)
Theorem assigned_range_reported_whole (file : list byte) (i : nat)
    (c c' : Coordinator) (off : Z) (n : nat) (elapsed : Z) :
  (0 <= next_offset_to_assign c)%Z ->
  (Z.of_nat (length file) <= LONG_MAX)%Z ->
  handle_request file i c = Some (c', ReplyAssign off n) ->
  off = next_offset_to_assign c /\
  next_offset_to_assign c' = (off + Z.of_nat n)%Z /\
  0 < n <= BUFFER_SIZE /\
  child_result file i off n elapsed
  = Some (mkPayload i off n elapsed n, slice file off n) /\
  length (slice file off n) = n.
Proof.
  intros Hoff Hfits. unfold handle_request, send_end.
  destruct (finished_assignments c).
  { destruct (negb (nth i (end_sent c) false)); discriminate. }
  rewrite fread_at_slice by exact Hoff.
  destruct (length (slice file (next_offset_to_assign c) BUFFER_SIZE) =? 0)
    eqn:E.
  { simpl. destruct (negb (nth i (end_sent c) false)); discriminate. }
  intro H. injection H as <- <- <-. simpl.
  assert (Hw : distributor_bytes
                 (slice file (next_offset_to_assign c) BUFFER_SIZE)
                 (length (slice file (next_offset_to_assign c) BUFFER_SIZE))
               = window_bytes file (next_offset_to_assign c)).
  { unfold window_bytes. now rewrite E. }
  rewrite Hw.
  assert (Hpos : 0 < window_bytes file (next_offset_to_assign c)).
  { apply window_bytes_positive. apply Nat.eqb_neq in E.
    rewrite length_slice in E. lia. }
  pose proof (window_bytes_le file (next_offset_to_assign c)) as Hle.
  split; [reflexivity|].
  split; [apply wrap_long_small; lia|].
  split; [lia|].
  split; [now apply child_result_window|apply slice_window].
Qed.

Lemma assigned_range_reported_whole_witness :
  exists c',
    handle_request scenario_input 0 coordinator_init
    = Some (c', ReplyAssign 0 31) /\
    child_result scenario_input 0 0 31 9
    = Some (mkPayload 0 0 31 9 31, slice scenario_input 0 31).
Proof.
  destruct (handle_request scenario_input 0 coordinator_init)
    as [[c' r]|] eqn:E; [|vm_compute in E; discriminate].
  assert (Hr : r = ReplyAssign 0 31)
    by (vm_compute in E; injection E as _ <-; reflexivity).
  subst r. exists c'. split; [reflexivity|].
  destruct (assigned_range_reported_whole scenario_input 0
              coordinator_init c' 0 31 9 (Z.le_refl 0)
              scenario_input_fits E) as (_ & _ & _ & H & _).
  exact H.
Defined.

(** ** The pending list *)

(** X9. [insert_chunk_sorted] adds the node and nothing else, and keeps
    a list that is in ascending order of offset in ascending order. *)
Theorem insert_chunk_sorted_ordered (head : list ChunkNode)
    (node : ChunkNode) :
  StronglySorted offset_le head ->
  StronglySorted offset_le (insert_chunk_sorted head node) /\
  Permutation (insert_chunk_sorted head node) (node :: head) /\
  length (insert_chunk_sorted head node) = S (length head).
Proof.
  intro Hs. split; [now apply insert_chunk_sorted_sorted|].
  split; [apply insert_chunk_sorted_perm|apply length_insert_chunk_sorted].
Qed.

Lemma insert_chunk_sorted_ordered_witness :
  StronglySorted offset_le
    (insert_chunk_sorted [chunk_of_text [x61]] (mkChunk 0 5 1 0 1 [x62])).
Proof.
  apply insert_chunk_sorted_ordered.
  constructor; constructor.
Defined.

(** X10. Insert and pop: a node inserted with an offset below every
    offset in the list is the one [pop_expected_chunk] returns for that
    offset, and the list is then as before; whereas inserting a node
    with an offset above the front of the list leaves the front in
    place, so that popping an offset other than the front's returns
    nothing. *)
Theorem insert_then_pop (head : list ChunkNode) (node : ChunkNode)
    (expected : Z) :
  (Forall (fun ch => (file_offset node < file_offset ch)%Z) head ->
   pop_expected_chunk (insert_chunk_sorted head node) (file_offset node)
   = Some (node, head)) /\
  (forall h rest,
      head = h :: rest ->
      (file_offset h <= file_offset node)%Z ->
      expected <> file_offset h ->
      pop_expected_chunk (insert_chunk_sorted head node) expected = None).
Proof.
  split.
  - intro Hall. apply pop_expected_chunk_some. split; [|reflexivity].
    destruct head as [|h rest]; [reflexivity|].
    inversion Hall as [|? ? Hh _]; subst. simpl.
    destruct (file_offset node <? file_offset h)%Z eqn:E; [reflexivity|].
    apply Z.ltb_ge in E. lia.
  - intros h rest -> Hle Hne. simpl.
    destruct (file_offset node <? file_offset h)%Z eqn:E;
      [apply Z.ltb_lt in E; lia|].
    simpl. destruct (file_offset h =? expected)%Z eqn:E1; [|reflexivity].
    apply Z.eqb_eq in E1. congruence.
Qed.

Lemma insert_then_pop_witness :
  pop_expected_chunk
    (insert_chunk_sorted [mkChunk 0 5 1 0 1 [x62]] (chunk_of_text [x61])) 0
  = Some (chunk_of_text [x61], [mkChunk 0 5 1 0 1 [x62]]).
Proof.
  apply (proj1 (insert_then_pop [mkChunk 0 5 1 0 1 [x62]]
                  (chunk_of_text [x61]) 0)).
  constructor; [simpl; lia|constructor].
Defined.

(** ** End flags, progress and termination of the dispatch loop *)

Lemma nth_array_set {A : Type} (a : list A) (i j : nat) (v d : A) :
  nth j (array_set a i v) d
  = if (j =? i) && (i <? length a) then v else nth j a d.
Proof.
  revert i j. induction a as [|x a IH]; intros i j.
  - simpl. rewrite andb_false_r. reflexivity.
  - destruct i, j; simpl; try reflexivity.
    rewrite IH. reflexivity.
Qed.

Lemma list_sum_array_set {A : Type} (f : A -> nat) (ws : list A) (i : nat)
    (w w' : A) :
  nth_error ws i = Some w ->
  list_sum (map f (array_set ws i w')) + f w
  = list_sum (map f ws) + f w'.
Proof.
  revert i. induction ws as [|x ws IH]; intros i H.
  - destruct i; discriminate.
  - destruct i; simpl in *.
    + injection H as ->. lia.
    + specialize (IH _ H). lia.
Qed.

Lemma list_sum_weight_repeat (n : nat) :
  list_sum (map worker_weight (repeat Requesting n)) = 2 * n.
Proof. induction n; simpl in *; lia. Qed.

Lemma drain_loop_end_sent (regex : list byte -> bool) (fuel : nat)
    (c c' : Coordinator) :
  drain_loop regex fuel c = Some c' -> end_sent c' = end_sent c.
Proof.
  revert c. induction fuel as [|fuel IH]; intro c; cbn [drain_loop];
    destruct (pop_expected_chunk (pending_chunks c)
                (next_offset_to_process c)) as [[ready head]|];
    try discriminate; try (intro H; injection H as <-; reflexivity).
  intro H. rewrite (IH _ H).
  now destruct (consume_chunk_fields regex ready head c)
    as (_ & _ & _ & -> & _).
Qed.

Lemma handle_result_end_sent (regex : list byte -> bool)
    (payload : ResultPayload) (txt : list byte) (c : Coordinator) :
  end_sent (handle_result regex payload txt c) = end_sent c.
Proof.
  unfold handle_result, drain_pending.
  set (c1 := mkCoordinator _ _ _ _ _ _ _ _ _).
  destruct (drain_loop regex (length (pending_chunks c1)) c1) as [c'|] eqn:E;
    [|reflexivity].
  now rewrite (drain_loop_end_sent _ _ _ _ E).
Qed.

(** A request from a worker that was not sent the end flag is answered:
    with the end flag, which is then recorded, or with a range. *)
Lemma handle_request_reply (file : list byte) (i : nat)
    (c c' : Coordinator) (r : Reply) :
  nth i (end_sent c) false = false ->
  handle_request file i c = Some (c', r) ->
  (r = ReplyEnd /\ end_sent c' = array_set (end_sent c) i true)
  \/ (exists off n, r = ReplyAssign off n /\ end_sent c' = end_sent c).
Proof.
  intro Hi. unfold handle_request, send_end.
  destruct (finished_assignments c).
  - rewrite Hi. simpl. intro H; injection H as <- <-. auto.
  - destruct (fread_at file (next_offset_to_assign c) BUFFER_SIZE)
      as [tempbuf|]; [|discriminate].
    destruct (length tempbuf =? 0).
    + simpl. rewrite Hi. simpl. intro H; injection H as <- <-. auto.
    + intro H; injection H as <- <-. right. eauto.
Qed.

Lemma forallb_false_nth {A : Type} (f : A -> bool) (l : list A) :
  forallb f l = false ->
  exists i x, nth_error l i = Some x /\ f x = false.
Proof.
  induction l as [|x l IH]; simpl; [discriminate|].
  destruct (f x) eqn:E; simpl.
  - intro H. destruct (IH H) as (i & y & Hi & Hy).
    exists (S i), y. auto.
  - intros _. exists 0, x. auto.
Qed.

Section Progress.

Variable file : list byte.
Variable regex : list byte -> bool.
Variable num_procs : nat.
Hypothesis file_fits : (Z.of_nat (length file) <= LONG_MAX)%Z.

Lemma ends_sent_ok_init :
  num_procs <= MAX_PROCESSES -> ends_sent_ok (system_init num_procs).
Proof.
  intro procs_bound. unfold ends_sent_ok, system_init, coordinator_init.
  cbn [coord workers end_sent]. rewrite !repeat_length.
  split; [reflexivity|]. split; [exact procs_bound|].
  intros i w Hw. apply nth_error_In, repeat_spec in Hw. subst w.
  split; [discriminate|].
  cbn [is_leaving]. apply nth_repeat.
Qed.

Lemma ends_sent_ok_step (s s' : System) (e : Event) :
  ends_sent_ok s ->
  system_step file regex s e = Some s' ->
  ends_sent_ok s'.
Proof.
  intros (Hlen & Hws & Hok) Hstep. unfold system_step in Hstep.
  destruct (nth_error (workers s) (ev_worker e)) as [w|] eqn:Hw;
    [|discriminate].
  pose proof (nth_error_lt _ _ _ Hw) as Hlt.
  destruct (Hok _ _ Hw) as [_ Hflag].
  assert (Hother :
            forall w1 es',
              length es' = MAX_PROCESSES ->
              w1 <> Waiting ->
              nth (ev_worker e) es' false = is_leaving w1 ->
              (forall j, j <> ev_worker e ->
                         nth j es' false = nth j (end_sent (coord s)) false) ->
              forall c',
                end_sent c' = es' ->
                ends_sent_ok
                  (mkSystem c' (array_set (workers s) (ev_worker e) w1))).
  { intros w1 es' Hl Hnw Hi Hj c' Hc'. unfold ends_sent_ok. simpl.
    rewrite Hc', array_set_length.
    split; [exact Hl|]. split; [exact Hws|].
    intros j wj Hwj. rewrite array_set_nth_error in Hwj by exact Hlt.
    destruct (j =? ev_worker e) eqn:Ej.
    - apply Nat.eqb_eq in Ej. subst j. injection Hwj as <-. auto.
    - apply Nat.eqb_neq in Ej. rewrite (Hj _ Ej). now apply Hok. }
  destruct w as [|off n| | |]; simpl in Hstep; try discriminate.
  - destruct (handle_request file (ev_worker e) (coord s))
      as [[c' r]|] eqn:Hreq; [|discriminate].
    injection Hstep as <-.
    destruct (handle_request_reply _ _ _ _ _ Hflag Hreq)
      as [[-> He]|(off & n & -> & He)]; simpl.
    + apply (Hother Exiting (array_set (end_sent (coord s))
                               (ev_worker e) true)).
      * now rewrite array_set_length.
      * discriminate.
      * rewrite nth_array_set, Nat.eqb_refl.
        assert (Hb : (ev_worker e <? length (end_sent (coord s))) = true)
          by (apply Nat.ltb_lt; lia).
        now rewrite Hb.
      * intros j Hj. rewrite nth_array_set.
        now rewrite (proj2 (Nat.eqb_neq _ _) Hj).
      * exact He.
    + apply (Hother (Assigned off n) (end_sent (coord s))); auto.
      discriminate.
  - destruct (child_result file (ev_worker e) off n (ev_elapsed e))
      as [[payload txt]|]; [|discriminate].
    simpl in Hstep. injection Hstep as <-.
    apply (Hother Requesting (end_sent (coord s))); auto.
    + discriminate.
    + apply handle_result_end_sent.
  - injection Hstep as <-.
    apply (Hother Closed (end_sent (coord s))); auto. discriminate.
Qed.

Lemma ends_sent_ok_run (es : list Event) (s s' : System) :
  ends_sent_ok s -> run file regex s es = Some s' -> ends_sent_ok s'.
Proof.
  revert s. induction es as [|e es IH]; intros s Hok; simpl.
  - intro H; injection H as <-. exact Hok.
  - destruct (system_step file regex s e) as [s1|] eqn:E; [|discriminate].
    apply IH. now apply (ends_sent_ok_step s s1 e).
Qed.

(** Every message a worker has in flight can be read and handled. *)
Lemma system_step_enabled (s : System) (i : nat) (w : Worker) (t : Z) :
  invariant file regex num_procs s ->
  nth_error (workers s) i = Some w ->
  w <> Waiting -> w <> Closed ->
  exists s', system_step file regex s (mkEvent i t) = Some s'.
Proof.
  intros Hinv Hw Hnw Hnc. unfold system_step. simpl. rewrite Hw.
  destruct w as [|off n| | |]; try contradiction; simpl.
  - destruct (handle_request_inv file regex file_fits _ i (coord s)
                (inv_coord _ _ _ _ Hinv)) as (c' & r & -> & _).
    eauto.
  - assert (HP : Permutation (flat_map worker_range (workers s))
                   ((off, n)
                    :: flat_map worker_range
                         (array_set (workers s) i Requesting))).
    { pose proof (flat_map_array_set worker_range (workers s) i
                    (Assigned off n) Requesting Hw) as HP.
      simpl in HP. now symmetry. }
    pose proof (coord_inv_perm file regex _ _ _ HP
                  (inv_coord _ _ _ _ Hinv)) as Hc'.
    destruct (handle_result_inv file regex file_fits _ (coord s) i off n t
                Hc') as (payload & txt & -> & _).
    simpl. eauto.
  - eauto.
Qed.

(** Each message read brings the end of the loop nearer. *)
Lemma messages_left_step (s s' : System) (e : Event) :
  invariant file regex num_procs s ->
  system_step file regex s e = Some s' ->
  (messages_left file s' < messages_left file s)%Z.
Proof.
  intros Hinv Hstep.
  destruct (system_step_facts file regex num_procs file_fits s s' e
              Hinv Hstep) as (_ & w & Hw & Hfacts).
  assert (Hs' : workers s'
                = array_set (workers s) (ev_worker e)
                    (match nth_error (workers s') (ev_worker e) with
                     | Some w' => w'
                     | None => w
                     end)).
  { unfold system_step in Hstep. rewrite Hw in Hstep.
    destruct (worker_message file (ev_worker e) w (ev_elapsed e));
      [|discriminate].
    destruct (dispatch regex file (ev_worker e) m (coord s))
      as [[c' r]|]; [|discriminate].
    injection Hstep as <-. simpl.
    rewrite array_set_nth_error by (now apply (nth_error_lt _ _ w)).
    now rewrite Nat.eqb_refl. }
  unfold messages_left. rewrite Hs'.
  set (w' := match nth_error (workers s') (ev_worker e) with
             | Some w' => w'
             | None => w
             end) in *.
  pose proof (list_sum_array_set worker_weight (workers s) (ev_worker e)
                w w' Hw) as Hsum.
  destruct w as [|off n| | |]; try contradiction.
  - destruct Hfacts as (_ & _ & _ & _ & _ & Hcase).
    destruct Hcase as [(Ha & _ & [Hx|Hx])|(n & Hpos & _ & Ha & Hx)];
      unfold w' in *; rewrite Hx in *; simpl in Hsum; lia.
  - destruct Hfacts as (Ha & _ & _ & _ & _ & Hx).
    unfold w' in *; rewrite Hx in *; simpl in Hsum; lia.
  - destruct Hfacts as (Ha & _).
    assert (Hx : w' = Closed).
    { unfold w'. unfold system_step in Hstep. rewrite Hw in Hstep.
      simpl in Hstep. injection Hstep as <-. simpl.
      rewrite array_set_nth_error by (now apply (nth_error_lt _ _ Exiting)).
      now rewrite Nat.eqb_refl. }
    rewrite Hx in *. simpl in Hsum. lia.
Qed.

Lemma messages_left_run (es : list Event) (s s' : System) :
  invariant file regex num_procs s ->
  run file regex s es = Some s' ->
  (messages_left file s' + Z.of_nat (length es) <= messages_left file s)%Z.
Proof.
  revert s. induction es as [|e es IH]; intros s Hinv; simpl length.
  - simpl. intro H; injection H as <-. lia.
  - simpl run.
    destruct (system_step file regex s e) as [s1|] eqn:E; [|discriminate].
    intro Hrun.
    pose proof (messages_left_step s s1 e Hinv E).
    destruct (system_step_facts file regex num_procs file_fits s s1 e
                Hinv E) as (Hinv1 & _).
    specialize (IH s1 Hinv1 Hrun). lia.
Qed.

Lemma messages_left_nonneg (s : System) :
  invariant file regex num_procs s -> (0 <= messages_left file s)%Z.
Proof.
  intro Hinv.
  destruct (coord_inv_bounds file regex _ _ (inv_coord _ _ _ _ Hinv))
    as [_ Hb].
  unfold messages_left. lia.
Qed.

(** From any consistent state some schedule closes every pipe. *)
Lemma run_to_the_end (m : nat) (s : System) :
  (messages_left file s <= Z.of_nat m)%Z ->
  invariant file regex num_procs s ->
  ends_sent_ok s ->
  exists es s',
    run file regex s es = Some s' /\
    forallb is_closed (workers s') = true.
Proof.
  revert s. induction m as [|m IH]; intros s Hm Hinv Hok.
  - destruct (forallb is_closed (workers s)) eqn:Hall.
    + exists [], s. auto.
    + destruct (forallb_false_nth _ _ Hall) as (i & w & Hw & Hc).
      destruct (system_step_enabled s i w 0 Hinv Hw)
        as [s1 Hstep];
        [exact (proj1 (proj2 (proj2 Hok) _ _ Hw))
        |intro; subst w; discriminate|].
      pose proof (messages_left_step s s1 _ Hinv Hstep).
      destruct (system_step_facts file regex num_procs file_fits s s1 _
                  Hinv Hstep) as (Hinv1 & _).
      pose proof (messages_left_nonneg s1 Hinv1). lia.
  - destruct (forallb is_closed (workers s)) eqn:Hall.
    + exists [], s. auto.
    + destruct (forallb_false_nth _ _ Hall) as (i & w & Hw & Hc).
      destruct (system_step_enabled s i w 0 Hinv Hw)
        as [s1 Hstep];
        [exact (proj1 (proj2 (proj2 Hok) _ _ Hw))
        |intro; subst w; discriminate|].
      pose proof (messages_left_step s s1 _ Hinv Hstep).
      destruct (system_step_facts file regex num_procs file_fits s s1 _
                  Hinv Hstep) as (Hinv1 & _).
      destruct (IH s1) as (es & s' & Hrun & Hcl);
        [lia|exact Hinv1|exact (ends_sent_ok_step s s1 _ Hok Hstep)|].
      exists (mkEvent i 0 :: es), s'. simpl. rewrite Hstep. auto.
Qed.

End Progress.

Lemma chain_total (file : list byte) (log : list LogEntry) (a b : Z) :
  chain file a (map log_range log) b ->
  b = (a + Z.of_nat (total_bytes log))%Z /\
  Forall (fun e => 0 < log_bytes_read e <= BUFFER_SIZE) log.
Proof.
  revert a. induction log as [|e log IH]; intro a; simpl.
  - intros <-. split; [unfold total_bytes; simpl; lia|constructor].
  - intros (_ & Hn & Hpos & Hc). destruct (IH _ Hc) as [-> Hall].
    split.
    + unfold total_bytes. simpl. lia.
    + constructor; [|exact Hall].
      pose proof (window_bytes_le file a). lia.
Qed.

Lemma chain_offsets_above (file : list byte) (l : list (Z * nat))
    (a b : Z) :
  chain file a l b -> Forall (fun r => (a <= fst r)%Z) l.
Proof.
  intro H. apply Forall_forall. intros [o n] Hin.
  destruct (chain_in file _ _ _ _ _ H Hin) as (Hle & _). exact Hle.
Qed.

Lemma chain_nodup (file : list byte) (l : list (Z * nat)) (a b : Z) :
  chain file a l b -> NoDup (map fst l).
Proof.
  revert a. induction l as [|[o n] l IH]; intro a; simpl.
  - intros _. constructor.
  - intros (-> & _ & Hpos & Hc). constructor; [|now apply (IH _ Hc)].
    intro Hin. apply in_map_iff in Hin. destruct Hin as ([o' n'] & Ho & Hin).
    simpl in Ho. subst o'.
    destruct (chain_in file _ _ _ _ _ Hc Hin) as (Hle & _). lia.
Qed.

Lemma main_epilogue_idle_fields (regex : list byte -> bool)
    (c : Coordinator) :
  pop_expected_chunk (pending_chunks c) (next_offset_to_process c) = None ->
  finished_children (main_epilogue regex c) = finished_children c /\
  finished_assignments (main_epilogue regex c) = finished_assignments c /\
  end_sent (main_epilogue regex c) = end_sent c /\
  carry (main_epilogue regex c) = [].
Proof.
  intro Hd. unfold main_epilogue. rewrite (drain_pending_idle regex _ Hd).
  rewrite flush_remaining_paragraph_spec. simpl. auto.
Qed.

Section LoopProperties.

Variable file : list byte.
Variable regex : list byte -> bool.
Variable num_procs : nat.
Hypothesis file_fits : (Z.of_nat (length file) <= LONG_MAX)%Z.

(** X11. With at most [MAX_PROCESSES] workers, at every point of every
    run the end flag has been sent to exactly the workers whose pipe is
    closing or closed, so it is never sent twice to a worker, and no
    worker is ever left with a request that got no answer. *)
Theorem end_flag_sent_once (es : list Event) (s : System) (i : nat)
    (w : Worker) :
  num_procs <= MAX_PROCESSES ->
  run file regex (system_init num_procs) es = Some s ->
  nth_error (workers s) i = Some w ->
  w <> Waiting /\
  nth i (end_sent (coord s)) false
  = match w with Exiting | Closed => true | _ => false end.
Proof.
  intros Hn Hrun Hw.
  pose proof (ends_sent_ok_run file regex es _ s
                (ends_sent_ok_init num_procs Hn) Hrun) as (_ & _ & Hok).
  exact (Hok i w Hw).
Qed.

(** X12. The dispatch loop never gets stuck and never dies on a
    message: at every point of every run, each worker that has not
    closed its pipe has a message that the coordinator can read and
    handle without a fatal exit; so either the loop is left or some
    message can be handled. *)
Theorem dispatch_loop_never_stuck (es : list Event) (s : System) :
  num_procs <= MAX_PROCESSES ->
  run file regex (system_init num_procs) es = Some s ->
  (forall i w t,
      nth_error (workers s) i = Some w -> w <> Closed ->
      exists s', system_step file regex s (mkEvent i t) = Some s') /\
  (main_loop_exits num_procs s = true \/
   exists e s', system_step file regex s e = Some s').
Proof.
  intros Hn Hrun.
  pose proof (run_invariant file regex num_procs file_fits es _ s
                (invariant_init file regex num_procs) Hrun) as Hinv.
  pose proof (ends_sent_ok_run file regex es _ s
                (ends_sent_ok_init num_procs Hn) Hrun) as (_ & _ & Hok).
  assert (Hen : forall i w t,
             nth_error (workers s) i = Some w -> w <> Closed ->
             exists s', system_step file regex s (mkEvent i t) = Some s').
  { intros i w t Hw Hc.
    apply (system_step_enabled file regex num_procs file_fits s i w t
             Hinv Hw); [exact (proj1 (Hok i w Hw))|exact Hc]. }
  split; [exact Hen|].
  destruct (forallb is_closed (workers s)) eqn:Hall.
  - left. unfold main_loop_exits. rewrite Hall. apply orb_true_r.
  - right. destruct (forallb_false_nth _ _ Hall) as (i & w & Hw & Hc).
    destruct (Hen i w 0%Z Hw) as [s' Hs'];
      [intro; subst w; discriminate|].
    eauto.
Qed.

(** X13. Every run is short: a schedule the dispatch loop follows reads
    at most two messages per byte of the file and two per worker, so
    the loop ends whatever the order in which the workers are served. *)
Theorem dispatch_loop_bounded (es : list Event) (s : System) :
  run file regex (system_init num_procs) es = Some s ->
  length es <= 2 * length file + 2 * num_procs.
Proof.
  intro Hrun.
  pose proof (invariant_init file regex num_procs) as Hinit.
  pose proof (messages_left_run file regex num_procs file_fits es _ s
                Hinit Hrun) as Hm.
  pose proof (run_invariant file regex num_procs file_fits es _ s
                Hinit Hrun) as Hinv.
  pose proof (messages_left_nonneg file regex num_procs s Hinv) as H0.
  unfold messages_left at 2 in Hm.
  unfold system_init, coordinator_init in Hm.
  cbn [coord workers next_offset_to_assign] in Hm.
  rewrite list_sum_weight_repeat in Hm. lia.
Qed.

(** X14. For every input and every number of workers from 1 to
    [MAX_PROCESSES] there is a schedule under which [main] runs to its
    end. *)
Theorem main_can_complete :
  1 <= num_procs <= MAX_PROCESSES ->
  exists es cf, main file regex num_procs es = Some cf.
Proof.
  intros [H1 H2].
  pose proof (invariant_init file regex num_procs) as Hinit.
  pose proof (messages_left_nonneg file regex num_procs _ Hinit) as H0.
  destruct (run_to_the_end file regex num_procs file_fits
              (Z.to_nat (messages_left file (system_init num_procs)))
              (system_init num_procs))
    as (es & s' & Hrun & Hall);
    [lia|exact Hinit|exact (ends_sent_ok_init num_procs H2)|].
  exists es, (main_epilogue regex (coord s')).
  unfold main.
  destruct (num_procs <? 1) eqn:E1; [apply Nat.ltb_lt in E1; lia|].
  destruct (MAX_PROCESSES <? num_procs) eqn:E2;
    [apply Nat.ltb_lt in E2; lia|].
  simpl. rewrite Hrun. unfold main_loop_exits. rewrite Hall.
  now rewrite orb_true_r.
Qed.

(** X15. Coverage: at every point of a run the [bytes_read] of the log
    rows add up to the process cursor, and at the end of a run to the
    length of the file; every row has between 1 and [BUFFER_SIZE]
    bytes. *)
Theorem log_covers_the_file (es : list Event) :
  (forall s,
      run file regex (system_init num_procs) es = Some s ->
      next_offset_to_process (coord s)
      = Z.of_nat (total_bytes (logfile (coord s)))) /\
  (forall cf,
      main file regex num_procs es = Some cf ->
      total_bytes (logfile cf) = length file /\
      Forall (fun e => 0 < log_bytes_read e <= BUFFER_SIZE) (logfile cf)).
Proof.
  split.
  - intros s Hrun.
    pose proof (run_invariant file regex num_procs file_fits es _ s
                  (invariant_init file regex num_procs) Hrun) as Hinv.
    destruct (chain_total file _ _ _
                (ci_log_chain _ _ _ _ (inv_coord _ _ _ _ Hinv)))
      as [-> _]. lia.
  - intros cf H.
    destruct (main_complete file regex num_procs file_fits es cf H)
      as (_ & _ & _ & _ & _ & _ & _ & _ & Hch & _).
    destruct (chain_total file _ _ _ Hch) as [Hsum Hall].
    split; [lia|exact Hall].
Qed.

(** X16. At the end of a run nothing is left over: the carry buffer and
    the pending list are empty, both cursors are at the end of the
    file, the end of the input has been seen and every worker's pipe
    has been counted as closed. *)
Theorem main_leaves_nothing_behind (es : list Event) (cf : Coordinator) :
  main file regex num_procs es = Some cf ->
  carry cf = [] /\ pending_chunks cf = [] /\
  next_offset_to_process cf = Z.of_nat (length file) /\
  next_offset_to_assign cf = Z.of_nat (length file) /\
  finished_assignments cf = true /\
  finished_children cf = num_procs /\
  1 <= num_procs <= MAX_PROCESSES.
Proof.
  intro H.
  destruct (main_complete file regex num_procs file_fits es cf H)
    as (_ & _ & _ & _ & Hca & Hpd & Hp & Ha & _ & _
        & s & Hrun & _ & Hepi & _).
  split; [exact Hca|]. split; [exact Hpd|]. split; [exact Hp|].
  split; [exact Ha|].
  pose proof (run_invariant file regex num_procs file_fits es _ s
                (invariant_init file regex num_procs) Hrun) as Hinv.
  unfold main in H.
  destruct ((num_procs <? 1) || (MAX_PROCESSES <? num_procs)) eqn:Hn;
    [discriminate|].
  apply orb_false_iff in Hn as [Hn1 Hn2].
  apply Nat.ltb_ge in Hn1, Hn2.
  rewrite Hrun in H.
  destruct (main_loop_exits num_procs s) eqn:Hexit; [|discriminate].
  pose proof (main_loop_exits_closed file regex num_procs s Hinv Hexit)
    as Hall.
  destruct (main_epilogue_idle_fields regex (coord s)
              (inv_drained _ _ _ _ Hinv)) as (Hfc & Hfa & _).
  rewrite <- Hepi, Hfc, Hfa.
  split.
  - apply (inv_leaving _ _ _ _ Hinv).
    apply forallb_closed_leaving; [|exact Hall].
    rewrite (inv_workers _ _ _ _ Hinv). lia.
  - split; [|lia].
    rewrite (inv_children _ _ _ _ Hinv), <- (inv_workers _ _ _ _ Hinv).
    clear - Hall. induction (workers s) as [|w ws IH]; [reflexivity|].
    simpl in *. apply andb_true_iff in Hall as [Hw Hall].
    rewrite Hw. simpl. now rewrite IH.
Qed.

End LoopProperties.

(** ** The pending list during a run *)



Section PendingProperties.

Variable file : list byte.
Variable regex : list byte -> bool.
Variable num_procs : nat.
Hypothesis file_fits : (Z.of_nat (length file) <= LONG_MAX)%Z.

Lemma pending_above_cursor (s : System) :
  invariant file regex num_procs s ->
  Forall (fun ch => (next_offset_to_process (coord s) < file_offset ch)%Z)
    (pending_chunks (coord s)).
Proof.
  intros [[Hp (l & Hperm & Hchain) Hs Hck _ _ _ _] Hd _ _ _].
  apply (pop_expected_chunk_none _ _ Hs); [|exact Hd].
  apply Forall_forall. intros ch Hch.
  assert (Hin : In (chunk_range ch) l).
  { eapply Permutation_in; [symmetry; exact Hperm|].
    apply in_or_app. left. now apply in_map. }
  destruct (chain_in file _ _ _ _ _ Hchain Hin) as (? & _). assumption.
Qed.

(** X18. At every point of a run no two ranges, pending or still with a
    worker, start at the same offset; the pending list is in ascending
    order; and every pending chunk lies strictly after the process
    cursor and not beyond the assign cursor, is not empty, and carries
    exactly the bytes of its range of the file. *)
Theorem pending_ranges_distinct (es : list Event) (s : System) :
  run file regex (system_init num_procs) es = Some s ->
  NoDup (map fst (map chunk_range (pending_chunks (coord s))
                  ++ flat_map worker_range (workers s))) /\
  StronglySorted offset_le (pending_chunks (coord s)) /\
  Forall (fun ch =>
            (next_offset_to_process (coord s) < file_offset ch)%Z /\
            (file_offset ch + Z.of_nat (bytes_read ch)
             <= next_offset_to_assign (coord s))%Z /\
            0 < bytes_read ch /\
            text_length ch = bytes_read ch /\
            length (text ch) = bytes_read ch /\
            text ch = slice file (file_offset ch) (bytes_read ch))
    (pending_chunks (coord s)).
Proof.
  intro Hrun.
  pose proof (run_invariant file regex num_procs file_fits es _ s
                (invariant_init file regex num_procs) Hrun) as Hinv.
  destruct (coord_inv_bounds file regex _ _ (inv_coord _ _ _ _ Hinv))
    as [Hb1 Hb2].
  destruct Hinv as [[Hp (l & Hperm & Hchain) Hs Hck _ _ _ _] Hd _ _ _].
  split.
  { eapply Permutation_NoDup;
      [apply Permutation_map; exact Hperm|].
    exact (chain_nodup file _ _ _ Hchain). }
  split; [exact Hs|].
  assert (Hin : forall ch, In ch (pending_chunks (coord s)) ->
                           In (chunk_range ch) l).
  { intros ch Hch. eapply Permutation_in; [symmetry; exact Hperm|].
    apply in_or_app. left. now apply in_map. }
  assert (Hlow : Forall (fun ch => (next_offset_to_process (coord s)
                                    <= file_offset ch)%Z)
                   (pending_chunks (coord s))).
  { apply Forall_forall. intros ch Hch.
    destruct (chain_in file _ _ _ _ _ Hchain (Hin ch Hch)) as (? & _).
    assumption. }
  pose proof (pop_expected_chunk_none _ _ Hs Hlow Hd) as Hgt.
  rewrite Forall_forall in *. intros ch Hch.
  destruct (chain_in file _ _ _ _ _ Hchain (Hin ch Hch))
    as (_ & Hhi & _ & Hpos).
  destruct (Hck ch Hch) as [Htl Htx].
  split; [exact (Hgt ch Hch)|]. split; [exact Hhi|].
  split; [exact Hpos|]. split; [exact Htl|]. split; [|exact Htx].
  rewrite Htx, length_slice. specialize (Hgt ch Hch). lia.
Qed.

(** X19. Reordering: when the result of a range that does not start at
    the process cursor is read, the chunk is put in the pending list
    and nothing is consumed, logged or printed; when the result of the
    range at the process cursor is read, its row is the next one
    written to the log and the process cursor moves past it. *)
Theorem result_out_of_order_is_held (es : list Event) (s s' : System)
    (e : Event) (off : Z) (n : nat) :
  run file regex (system_init num_procs) es = Some s ->
  system_step file regex s e = Some s' ->
  nth_error (workers s) (ev_worker e) = Some (Assigned off n) ->
  (off <> next_offset_to_process (coord s) ->
   next_offset_to_process (coord s') = next_offset_to_process (coord s) /\
   logfile (coord s') = logfile (coord s) /\
   out (coord s') = out (coord s) /\
   carry (coord s') = carry (coord s) /\
   pending_chunks (coord s')
   = insert_chunk_sorted (pending_chunks (coord s))
       (mkChunk (ev_worker e) off n (ev_elapsed e) n (slice file off n)))
  /\
  (off = next_offset_to_process (coord s) ->
   (exists found rows,
       logfile (coord s')
       = logfile (coord s)
         ++ mkLog (ev_worker e) off n (ev_elapsed e) found :: rows) /\
   (off + Z.of_nat n <= next_offset_to_process (coord s'))%Z).
Proof.
  intros Hrun Hstep Hw.
  pose proof (run_invariant file regex num_procs file_fits es _ s
                (invariant_init file regex num_procs) Hrun) as Hinv.
  pose proof (pending_above_cursor s Hinv) as Hgt.
  destruct (system_step_facts file regex num_procs file_fits s s' e
              Hinv Hstep) as (Hinv' & w & Hw0 & Hfacts).
  rewrite Hw in Hw0. injection Hw0 as <-.
  destruct Hfacts as (_ & _ & Hn & Hpos & Hc' & _).
  assert (Hnode : create_chunk
                    (mkPayload (ev_worker e) off n (ev_elapsed e) n)
                    (slice file off n)
                  = mkChunk (ev_worker e) off n (ev_elapsed e) n
                      (slice file off n)).
  { unfold create_chunk. simpl.
    destruct (0 <? n) eqn:E; [|apply Nat.ltb_ge in E; lia].
    f_equal. apply firstn_all2. rewrite length_slice. lia. }
  unfold handle_result in Hc'. rewrite Hnode in Hc'.
  set (node := mkChunk (ev_worker e) off n (ev_elapsed e) n
                 (slice file off n)) in *.
  set (c1 := mkCoordinator _ _ _ _ _ _ _ _ _) in Hc'.
  assert (Hlow : (next_offset_to_process (coord s) <= off)%Z).
  { destruct (inv_coord _ _ _ _ Hinv) as [_ (l & Hperm & Hchain) _ _ _ _ _ _].
    assert (Hin : In (off, n) l).
    { eapply Permutation_in; [symmetry; exact Hperm|].
      apply in_or_app. right.
      clear - Hw. revert Hw. generalize (ev_worker e) as i.
      induction (workers s) as [|x ws IH]; intros i H.
      - destruct i; discriminate.
      - destruct i; simpl in *.
        + injection H as ->. now left.
        + apply in_or_app. right. now apply (IH i). }
    destruct (chain_in file _ _ _ _ _ Hchain Hin) as (? & _). assumption. }
  split.
  - intro Hne.
    assert (Hpop : pop_expected_chunk (pending_chunks c1)
                     (next_offset_to_process c1) = None).
    { unfold c1. simpl.
      destruct (pending_chunks (coord s)) as [|h rest] eqn:Hpd; simpl.
      - destruct (off =? next_offset_to_process (coord s))%Z eqn:E;
          [apply Z.eqb_eq in E; contradiction|reflexivity].
      - inversion Hgt as [|? ? Hh _]; subst.
        destruct (off <? file_offset h)%Z; simpl.
        + destruct (off =? next_offset_to_process (coord s))%Z eqn:E;
            [apply Z.eqb_eq in E; contradiction|reflexivity].
        + destruct (file_offset h =? next_offset_to_process (coord s))%Z
            eqn:E; [apply Z.eqb_eq in E; lia|reflexivity]. }
    rewrite (drain_pending_idle regex c1 Hpop) in Hc'.
    rewrite Hc'. unfold c1. simpl. auto.
  - intro Heq.
    assert (Hins : insert_chunk_sorted (pending_chunks (coord s)) node
                   = node :: pending_chunks (coord s)).
    { destruct (pending_chunks (coord s)) as [|h rest]; [reflexivity|].
      inversion Hgt as [|? ? Hh _]; subst. simpl.
      destruct (next_offset_to_process (coord s) <? file_offset h)%Z eqn:E;
        [reflexivity|apply Z.ltb_ge in E; lia]. }
    assert (Hrows : exists found rows,
               logfile (coord s')
               = logfile (coord s)
                 ++ mkLog (ev_worker e) off n (ev_elapsed e) found :: rows).
    { rewrite Hc'. unfold drain_pending.
      destruct (drain_loop_total regex (length (pending_chunks c1)) c1
                  (Nat.le_refl _)) as [c2 Hd].
      rewrite Hd.
      unfold c1 in Hd at 1. cbn [pending_chunks] in Hd.
      rewrite Hins in Hd. cbn [length drain_loop] in Hd.
      assert (Hpop : pop_expected_chunk (pending_chunks c1)
                       (next_offset_to_process c1)
                     = Some (node, pending_chunks (coord s))).
      { apply pop_expected_chunk_some. unfold c1. simpl.
        split; [exact Hins|exact Heq]. }
      rewrite Hpop in Hd.
      destruct (drain_loop_appends regex _ _ _ Hd) as (rows & Hr).
      destruct (consume_chunk_fields regex node
                  (pending_chunks (coord s)) c1)
        as (_ & _ & _ & _ & _ & found & Hl).
      exists found, rows. rewrite Hr, Hl, <- app_assoc. reflexivity. }
    split; [exact Hrows|].
    destruct Hrows as (found & rows & Hlog).
    pose proof (ci_log_chain _ _ _ _ (inv_coord _ _ _ _ Hinv')) as Hch.
    rewrite Hlog, map_app in Hch.
    assert (Hin : In (off, n)
                    (map log_range (logfile (coord s))
                     ++ map log_range
                          (mkLog (ev_worker e) off n (ev_elapsed e) found
                           :: rows))).
    { apply in_or_app. right. now left. }
    destruct (chain_in file _ _ _ _ _ Hch Hin) as (_ & Hhi & _).
    exact Hhi.
Qed.

End PendingProperties.

(** ** [read_full] and [write_full] *)

Lemma stream_of_carries_on (before tail : list Syscall) :
  forallb carries_on before = true ->
  stream_of (before ++ tail) = stream_of before ++ stream_of tail.
Proof.
  induction before as [|c before IH]; intro H; [reflexivity|].
  cbn [forallb] in H. apply andb_true_iff in H as [Hc H].
  destruct c as [[|b bs]| |]; try discriminate; cbn [app stream_of].
  - rewrite (IH H). now rewrite app_assoc.
  - exact (IH H).
Qed.

Lemma stream_of_stops (before rest : list Syscall) (c : Syscall) :
  forallb carries_on before = true ->
  carries_on c = false ->
  stream_of (before ++ c :: rest) = stream_of before.
Proof.
  intros Hb Hc. rewrite (stream_of_carries_on _ _ Hb).
  destruct c as [[|b bs]| |]; try discriminate; cbn [stream_of];
    apply app_nil_r.
Qed.

(** The calls [read_full] makes. *)
Lemma read_full_calls (script : list Syscall) (bytes : nat)
    (acc : list byte) (r : Z) (buf : list byte) (rest : list Syscall) :
  read_full script bytes acc = Some (r, buf, rest) ->
  (exists before,
      forallb carries_on before = true /\
      length (stream_of before) < bytes /\
      buf = acc ++ stream_of before /\
      ((r = (-1)%Z /\ script = before ++ Failed :: rest) \/
       (r = Z.of_nat (length buf) /\
        script = before ++ Transfer [] :: rest)))
  \/
  (r = Z.of_nat (length acc + bytes) /\
   bytes <= length (stream_of script) /\
   buf = acc ++ firstn bytes (stream_of script) /\
   stream_of rest = skipn bytes (stream_of script)).
Proof.
  revert bytes acc. induction script as [|call script IH]; intros bytes acc.
  - simpl. destruct (bytes =? 0) eqn:E; [|discriminate].
    apply Nat.eqb_eq in E. subst bytes.
    intro H; injection H as <- <- <-. right.
    rewrite app_nil_r, Nat.add_0_r. simpl. auto.
  - cbn [read_full]. destruct (bytes =? 0) eqn:E.
    { apply Nat.eqb_eq in E. subst bytes.
      intro H; injection H as <- <- <-. right.
      rewrite app_nil_r, Nat.add_0_r. simpl.
      split; [reflexivity|]. split; [lia|]. auto. }
    apply Nat.eqb_neq in E.
    destruct call as [bs| |].
    + destruct (length bs =? 0) eqn:Eb.
      * apply Nat.eqb_eq, length_zero_iff_nil in Eb. subst bs.
        intro H; injection H as <- <- <-. left. exists [].
        split; [reflexivity|]. simpl. split; [lia|].
        rewrite app_nil_r. split; [reflexivity|]. right. auto.
      * apply Nat.eqb_neq in Eb.
        assert (Hs : forall tail, stream_of (Transfer bs :: tail)
                     = bs ++ stream_of tail).
        { intro tail. destruct bs; [simpl in Eb; lia|reflexivity]. }
        assert (Hc : carries_on (Transfer bs) = true).
        { destruct bs; [simpl in Eb; lia|reflexivity]. }
        destruct (length bs <=? bytes) eqn:El.
        -- apply Nat.leb_le in El. intro H.
           destruct (IH _ _ H)
             as [(before & Hb & Hlt & -> & Hcase)|(-> & Hle & -> & Hrest)].
           ++ left. exists (Transfer bs :: before).
              split; [cbn [forallb]; now rewrite Hc, Hb|].
              rewrite Hs, length_app. split; [lia|].
              split; [now rewrite app_assoc|].
              destruct Hcase as [[-> ->]|[-> ->]]; [left|right]; auto.
           ++ right. rewrite Hs, !length_app.
              split; [f_equal; lia|].
              split; [lia|]. split.
              ** rewrite firstn_app, (firstn_all2 bs) by exact El.
                 now rewrite <- app_assoc.
              ** rewrite skipn_app, (skipn_all2 bs) by exact El.
                 exact Hrest.
        -- apply Nat.leb_gt in El.
           intro H; injection H as <- <- <-. right.
           rewrite Hs, length_app. split; [reflexivity|]. split; [lia|].
           rewrite firstn_app.
           replace (bytes - length bs) with 0 by lia.
           rewrite firstn_O, app_nil_r. split; [reflexivity|].
           rewrite skipn_app.
           replace (bytes - length bs) with 0 by lia. rewrite skipn_O.
           cbn [stream_of].
           destruct (skipn bytes bs) eqn:Esk; [|reflexivity].
           apply (f_equal (@length _)) in Esk.
           rewrite length_skipn in Esk. simpl in Esk. lia.
    + intro H.
      destruct (IH _ _ H)
        as [(before & Hb & Hlt & -> & Hcase)|(-> & Hle & -> & Hrest)].
      * left. exists (Interrupted :: before).
        split; [exact Hb|]. split; [exact Hlt|]. split; [reflexivity|].
        destruct Hcase as [[-> ->]|[-> ->]]; [left|right]; auto.
      * right. auto.
    + intro H; injection H as <- <- <-. left. exists [].
      split; [reflexivity|]. simpl. split; [lia|].
      rewrite app_nil_r. split; [reflexivity|]. left. auto.
Qed.

Lemma same_tail_same_call {A : Type} (l1 l2 rest : list A) (x y : A) :
  l1 ++ x :: rest = l2 ++ y :: rest -> l1 = l2 /\ x = y.
Proof.
  intro H.
  change (l1 ++ [x] ++ rest = l2 ++ [y] ++ rest) in H.
  rewrite !app_assoc in H. apply app_inv_tail in H.
  apply app_inj_tail in H. exact H.
Qed.

(** X20. [read_full] returns -1 exactly when a read fails with an error
    other than [EINTR] before the bytes asked for have arrived, every
    call before it having brought bytes or been interrupted, and it
    reads no further than the failed call.  Otherwise it returns the
    number of bytes now in the buffer, which are the next bytes of the
    pipe, in order: all [bytes] asked for, or fewer only when a read
    returned 0, the end of the pipe, and then all the pipe still held.
    When it reads all [bytes], the pipe is left exactly after them, so
    the next message starts where this one stopped. *)
Theorem read_full_reads_the_stream (script : list Syscall) (bytes : nat)
    (r : Z) (buf : list byte) (rest : list Syscall) :
  read_full script bytes [] = Some (r, buf, rest) ->
  length buf <= bytes /\
  buf = firstn bytes (stream_of script) /\
  (r = (-1)%Z \/ r = Z.of_nat (length buf)) /\
  (r = (-1)%Z <->
   exists before,
     forallb carries_on before = true /\
     length (stream_of before) < bytes /\
     script = before ++ Failed :: rest) /\
  (r = (-1)%Z -> length (stream_of script) < bytes) /\
  (r <> (-1)%Z ->
   buf = firstn bytes (stream_of script) /\
   (length buf < bytes ->
    buf = stream_of script /\
    exists before,
      forallb carries_on before = true /\
      script = before ++ Transfer [] :: rest)) /\
  (r = Z.of_nat bytes ->
   stream_of rest = skipn bytes (stream_of script)).
Proof.
  intro H.
  destruct (read_full_calls _ _ _ _ _ _ H)
    as [(before & Hb & Hlt & -> & Hcase)|(-> & Hle & -> & Hrest)];
    cbn [app length Nat.add] in *.
  - assert (Hs : stream_of script = stream_of before).
    { destruct Hcase as [[_ ->]|[_ ->]];
        now apply stream_of_stops. }
    rewrite Hs. rewrite (firstn_all2 (stream_of before)) by lia.
    split; [lia|]. split; [reflexivity|].
    destruct Hcase as [[-> Hscr]|[-> Hscr]].
    + split; [now left|]. split.
      { split; [|reflexivity]. intros _. exists before. auto. }
      split; [intros _; exact Hlt|].
      split; [intro Hc; contradiction|]. intro Hc. lia.
    + split; [now right|]. split.
      { split; [intro Hc; lia|].
        intros (before' & Hb' & Hlt' & Hscr').
        rewrite Hscr in Hscr'.
        apply same_tail_same_call in Hscr' as [_ Hc]. discriminate. }
      split; [intro Hc; lia|]. split.
      * intros _. split; [reflexivity|]. intros _.
        split; [reflexivity|]. exists before. auto.
      * intro Hc. apply Nat2Z.inj in Hc. lia.
  - rewrite length_firstn.
    split; [lia|]. split; [reflexivity|].
    replace (Nat.min bytes (length (stream_of script))) with bytes by lia.
    split; [now right|]. split.
    { split; [intro Hc; lia|].
      intros (before' & Hb' & Hlt' & Hscr'). exfalso.
      rewrite Hscr', (stream_of_stops before' rest Failed Hb' eq_refl) in Hle.
      lia. }
    split; [intro Hc; lia|]. split.
    + intros _. split; [reflexivity|]. intro Hc. lia.
    + intros _. exact Hrest.
Qed.

(** A read that fails after one byte, and a pipe that ends after one
    byte. *)
Lemma read_full_reads_the_stream_witness :
  (exists r buf rest,
      read_full [Transfer [x61]; Interrupted; Failed; Transfer [x62]] 2 []
      = Some (r, buf, rest) /\
      r = (-1)%Z /\ buf = [x61]) /\
  (exists r buf rest,
      read_full [Transfer [x61]; Transfer []; Transfer [x62]] 2 []
      = Some (r, buf, rest) /\
      r = 1%Z /\ buf = [x61] /\ stream_of rest = [x62]).
Proof.
  split.
  - destruct (read_full [Transfer [x61]; Interrupted; Failed;
                         Transfer [x62]] 2 [])
      as [[[r buf] rest]|] eqn:E; [|vm_compute in E; discriminate].
    destruct (read_full_reads_the_stream _ _ _ _ _ E)
      as (_ & Hbuf & _ & Hfail & _).
    assert (Hrest : rest = [Transfer [x62]])
      by (vm_compute in E; congruence).
    exists r, buf, rest. split; [reflexivity|]. split.
    + apply Hfail. exists [Transfer [x61]; Interrupted].
      split; [reflexivity|]. split; [simpl; lia|].
      rewrite Hrest. reflexivity.
    + exact Hbuf.
  - destruct (read_full [Transfer [x61]; Transfer []; Transfer [x62]] 2 [])
      as [[[r buf] rest]|] eqn:E; [|vm_compute in E; discriminate].
    destruct (read_full_reads_the_stream _ _ _ _ _ E)
      as (_ & Hbuf & [Hr|Hr] & Hfail & _).
    + exfalso. destruct (proj1 Hfail Hr) as (before & _ & _ & Hscr).
      assert (Hrest : rest = [Transfer [x62]])
        by (vm_compute in E; congruence).
      rewrite Hrest in Hscr.
      destruct (same_tail_same_call [Transfer [x61]] before
                  [Transfer [x62]] (Transfer []) Failed Hscr) as [_ Hc].
      discriminate.
    + exists r, buf, rest. split; [reflexivity|].
      rewrite Hr, Hbuf. split; [reflexivity|]. split; [reflexivity|].
      vm_compute in E. injection E as _ _ <-. reflexivity.
Defined.

Lemma firstn_plus {A : Type} (n m : nat) (l : list A) :
  firstn (n + m) l = firstn n l ++ firstn m (skipn n l).
Proof.
  revert l. induction n as [|n IH]; intro l; [reflexivity|].
  destruct l as [|x l]; simpl.
  - now rewrite firstn_nil.
  - now rewrite IH.
Qed.

(** The calls [write_full] makes. *)
Lemma write_full_calls (script : list Syscall) (buffer sent : list byte)
    (r : Z) (out : list byte) (rest : list Syscall) :
  write_full script buffer sent = Some (r, out, rest) ->
  exists before,
    forallb not_failed before = true /\
    ((r = (-1)%Z /\
      script = before ++ Failed :: rest /\
      room_of before < length buffer /\
      out = sent ++ firstn (room_of before) buffer)
     \/
     (r = Z.of_nat (length sent + length buffer) /\
      script = before ++ rest /\
      length buffer <= room_of before /\
      out = sent ++ buffer)).
Proof.
  revert buffer sent. induction script as [|call script IH];
    intros buffer sent.
  - simpl. destruct (length buffer =? 0) eqn:E; [|discriminate].
    apply Nat.eqb_eq in E. pose proof E as E'.
    apply length_zero_iff_nil in E'. subst buffer.
    intro H; injection H as <- <- <-. exists []. split; [reflexivity|].
    right. rewrite ?app_nil_r. simpl. rewrite ?app_nil_r.
    split; [f_equal; lia|]. split; [reflexivity|]. split; [lia|].
    reflexivity.
  - cbn [write_full]. destruct (length buffer =? 0) eqn:E.
    { apply Nat.eqb_eq in E. pose proof E as E'.
      apply length_zero_iff_nil in E'. subst buffer.
      intro H; injection H as <- <- <-. exists []. split; [reflexivity|].
      right. rewrite ?app_nil_r. simpl. rewrite ?app_nil_r.
      split; [f_equal; lia|]. split; [reflexivity|]. split; [lia|].
      reflexivity. }
    apply Nat.eqb_neq in E.
    destruct call as [room| |].
    + destruct (length buffer <=? length room) eqn:El.
      * apply Nat.leb_le in El.
        intro H; injection H as <- <- <-. exists [Transfer room].
        split; [reflexivity|]. right. simpl.
        split; [reflexivity|]. split; [reflexivity|]. split; [lia|].
        reflexivity.
      * apply Nat.leb_gt in El. intro H.
        destruct (IH _ _ H) as (before & Hb & Hcase).
        exists (Transfer room :: before). split; [exact Hb|].
        rewrite length_skipn in Hcase. cbn [room_of].
        destruct Hcase as [(-> & -> & Hlt & ->)|(-> & -> & Hle & ->)].
        -- left. split; [reflexivity|]. split; [reflexivity|].
           split; [lia|]. rewrite firstn_plus, app_assoc. reflexivity.
        -- right. rewrite length_app, length_firstn, <- app_assoc,
             firstn_skipn.
           split; [f_equal; lia|]. split; [reflexivity|].
           split; [lia|reflexivity].
    + intro H. destruct (IH _ _ H) as (before & Hb & Hcase).
      exists (Interrupted :: before). split; [exact Hb|].
      cbn [room_of].
      destruct Hcase as [(-> & -> & Hlt & ->)|(-> & -> & Hle & ->)];
        [left|right]; auto.
    + intro H; injection H as <- <- <-. exists []. split; [reflexivity|].
      left. simpl. rewrite app_nil_r.
      split; [reflexivity|]. split; [reflexivity|]. split; [lia|].
      reflexivity.
Qed.

(** X21. [write_full] never returns a short count.  It returns -1
    exactly when a write fails with an error other than [EINTR] before
    the calls made so far have taken the whole buffer, and then what
    went into the pipe is what those calls took, a proper prefix of the
    buffer.  Otherwise it returns the whole length, every byte of the
    buffer went into the pipe, in order, and no call it made failed. *)
Theorem write_full_all_or_error (script : list Syscall)
    (buffer : list byte) (r : Z) (out : list byte) (rest : list Syscall) :
  write_full script buffer [] = Some (r, out, rest) ->
  ((r = Z.of_nat (length buffer) /\ out = buffer)
   \/
   (r = (-1)%Z /\
    exists todo, buffer = out ++ todo /\ todo <> [])) /\
  (r = (-1)%Z <->
   exists before,
     forallb not_failed before = true /\
     room_of before < length buffer /\
     script = before ++ Failed :: rest) /\
  (r = (-1)%Z ->
   exists before,
     script = before ++ Failed :: rest /\
     out = firstn (room_of before) buffer) /\
  (r <> (-1)%Z ->
   exists before,
     forallb not_failed before = true /\
     length buffer <= room_of before /\
     script = before ++ rest).
Proof.
  intro H.
  destruct (write_full_calls _ _ _ _ _ _ H) as (before & Hb & Hcase).
  cbn [app length Nat.add] in Hcase.
  destruct Hcase as [(-> & Hscr & Hlt & ->)|(-> & Hscr & Hle & ->)].
  - split.
    { right. split; [reflexivity|].
      exists (skipn (room_of before) buffer).
      split; [symmetry; apply firstn_skipn|].
      intro Hc. apply (f_equal (@length _)) in Hc.
      rewrite length_skipn in Hc. simpl in Hc. lia. }
    split.
    { split; [|reflexivity]. intros _. exists before. auto. }
    split; [intros _; exists before; auto|].
    intro Hc. contradiction.
  - split; [left; auto|]. split.
    { split; [intro Hc; lia|].
      intros (before' & Hb' & Hlt' & Hscr'). exfalso.
      rewrite Hscr in Hscr'.
      assert (Hbefore : before = before' ++ [Failed]).
      { change (before ++ rest = before' ++ [Failed] ++ rest) in Hscr'.
        rewrite app_assoc in Hscr'. now apply app_inv_tail in Hscr'. }
      rewrite Hbefore, forallb_app in Hb. simpl in Hb.
      rewrite andb_false_r in Hb. discriminate. }
    split; [intro Hc; lia|].
    intros _. exists before. auto.
Qed.

(** A write that fails after one byte was taken, and one that goes
    through in two calls. *)
Lemma write_full_all_or_error_witness :
  (exists r out rest,
      write_full [Transfer [x61]; Interrupted; Failed; Transfer [x61]]
        [x62; x63] [] = Some (r, out, rest) /\
      r = (-1)%Z) /\
  (exists r out rest,
      write_full [Transfer [x61]; Interrupted; Transfer [x61; x61; x61]]
        [x62; x63] [] = Some (r, out, rest) /\
      r = 2%Z /\ out = [x62; x63]).
Proof.
  split.
  - destruct (write_full [Transfer [x61]; Interrupted; Failed;
                          Transfer [x61]] [x62; x63] [])
      as [[[r out] rest]|] eqn:E; [|vm_compute in E; discriminate].
    destruct (write_full_all_or_error _ _ _ _ _ E) as (_ & Hfail & _).
    assert (Hrest : rest = [Transfer [x61]])
      by (vm_compute in E; congruence).
    exists r, out, rest. split; [reflexivity|].
    apply Hfail. exists [Transfer [x61]; Interrupted].
    split; [reflexivity|]. split; [simpl; lia|].
    rewrite Hrest. reflexivity.
  - destruct (write_full [Transfer [x61]; Interrupted;
                          Transfer [x61; x61; x61]] [x62; x63] [])
      as [[[r out] rest]|] eqn:E; [|vm_compute in E; discriminate].
    destruct (write_full_all_or_error _ _ _ _ _ E)
      as ([[Hr Hout]|[Hr _]] & Hfail & _).
    + exists r, out, rest. split; [reflexivity|]. split; assumption.
    + exfalso. destruct (proj1 Hfail Hr) as (before & Hb & _ & Hscr).
      assert (Hrest : rest = []) by (vm_compute in E; congruence).
      rewrite Hrest in Hscr.
      destruct (same_tail_same_call [Transfer [x61]; Interrupted] before
                  [] (Transfer [x61; x61; x61]) Failed Hscr) as [_ Hc].
      discriminate.
Defined.

(** X22. Interrupted calls are invisible: [read_full] and [write_full]
    return the same value and transfer the same bytes whether or not
    calls that fail with [EINTR] are interleaved with the others. *)
Theorem interrupts_are_retried (script : list Syscall) (bytes : nat)
    (buffer acc : list byte) :
  read_full (filter not_interrupted script) bytes acc
  = option_map (fun '(r, buf, rest) =>
                  (r, buf, filter not_interrupted rest))
      (read_full script bytes acc) /\
  write_full (filter not_interrupted script) buffer acc
  = option_map (fun '(r, out, rest) =>
                  (r, out, filter not_interrupted rest))
      (write_full script buffer acc).
Proof.
  split.
  - revert bytes acc. induction script as [|call script IH];
      intros bytes acc.
    + simpl. destruct (bytes =? 0); reflexivity.
    + destruct call as [bs| |]; cbn [filter not_interrupted read_full].
      * destruct (bytes =? 0) eqn:E; [reflexivity|].
        destruct (length bs =? 0); [reflexivity|].
        destruct (length bs <=? bytes); [apply IH|reflexivity].
      * rewrite IH. destruct (bytes =? 0) eqn:E; [|reflexivity].
        simpl. destruct script; simpl; rewrite E; reflexivity.
      * destruct (bytes =? 0); reflexivity.
  - revert buffer acc. induction script as [|call script IH];
      intros buffer acc.
    + simpl. destruct (length buffer =? 0); reflexivity.
    + destruct call as [room| |]; cbn [filter not_interrupted write_full].
      * destruct (length buffer =? 0) eqn:E; [reflexivity|].
        destruct (length buffer <=? length room); [reflexivity|apply IH].
      * rewrite IH. destruct (length buffer =? 0) eqn:E; [|reflexivity].
        simpl. destruct script; simpl; rewrite E; reflexivity.
      * destruct (length buffer =? 0); reflexivity.
Qed.

(** ** Sizes of the growable buffer *)

Lemma reserve_loop_spec (fuel : nat) (x needed : Z) :
  (0 < x < SIZE_MODULUS)%Z ->
  (needed <= 9223372036854775808)%Z ->
  (9223372036854775808 <= x * 2 ^ Z.of_nat fuel)%Z ->
  exists c k,
    reserve_loop fuel x needed = Some c /\
    (0 <= k)%Z /\ c = (x * 2 ^ k)%Z /\
    (needed <= c < SIZE_MODULUS)%Z /\
    (c = x \/ c < 2 * needed)%Z.
Proof.
  unfold SIZE_MODULUS.
  revert x. induction fuel as [|fuel IH]; intros x Hx Hn Hf.
  - simpl in *. rewrite Z.mul_1_r in Hf.
    destruct (x <? needed)%Z eqn:E; [apply Z.ltb_lt in E; lia|].
    apply Z.ltb_ge in E. exists x, 0%Z.
    split; [reflexivity|]. split; [lia|]. split; [simpl; lia|].
    split; [lia|]. now left.
  - cbn [reserve_loop]. destruct (x <? needed)%Z eqn:E.
    + apply Z.ltb_lt in E.
      assert (Hw : wrap_size (x * 2) = (x * 2)%Z).
      { unfold wrap_size, SIZE_MODULUS. apply Z.mod_small. lia. }
      rewrite Hw.
      rewrite Nat2Z.inj_succ, Z.pow_succ_r in Hf by lia.
      destruct (IH (x * 2)%Z) as (c & k & Hc & Hk & Heq & Hb & Hor);
        [lia|exact Hn|lia|].
      exists c, (Z.succ k). split; [exact Hc|]. split; [lia|].
      split; [rewrite Z.pow_succ_r by exact Hk; lia|].
      split; [exact Hb|]. right. lia.
    + apply Z.ltb_ge in E. exists x, 0%Z.
      split; [reflexivity|]. split; [lia|]. split; [simpl; lia|].
      split; [lia|]. now left.
Qed.

Lemma string_buffer_reserve_enough (capacity needed : Z) :
  (0 <= capacity < SIZE_MODULUS)%Z ->
  (0 <= needed <= 9223372036854775808)%Z ->
  exists c,
    string_buffer_reserve 64 capacity needed = Some c /\
    (needed <= c < SIZE_MODULUS)%Z /\ (capacity <= c)%Z.
Proof.
  intros Hc Hn. unfold string_buffer_reserve.
  destruct (needed <=? capacity)%Z eqn:E.
  - apply Z.leb_le in E. exists capacity.
    split; [reflexivity|]. split; lia.
  - apply Z.leb_gt in E.
    destruct (reserve_loop_spec 64
                (if (capacity =? 0)%Z then 4096%Z else capacity) needed)
      as (c & k & Hl & Hk & Heq & Hbd & _).
    + unfold SIZE_MODULUS in *.
      destruct (capacity =? 0)%Z eqn:E0; [lia|].
      apply Z.eqb_neq in E0. lia.
    + lia.
    + assert (H64 : (2 ^ Z.of_nat 64 = 18446744073709551616)%Z)
        by reflexivity.
      rewrite H64. destruct (capacity =? 0)%Z eqn:E0; [lia|].
      apply Z.eqb_neq in E0. lia.
    + exists c. split; [exact Hl|]. split; [exact Hbd|]. lia.
Qed.

(** X23. [string_buffer_reserve] with a request of at most 2^63 bytes
    ends within 64 doublings and leaves a capacity that is at least the
    request and never smaller than before; the capacity is untouched
    when it already suffices, and otherwise is the old capacity (4096
    for a fresh buffer) times a power of two, less than twice the
    request unless it is that first 4096. *)
Theorem string_buffer_reserve_grows (capacity needed : Z) :
  (0 <= capacity < SIZE_MODULUS)%Z ->
  (0 <= needed <= 9223372036854775808)%Z ->
  exists c,
    string_buffer_reserve 64 capacity needed = Some c /\
    (needed <= c < SIZE_MODULUS)%Z /\ (capacity <= c)%Z /\
    (needed <= capacity -> c = capacity)%Z /\
    (capacity < needed ->
     exists k,
       (0 <= k)%Z /\
       c = ((if (capacity =? 0)%Z then 4096 else capacity) * 2 ^ k)%Z /\
       (c = 4096 \/ c < 2 * needed)%Z)%Z.
Proof.
  intros Hc Hn. unfold string_buffer_reserve.
  destruct (needed <=? capacity)%Z eqn:E.
  - apply Z.leb_le in E. exists capacity.
    split; [reflexivity|]. split; [lia|]. split; [lia|].
    split; [reflexivity|]. intro; lia.
  - apply Z.leb_gt in E.
    set (base := if (capacity =? 0)%Z then 4096%Z else capacity).
    assert (Hbase : (0 < base < SIZE_MODULUS)%Z /\ (capacity <= base)%Z /\
                    (base = 4096 \/ base = capacity)%Z).
    { unfold base, SIZE_MODULUS in *.
      destruct (capacity =? 0)%Z eqn:E0.
      - apply Z.eqb_eq in E0. lia.
      - apply Z.eqb_neq in E0. lia. }
    destruct Hbase as (Hb & Hcb & Hor).
    destruct (reserve_loop_spec 64 base needed Hb)
      as (c & k & Hl & Hk & Heq & Hbd & Hcase); [lia| |].
    { assert (H64 : (2 ^ Z.of_nat 64 = 18446744073709551616)%Z)
        by reflexivity.
      rewrite H64. lia. }
    exists c. split; [exact Hl|]. split; [exact Hbd|].
    assert (Hge : (base <= c)%Z).
    { rewrite Heq.
      assert (H1 : (0 < 2 ^ k)%Z) by (apply Z.pow_pos_nonneg; lia).
      nia. }
    split; [lia|]. split; [intro; lia|].
    intros _. exists k. split; [exact Hk|]. split; [exact Heq|].
    destruct Hcase as [->|Hlt]; [|now right].
    destruct Hor as [->| ->]; [now left|lia].
Qed.

Lemma string_buffer_reserve_grows_witness :
  exists c,
    string_buffer_reserve 64 0 8193 = Some c /\
    (8193 <= c < SIZE_MODULUS)%Z.
Proof.
  destruct (string_buffer_reserve_grows 0 8193) as (c & Hc & Hb & _).
  - unfold SIZE_MODULUS. lia.
  - lia.
  - exists c. split; assumption.
Defined.

(** X24. [string_buffer_append] stays inside its allocation: for a
    buffer that is fresh (no storage, length 0) or has its length below
    its capacity, and as long as the new length plus one is at most
    2^63, after the append the length has grown by [len] and is still
    below the capacity, so the copied bytes and the terminator written
    after them are within the storage, and the capacity has not
    shrunk. *)
Theorem string_buffer_append_in_bounds (b : BufferSizes) (len : Z) :
  (0 <= bs_length b)%Z -> (0 <= len)%Z ->
  (bs_capacity b < SIZE_MODULUS)%Z ->
  ((bs_capacity b = 0 /\ bs_length b = 0) \/ bs_length b < bs_capacity b)%Z ->
  (bs_length b + len + 1 <= 9223372036854775808)%Z ->
  exists b',
    string_buffer_append_sizes 64 b len = Some b' /\
    bs_length b' = (bs_length b + len)%Z /\
    (bs_length b' < bs_capacity b' < SIZE_MODULUS)%Z /\
    (bs_capacity b <= bs_capacity b')%Z.
Proof.
  intros Hl Hlen Hcap Hinv Hsum. unfold string_buffer_append_sizes.
  assert (Hw1 : wrap_size (bs_length b + len) = (bs_length b + len)%Z).
  { unfold wrap_size, SIZE_MODULUS. apply Z.mod_small. lia. }
  assert (Hw2 : wrap_size (bs_length b + len + 1)
                = (bs_length b + len + 1)%Z).
  { unfold wrap_size, SIZE_MODULUS. apply Z.mod_small. lia. }
  rewrite Hw1, Hw2.
  destruct (string_buffer_reserve_enough (bs_capacity b)
              (bs_length b + len + 1)) as (c & -> & Hb & Hge);
    [lia|lia|].
  eexists. split; [reflexivity|]. simpl. lia.
Qed.

Lemma string_buffer_append_in_bounds_witness :
  exists b',
    string_buffer_append_sizes 64 (mkSizes 0 0) 5000 = Some b' /\
    bs_length b' = 5000%Z /\ (bs_length b' < bs_capacity b')%Z.
Proof.
  destruct (string_buffer_append_in_bounds (mkSizes 0 0) 5000)
    as (b' & Hb & Hl & [Hlt _] & _); simpl;
    try lia; try (unfold SIZE_MODULUS; lia).
  exists b'. split; [exact Hb|]. split; [exact Hl|exact Hlt].
Defined.

(** ** The wrapped pattern *)

Lemma c_str_clean (data : list byte) :
  Forall (fun b => b <> NUL) (c_str data).
Proof.
  induction data as [|b data IH]; simpl; [constructor|].
  destruct (Byte.eqb b NUL) eqn:E; [constructor|].
  constructor; [|exact IH].
  intro H. subst b. discriminate.
Qed.

(** X25. [wrap_pattern_with_boundaries] writes exactly as many bytes,
    terminator included, as it asked of [malloc]; the result is a C
    string without an inner NUL, made of the fixed prefix, the pattern
    and the fixed suffix, 36 bytes longer than the pattern; and two
    patterns are wrapped into the same string only if they are the same
    C string. *)
Theorem wrap_pattern_fits (pattern other : list byte) :
  length (fst (wrap_pattern_with_boundaries pattern)) + 1
  = snd (wrap_pattern_with_boundaries pattern) /\
  length (fst (wrap_pattern_with_boundaries pattern))
  = length (c_str pattern) + 36 /\
  c_str (fst (wrap_pattern_with_boundaries pattern))
  = fst (wrap_pattern_with_boundaries pattern) /\
  (fst (wrap_pattern_with_boundaries pattern)
   = fst (wrap_pattern_with_boundaries other) ->
   c_str pattern = c_str other).
Proof.
  unfold wrap_pattern_with_boundaries. cbn [fst snd].
  assert (Hp : length pattern_prefix = 18) by reflexivity.
  assert (Hs : length pattern_suffix = 18) by reflexivity.
  split; [rewrite !length_app; lia|].
  split; [rewrite !length_app; lia|].
  split.
  - apply c_str_no_nul. apply Forall_app. split.
    + unfold pattern_prefix.
      repeat (constructor; [discriminate|]). constructor.
    + apply Forall_app. split; [apply c_str_clean|].
      unfold pattern_suffix.
      repeat (constructor; [discriminate|]). constructor.
  - intro H. apply app_inv_head in H. now apply app_inv_tail in H.
Qed.

Lemma wrap_pattern_fits_witness :
  length (fst (wrap_pattern_with_boundaries (bytes_of "alpha"%string))) + 1
  = snd (wrap_pattern_with_boundaries (bytes_of "alpha"%string)) /\
  c_str (bytes_of "alpha"%string) = c_str (bytes_of "alpha"%string).
Proof.
  destruct (wrap_pattern_fits (bytes_of "alpha"%string)
              (bytes_of "alpha"%string)) as (H1 & _ & _ & H4).
  split; [exact H1|]. apply H4. reflexivity.
Defined.

(** ** The further properties at concrete inputs *)

Lemma scenario_procs_bound : 2 <= MAX_PROCESSES.
Proof. apply Nat.leb_le. reflexivity. Defined.

(** After its request is answered with the end flag, worker 0 of the
    scenario has its flag set. *)
Lemma end_flag_sent_once_witness :
  exists s,
    run scenario_input scenario_regex (system_init 2)
      [mkEvent 1 0; mkEvent 0 0] = Some s /\
    nth_error (workers s) 0 = Some Exiting /\
    nth 0 (end_sent (coord s)) false = true.
Proof.
  destruct (run scenario_input scenario_regex (system_init 2)
              [mkEvent 1 0; mkEvent 0 0]) as [s|] eqn:Hrun;
    [|vm_compute in Hrun; discriminate].
  assert (Hw : nth_error (workers s) 0 = Some Exiting)
    by (vm_compute in Hrun; injection Hrun as <-; reflexivity).
  exists s. split; [reflexivity|]. split; [exact Hw|].
  exact (proj2 (end_flag_sent_once scenario_input scenario_regex 2
                  [mkEvent 1 0; mkEvent 0 0] s 0 Exiting
                  scenario_procs_bound Hrun Hw)).
Defined.

Lemma dispatch_loop_never_stuck_witness :
  exists s',
    system_step scenario_input scenario_regex (system_init 2) (mkEvent 1 3)
    = Some s'.
Proof.
  destruct (dispatch_loop_never_stuck scenario_input scenario_regex 2
              scenario_input_fits [] (system_init 2)
              scenario_procs_bound eq_refl) as [Hen _].
  apply (Hen 1 Requesting 3%Z); [reflexivity|discriminate].
Defined.

Lemma dispatch_loop_bounded_witness :
  length scenario_schedule <= 2 * length scenario_input + 2 * 2.
Proof.
  destruct (run scenario_input scenario_regex (system_init 2)
              scenario_schedule) as [s|] eqn:Hrun.
  - exact (dispatch_loop_bounded scenario_input scenario_regex 2
             scenario_input_fits scenario_schedule s Hrun).
  - vm_compute in Hrun. discriminate.
Defined.

Lemma main_can_complete_witness :
  exists es cf, main scenario_input scenario_regex 2 es = Some cf.
Proof.
  apply (main_can_complete scenario_input scenario_regex 2
           scenario_input_fits).
  split; [apply Nat.leb_le; reflexivity|exact scenario_procs_bound].
Defined.

Lemma log_covers_the_file_witness :
  exists cf,
    main two_chunk_input scenario_regex 1 one_worker_schedule = Some cf /\
    total_bytes (logfile cf) = length two_chunk_input.
Proof.
  destruct (main two_chunk_input scenario_regex 1 one_worker_schedule)
    as [cf|] eqn:E; [|vm_compute in E; discriminate].
  exists cf. split; [reflexivity|].
  exact (proj1 (proj2 (log_covers_the_file two_chunk_input scenario_regex
                         1 two_chunk_input_fits one_worker_schedule)
                  cf E)).
Defined.

Lemma main_leaves_nothing_behind_witness :
  exists cf,
    main scenario_input scenario_regex 2 scenario_schedule = Some cf /\
    carry cf = [] /\ pending_chunks cf = [] /\ finished_children cf = 2.
Proof.
  destruct (main scenario_input scenario_regex 2 scenario_schedule)
    as [cf|] eqn:E; [|vm_compute in E; discriminate].
  exists cf. split; [reflexivity|].
  destruct (main_leaves_nothing_behind scenario_input scenario_regex 2
              scenario_input_fits scenario_schedule cf E)
    as (H1 & H2 & _ & _ & _ & H6 & _).
  auto.
Defined.


(** Two workers hold the two ranges of the two-chunk input; the second
    result is read first. *)
Lemma pending_ranges_distinct_witness :
  exists s,
    run two_chunk_input scenario_regex (system_init 2)
      [mkEvent 0 0; mkEvent 1 0; mkEvent 1 6] = Some s /\
    NoDup (map fst (map chunk_range (pending_chunks (coord s))
                    ++ flat_map worker_range (workers s))) /\
    length (pending_chunks (coord s)) = 1.
Proof.
  destruct (run two_chunk_input scenario_regex (system_init 2)
              [mkEvent 0 0; mkEvent 1 0; mkEvent 1 6]) as [s|] eqn:Hrun;
    [|vm_compute in Hrun; discriminate].
  exists s. split; [reflexivity|].
  split.
  - exact (proj1 (pending_ranges_distinct two_chunk_input scenario_regex 2
                    two_chunk_input_fits _ s Hrun)).
  - vm_compute in Hrun. injection Hrun as <-. reflexivity.
Defined.

Lemma result_out_of_order_is_held_witness :
  exists s s',
    run two_chunk_input scenario_regex (system_init 2)
      [mkEvent 0 0; mkEvent 1 0] = Some s /\
    system_step two_chunk_input scenario_regex s (mkEvent 1 6) = Some s' /\
    nth_error (workers s) 1 = Some (Assigned 8192 2) /\
    logfile (coord s') = logfile (coord s) /\
    length (pending_chunks (coord s')) = 1.
Proof.
  destruct (run two_chunk_input scenario_regex (system_init 2)
              [mkEvent 0 0; mkEvent 1 0]) as [s|] eqn:Hrun;
    [|vm_compute in Hrun; discriminate].
  destruct (system_step two_chunk_input scenario_regex s (mkEvent 1 6))
    as [s'|] eqn:Hstep;
    [|vm_compute in Hrun; injection Hrun as <-;
      vm_compute in Hstep; discriminate].
  assert (Hs : s = mkSystem
                     (mkCoordinator 8194 0 [] [] false 0
                        (repeat false MAX_PROCESSES) (mkOutput [] []) [])
                     [Assigned 0 8192; Assigned 8192 2])
    by (vm_compute in Hrun; injection Hrun as <-; reflexivity).
  assert (Hw : nth_error (workers s) 1 = Some (Assigned 8192 2))
    by (rewrite Hs; reflexivity).
  exists s, s'. split; [reflexivity|]. split; [exact Hstep|].
  split; [exact Hw|].
  destruct (result_out_of_order_is_held two_chunk_input scenario_regex 2
              two_chunk_input_fits _ s s' (mkEvent 1 6) 8192 2
              Hrun Hstep Hw) as [Hout _].
  destruct Hout as (_ & Hlog & _ & _ & Hpd).
  - rewrite Hs. simpl. discriminate.
  - split; [exact Hlog|]. rewrite Hpd, Hs. reflexivity.
Defined.
